(** * Compound-interest calculator service: model and verified properties

    Shallow embedding of [backend/app/services/calculator_service.py]
    ([CalculatorService.calculate_compound_interest] and
    [CalculatorService.validate_request]) and of the request model of
    [backend/app/models/calculator.py].

    Numbers.  The service converts every float field with
    [Decimal(str(x))] and computes with Python's [decimal] module under the
    default context: 28 significant digits, ROUND_HALF_EVEN.  A decimal is
    modelled by its signed coefficient and its exponent; every operation
    computes the exact result and then rounds it the way [Decimal._fix]
    does.  The exponent limits of the context (Emax = 999999,
    Emin = -999999) and the sign of a zero are not modelled.

    A float field of a request is carried as the decimal numeral that
    [str()] prints for it (the shortest numeral that reads back as the same
    float), which is the only form in which the calculation looks at it;
    comparing such a numeral with an integer literal gives the same answer
    as comparing the float.  Infinities and NaN, which the request model
    rejects, have no numeral.  A float field of a response is carried as
    the two-place decimal it is converted from.

    Two things the service takes from outside are parameters of the model:
    the power [x ** y] of the [decimal] module, used for the annualised
    return only, and the reading of the clock.

    Further modules.  The input validator of
    [backend/app/core/validation.py] ([CalculatorInputValidator],
    [validate_business_logic], [validate_api_limits]) works on decimals
    and is modelled with the same arithmetic.  Of
    [backend/app/core/security.py] the model has
    [InputSanitizer.sanitize_string] (a string is the list of its code
    points), [RateLimitMiddleware.is_rate_limited],
    [SecurityAuditLogger.log_security_event] and
    [DDoSProtection.mark_suspicious] and [is_blocked]; of
    [backend/app/core/monitoring.py], [MetricsCollector.collect_metric];
    of [backend/app/core/cache.py], [MemoryCache].  In these the readings
    of [time.time()] are arguments of an abstract type, with the
    comparisons and sums the code makes on them as parameters; a dict that
    is only looked up and updated is a function from keys, a dict whose
    order of iteration matters is the list of its items; the exceptions a
    call can raise ([ValueError], [KeyError]) are results.

    Layout: the decimal arithmetic, the data model and the service; the
    definitions the properties are stated with; then the properties, each
    with the facts about rounding it needs. *)

From Stdlib Require Import ZArith List String Bool Lia Reals Lra.
Import ListNotations.
Local Open Scope Z_scope.

(** ** Exceptions and the error monad *)

Inductive exn : Type :=
| InvalidOperation   (* decimal.InvalidOperation *)
| DivisionByZero.    (* decimal.DivisionByZero *)

Inductive Result (A : Type) : Type :=
| Ok (a : A)
| Raise (e : exn).
Arguments Ok {A} a.
Arguments Raise {A} e.

Definition bind {A B : Type} (m : Result A) (k : A -> Result B) : Result B :=
  match m with
  | Ok a => k a
  | Raise e => Raise e
  end.

Declare Scope result_scope.
Delimit Scope result_scope with result.
Notation "x <- m ;; k" := (bind m (fun x => k))
  (at level 61, m at next level, right associativity) : result_scope.

(** ** Decimal arithmetic *)

Module Dec.

(** [d_int] is the coefficient with its sign, [d_exp] the exponent: the
    number is [d_int * 10 ^ d_exp]. *)
Record Decimal : Type := mkDecimal { d_int : Z; d_exp : Z }.

(** Precision of the default context. *)
Definition prec : Z := 28.

Fixpoint ndigits_aux (fuel : nat) (n : Z) : Z :=
  match fuel with
  | O => 1
  | S f => if n <? 10 then 1 else 1 + ndigits_aux f (n / 10)
  end.

(** Number of decimal digits of a non-negative integer, [len(self._int)];
    the coefficient 0 has one digit. *)
Definition ndigits (n : Z) : Z := ndigits_aux (S (Z.to_nat (Z.log2 n))) n.

(** [_round_half_even]: drop the last [k] digits of the magnitude [n]. *)
Definition round_half_even (n k : Z) : Z :=
  let q := n / 10 ^ k in
  let r := n mod 10 ^ k in
  if (10 ^ k <? 2 * r) || ((2 * r =? 10 ^ k) && Z.odd q) then q + 1 else q.

(** [_round_half_up]: drop the last [k] digits of the magnitude [n]. *)
Definition round_half_up (n k : Z) : Z :=
  let q := n / 10 ^ k in
  let r := n mod 10 ^ k in
  if 10 ^ k <=? 2 * r then q + 1 else q.

(** [Decimal._fix]: round to the precision of the context. *)
Definition fix_ (d : Decimal) : Decimal :=
  let n := Z.abs (d_int d) in
  let len := ndigits n in
  if len <=? prec then d
  else
    let k := len - prec in
    let q := round_half_even n k in
    if prec <? ndigits q
    then mkDecimal (Z.sgn (d_int d) * (q / 10)) (d_exp d + k + 1)
    else mkDecimal (Z.sgn (d_int d) * q) (d_exp d + k).

Definition of_Z (n : Z) : Decimal := mkDecimal n 0.

Definition neg (a : Decimal) : Decimal := mkDecimal (- d_int a) (d_exp a).

(** [__add__]: the exact sum at the smaller exponent, then [_fix]. *)
Definition add (a b : Decimal) : Decimal :=
  let e := Z.min (d_exp a) (d_exp b) in
  fix_ (mkDecimal (d_int a * 10 ^ (d_exp a - e) + d_int b * 10 ^ (d_exp b - e)) e).

(** [__sub__] is [self.__add__(other.copy_negate())]. *)
Definition sub (a b : Decimal) : Decimal := add a (neg b).

(** [__mul__]: the exact product, then [_fix]. *)
Definition mul (a b : Decimal) : Decimal :=
  fix_ (mkDecimal (d_int a * d_int b) (d_exp a + d_exp b)).

(** The loop of [__truediv__] that brings an exact quotient as close to the
    ideal exponent as its trailing zeros allow. *)
Fixpoint strip_to_ideal (fuel : nat) (coeff exp ideal : Z) : Z * Z :=
  match fuel with
  | O => (coeff, exp)
  | S f =>
      if (exp <? ideal) && (coeff mod 10 =? 0)
      then strip_to_ideal f (coeff / 10) (exp + 1) ideal
      else (coeff, exp)
  end.

(** [__truediv__]. *)
Definition div (a b : Decimal) : Result Decimal :=
  if d_int b =? 0 then
    if d_int a =? 0 then Raise InvalidOperation else Raise DivisionByZero
  else if d_int a =? 0 then Ok (fix_ (mkDecimal 0 (d_exp a - d_exp b)))
  else
    let sign := Z.sgn (d_int a) * Z.sgn (d_int b) in
    let op1 := Z.abs (d_int a) in
    let op2 := Z.abs (d_int b) in
    let shift := ndigits op2 - ndigits op1 + prec + 1 in
    let exp := d_exp a - d_exp b - shift in
    let num := if 0 <=? shift then op1 * 10 ^ shift else op1 in
    let den := if 0 <=? shift then op2 else op2 * 10 ^ (- shift) in
    let coeff := num / den in
    let remainder := num mod den in
    let '(coeff', exp') :=
      if negb (remainder =? 0)
      then ((if coeff mod 5 =? 0 then coeff + 1 else coeff), exp)
      else strip_to_ideal (Z.to_nat (ndigits coeff)) coeff exp (d_exp a - d_exp b) in
    Ok (fix_ (mkDecimal (sign * coeff') exp')).

(** Comparison of two decimals by value. *)
Definition compare (a b : Decimal) : comparison :=
  let e := Z.min (d_exp a) (d_exp b) in
  (d_int a * 10 ^ (d_exp a - e)) ?= (d_int b * 10 ^ (d_exp b - e)).

Definition ltb (a b : Decimal) : bool :=
  match compare a b with Lt => true | _ => false end.
Definition leb (a b : Decimal) : bool :=
  match compare a b with Gt => false | _ => true end.
Definition eqb (a b : Decimal) : bool :=
  match compare a b with Eq => true | _ => false end.

(** [quantize(Decimal('0.01'), rounding=ROUND_HALF_UP)]: the value with
    exactly two decimal places; InvalidOperation when the result would need
    more digits than the precision. *)
Definition quantize2 (d : Decimal) : Result Decimal :=
  let n := Z.abs (d_int d) in
  if n =? 0 then Ok (mkDecimal 0 (-2))
  else if prec <? (d_exp d + ndigits n - 1) - (-2) + 1 then Raise InvalidOperation
  else
    let q :=
      if -2 <=? d_exp d then n * 10 ^ (d_exp d + 2)
      else round_half_up n (-2 - d_exp d) in
    if prec <? ndigits q then Raise InvalidOperation
    else Ok (mkDecimal (Z.sgn (d_int d) * q) (-2)).

End Dec.

Import Dec.
Local Open Scope result_scope.

(** ** Data model ([app/models/calculator.py]) *)

Local Open Scope string_scope.

(** [CalculatorRequest].  [principal], [monthly_payment] and [annual_rate]
    are the float fields, [years] the int field. *)
Record CalculatorRequest : Type := mkRequest {
  principal : Decimal;
  monthly_payment : Decimal;
  annual_rate : Decimal;
  years : Z;
  compound_frequency : string
}.

(** [YearlyBreakdown]. *)
Record YearlyBreakdown : Type := mkBreakdown {
  year : Z;
  start_amount : Decimal;
  contributions : Decimal;
  interest : Decimal;
  end_amount : Decimal;
  growth_rate : Decimal
}.

(** [CalculatorResponse]. *)
Record CalculatorResponse : Type := mkResponse {
  final_amount : Decimal;
  total_contributions : Decimal;
  total_interest : Decimal;
  annual_return : Decimal;
  yearly_breakdown : list YearlyBreakdown;
  calculation_time : string
}.

(** The constraints the request model declares on its fields:
    [principal: gt=0, le=10_000_000], [monthly_payment: ge=0, le=50_000],
    [annual_rate: gt=0, le=20], [years: gt=0, le=50] and the validator
    [validate_compound_frequency].  The result lists the fields that are
    rejected, in the order of declaration. *)
Definition allowed_frequencies : list string := ["monthly"; "quarterly"; "yearly"].

Definition in_list (v : string) (l : list string) : bool :=
  existsb (String.eqb v) l.

Definition model_field_errors (r : CalculatorRequest) : list string :=
  (if ltb (of_Z 0) (principal r) && leb (principal r) (of_Z 10000000)
   then [] else ["principal"]) ++
  (if leb (of_Z 0) (monthly_payment r) && leb (monthly_payment r) (of_Z 50000)
   then [] else ["monthly_payment"]) ++
  (if ltb (of_Z 0) (annual_rate r) && leb (annual_rate r) (of_Z 20)
   then [] else ["annual_rate"]) ++
  (if (0 <? years r)%Z && (years r <=? 50)%Z
   then [] else ["years"]) ++
  (if in_list (compound_frequency r) allowed_frequencies
   then [] else ["compound_frequency"]).

(** Constructing a [CalculatorRequest] succeeds exactly when no field is
    rejected. *)
Definition model_accepts (r : CalculatorRequest) : bool :=
  match model_field_errors r with [] => true | _ => false end.

(** The numeral [str()] prints for a float has at most 17 significant
    digits. *)
Definition float_numeral (d : Decimal) : bool :=
  (ndigits (Z.abs (d_int d)) <=? 17)%Z.

(** A valid input of the service: a request the model accepts, whose float
    fields are numerals of floats. *)
Definition valid_request (r : CalculatorRequest) : bool :=
  model_accepts r && float_numeral (principal r) &&
  float_numeral (monthly_payment r) && float_numeral (annual_rate r).

(** ** The service ([app/services/calculator_service.py]) *)

(** The variables the inner loop over the periods of a year updates. *)
Record PeriodState : Type := mkPeriodState {
  ps_current_amount : Decimal;
  ps_year_contributions : Decimal;
  ps_total_contributions : Decimal;
  ps_year_interest : Decimal
}.

(** The variables the loop over the years updates. *)
Record YearState : Type := mkYearState {
  ys_current_amount : Decimal;
  ys_total_contributions : Decimal;
  ys_yearly_breakdown : list YearlyBreakdown
}.

(** Body of [for period in range(periods_per_year)]. *)
Definition period_body (frequency : string) (monthly_payment rate_per_period : Decimal)
    (s : PeriodState) : PeriodState :=
  let s1 :=
    if (frequency =? "monthly") && ltb (of_Z 0) monthly_payment
    then mkPeriodState (add (ps_current_amount s) monthly_payment)
                       (add (ps_year_contributions s) monthly_payment)
                       (add (ps_total_contributions s) monthly_payment)
                       (ps_year_interest s)
    else s in
  let period_interest := mul (ps_current_amount s1) rate_per_period in
  mkPeriodState (add (ps_current_amount s1) period_interest)
                (ps_year_contributions s1)
                (ps_total_contributions s1)
                (add (ps_year_interest s1) period_interest).

Fixpoint period_loop (n : nat) (frequency : string)
    (monthly_payment rate_per_period : Decimal) (s : PeriodState) : PeriodState :=
  match n with
  | O => s
  | S n' =>
      period_loop n' frequency monthly_payment rate_per_period
        (period_body frequency monthly_payment rate_per_period s)
  end.

(** The contribution step after the periods of a year. *)
Definition year_end_contribution (frequency : string) (monthly_payment : Decimal)
    (s : PeriodState) : PeriodState :=
  if in_list frequency ["quarterly"; "yearly"] && ltb (of_Z 0) monthly_payment
  then
    let annual_contribution := mul monthly_payment (of_Z 12) in
    mkPeriodState (add (ps_current_amount s) annual_contribution)
                  (add (ps_year_contributions s) annual_contribution)
                  (add (ps_total_contributions s) annual_contribution)
                  (ps_year_interest s)
  else s.

(** The amounts of one year before they are rounded for the breakdown:
    the state after the periods and the year-end contribution. *)
Definition year_amounts (frequency : string) (periods_per_year : nat)
    (monthly_payment rate_per_period : Decimal) (y : YearState) : PeriodState :=
  year_end_contribution frequency monthly_payment
    (period_loop periods_per_year frequency monthly_payment rate_per_period
       (mkPeriodState (ys_current_amount y) (of_Z 0)
                      (ys_total_contributions y) (of_Z 0))).

(** [growth_rate] of a year that started at [year_start_amount] and ended
    at [current_amount]. *)
Definition year_growth_rate (year_start_amount current_amount : Decimal)
    : Result Decimal :=
  if ltb (of_Z 0) year_start_amount
  then
    q <- div (sub current_amount year_start_amount) year_start_amount ;;
    Ok (mul q (of_Z 100))
  else Ok (of_Z 0).

(** Body of [for year in range(1, years + 1)]. *)
Definition year_body (frequency : string) (periods_per_year : nat)
    (monthly_payment rate_per_period : Decimal) (year : Z) (y : YearState)
    : Result YearState :=
  let year_start_amount := ys_current_amount y in
  let s := year_amounts frequency periods_per_year monthly_payment rate_per_period y in
  growth <- year_growth_rate year_start_amount (ps_current_amount s) ;;
  q_start <- quantize2 year_start_amount ;;
  q_contributions <- quantize2 (ps_year_contributions s) ;;
  q_interest <- quantize2 (ps_year_interest s) ;;
  q_end <- quantize2 (ps_current_amount s) ;;
  q_growth <- quantize2 growth ;;
  Ok (mkYearState (ps_current_amount s) (ps_total_contributions s)
        (ys_yearly_breakdown y ++
           [mkBreakdown year q_start q_contributions q_interest q_end q_growth])).

(** The loop over the years: [n] years remain, the next one is [year]. *)
Fixpoint year_loop (n : nat) (frequency : string) (periods_per_year : nat)
    (monthly_payment rate_per_period : Decimal) (year : Z) (y : YearState)
    : Result YearState :=
  match n with
  | O => Ok y
  | S n' =>
      y' <- year_body frequency periods_per_year monthly_payment rate_per_period year y ;;
      year_loop n' frequency periods_per_year monthly_payment rate_per_period (year + 1) y'
  end.

(** [periods_per_year] and [rate_per_period] for a frequency; any string
    other than "monthly" and "quarterly" takes the [else] branch. *)
Definition periods_of (frequency : string) : nat :=
  if frequency =? "monthly" then 12%nat
  else if frequency =? "quarterly" then 4%nat
  else 1%nat.

Definition rate_per_period_of (frequency : string) (annual_rate : Decimal)
    : Result Decimal :=
  if frequency =? "monthly" then div annual_rate (of_Z 12)
  else if frequency =? "quarterly" then div annual_rate (of_Z 4)
  else Ok annual_rate.

Section Service.

(** [Decimal.__pow__] of the [decimal] module, used once, with the
    non-integral exponent [1 / years]; it is taken as a parameter. *)
Variable power : Decimal -> Decimal -> Result Decimal.

(** The annualised return before rounding. *)
Definition annual_return_of (final_amount total_contributions : Decimal) (years : Z)
    : Result Decimal :=
  if ltb (of_Z 0) total_contributions && (0 <? years)%Z
  then
    ratio <- div final_amount total_contributions ;;
    exponent <- div (of_Z 1) (of_Z years) ;;
    p <- power ratio exponent ;;
    Ok (mul (sub p (of_Z 1)) (of_Z 100))
  else Ok (of_Z 0).

(** [CalculatorService.calculate_compound_interest].  [now] is the reading
    of the clock, [datetime.now().isoformat()]. *)
Definition calculate_compound_interest (now : string) (request : CalculatorRequest)
    : Result CalculatorResponse :=
  let principal := principal request in
  let monthly_payment := monthly_payment request in
  annual_rate <- div (annual_rate request) (of_Z 100) ;;
  let years := years request in
  let periods_per_year := periods_of (compound_frequency request) in
  rate_per_period <- rate_per_period_of (compound_frequency request) annual_rate ;;
  y <- year_loop (Z.to_nat years) (compound_frequency request) periods_per_year
         monthly_payment rate_per_period 1
         (mkYearState principal principal []) ;;
  let final_amount := ys_current_amount y in
  let total_contributions := ys_total_contributions y in
  let total_interest := sub final_amount total_contributions in
  annual_return <- annual_return_of final_amount total_contributions years ;;
  q_final <- quantize2 final_amount ;;
  q_contributions <- quantize2 total_contributions ;;
  q_interest <- quantize2 total_interest ;;
  q_return <- quantize2 annual_return ;;
  Ok (mkResponse q_final q_contributions q_interest q_return
        (ys_yearly_breakdown y) now).

End Service.


(** ** Definitions used to state the properties *)

(** [x ** 1] is [x] rounded to the context: the one case of
    [Decimal.__pow__] that the concrete one-year runs of this file go
    through ([1 / years] is [1] there). *)
Definition power_one (x y : Decimal) : Result Decimal :=
  if eqb y (of_Z 1) then Ok (fix_ x) else Raise InvalidOperation.

(** Interest accrual of one period on the amount [c], without any
    contribution: returns the new amount and the interest of the period. *)
Definition accrue (rate_per_period c : Decimal) : Decimal * Decimal :=
  let period_interest := mul c rate_per_period in
  (add c period_interest, period_interest).

(** [n] periods of pure accrual, starting from the amount [c] with the
    interest [i] accumulated so far. *)
Fixpoint accrue_periods (n : nat) (rate_per_period c i : Decimal) : Decimal * Decimal :=
  match n with
  | O => (c, i)
  | S n' =>
      let '(c', p) := accrue rate_per_period c in
      accrue_periods n' rate_per_period c' (add i p)
  end.


(** [principal + monthly_payment * 12 * years] computed without any
    rounding: the exact sum, at the smaller of the two exponents. *)
Definition exact_contributions (r : CalculatorRequest) : Decimal :=
  let e := Z.min (d_exp (principal r)) (d_exp (monthly_payment r)) in
  mkDecimal (d_int (principal r) * 10 ^ (d_exp (principal r) - e)
             + d_int (monthly_payment r) * 12 * years r
               * 10 ^ (d_exp (monthly_payment r) - e)) e.

(** The request [r] with another compounding frequency. *)
Definition with_frequency (r : CalculatorRequest) (f : string) : CalculatorRequest :=
  mkRequest (principal r) (monthly_payment r) (annual_rate r) (years r) f.

(** The numeric fields of two responses agree. *)
Definition same_figures (a b : CalculatorResponse) : Prop :=
  final_amount a = final_amount b /\
  total_contributions a = total_contributions b /\
  total_interest a = total_interest b /\
  annual_return a = annual_return b /\
  yearly_breakdown a = yearly_breakdown b.

(** Replace the time stamp of a result. *)
Definition stamp (now : string) (r : Result CalculatorResponse) : Result CalculatorResponse :=
  match r with
  | Ok a => Ok (mkResponse (final_amount a) (total_contributions a) (total_interest a)
                  (annual_return a) (yearly_breakdown a) now)
  | Raise e => Raise e
  end.


Local Close Scope string_scope.

(** The number a decimal stands for. *)
Definition value (d : Decimal) : R := (IZR (d_int d) * powerRZ 10 (d_exp d))%R.

(** The magnitude of a coefficient after [fix_], at the exponent of the
    argument. *)
Definition fix_mag (n : Z) : Z :=
  if ndigits n <=? prec then n
  else round_half_even n (ndigits n - prec) * 10 ^ (ndigits n - prec).

(** The magnitude of the coefficient of [quantize2 d], for the magnitude
    [n] of the coefficient of [d] and its exponent [e]. *)
Definition quant_mag (n e : Z) : Z :=
  if -2 <=? e then n * 10 ^ (e + 2) else round_half_up n (-2 - e).

(** The sum and the product of two decimals before they are rounded to
    the precision. *)
Definition exact_sum (a b : Decimal) : Decimal :=
  let e := Z.min (d_exp a) (d_exp b) in
  mkDecimal (d_int a * 10 ^ (d_exp a - e) + d_int b * 10 ^ (d_exp b - e)) e.

Definition exact_product (a b : Decimal) : Decimal :=
  mkDecimal (d_int a * d_int b) (d_exp a + d_exp b).

(** The current amount and the total of the contributions after [k] years,
    without the rounded breakdown. *)
Fixpoint amounts_after (k : nat) (frequency : string) (periods_per_year : nat)
    (monthly_payment rate_per_period : Decimal) (c t : Decimal) : Decimal * Decimal :=
  match k with
  | O => (c, t)
  | S k' =>
      let s := year_amounts frequency periods_per_year monthly_payment rate_per_period
                 (mkYearState c t []) in
      amounts_after k' frequency periods_per_year monthly_payment rate_per_period
        (ps_current_amount s) (ps_total_contributions s)
  end.

(** The final amount and the total of the contributions of a request
    before they are rounded to two places. *)
Definition unrounded_totals (request : CalculatorRequest) : Result (Decimal * Decimal) :=
  (annual_rate <- div (annual_rate request) (of_Z 100) ;;
   rate_per_period <- rate_per_period_of (compound_frequency request) annual_rate ;;
   Ok (amounts_after (Z.to_nat (years request)) (compound_frequency request)
         (periods_of (compound_frequency request)) (monthly_payment request)
         rate_per_period (principal request) (principal request)))%result.

(** The caps of the validation on the amounts, the years and the
    frequency (the rate apart). *)
Definition within_caps (r : CalculatorRequest) : bool :=
  ltb (of_Z 0) (principal r) && leb (principal r) (of_Z 10000000) &&
  leb (of_Z 0) (monthly_payment r) && leb (monthly_payment r) (of_Z 50000) &&
  (0 <? years r)%Z && (years r <=? 50)%Z &&
  in_list (compound_frequency r) allowed_frequencies.

(** The principal and the monthly payment have at most 20 decimal
    places. *)
Definition at_most_20_places (r : CalculatorRequest) : bool :=
  (-20 <=? d_exp (principal r))%Z && (-20 <=? d_exp (monthly_payment r))%Z.

(** [t] is the principal plus [k] payments, for the principal [P] and the
    payment [M] in units of [10 ^ -20]. *)
Definition total_is (P M k : Z) (t : Decimal) : Prop :=
  value t = (IZR (P + k * M) * powerRZ 10 (-20))%R.


(** Half a unit of the 28th digit, relative to the number. *)
Definition delta : R := (/ (2 * 10 ^ 27))%R.

Local Open Scope R_scope.

(** Growth factors of one accrual at the rate [r]: an upper and a lower
    bound that account for the two roundings. *)
Definition acc_hi (r : R) : R := (1 + r * (1 + delta)) * (1 + delta).
Definition acc_lo (r : R) : R := (1 + r * (1 - delta)) * (1 - delta).
(** Lower bound of the growth factor of a monthly period: the rounding of
    the contribution, then the accrual. *)
Definition month_lo (r : R) : R := (1 - delta) * acc_lo r.
(** A slack far above the rounding error and far below the rates. *)
Definition kappa : R := / 10 ^ 20.

Local Close Scope R_scope.

(** [n] accruals at the rate [rpp], starting from [c]. *)
Fixpoint accrue_n (n : nat) (rpp c : Decimal) : Decimal :=
  match n with
  | O => c
  | S n' => accrue_n n' rpp (add c (mul c rpp))
  end.

(** [n] monthly periods: the contribution, then the accrual. *)
Fixpoint contribute_accrue_n (n : nat) (mp rpp c : Decimal) : Decimal :=
  match n with
  | O => c
  | S n' => contribute_accrue_n n' mp rpp (add (add c mp) (mul (add c mp) rpp))
  end.

(** [g + g ^ 2 + ... + g ^ n]. *)
Fixpoint geo_sum (g : R) (n : nat) : R :=
  match n with
  | O => 0%R
  | S n' => (g ^ S n' + geo_sum g n')%R
  end.

Local Open Scope string_scope.

(** ** Definitions for the further properties *)

(** The request [r] with another monthly payment. *)
Definition with_monthly_payment (r : CalculatorRequest) (m : Decimal) : CalculatorRequest :=
  mkRequest (principal r) m (annual_rate r) (years r) (compound_frequency r).

(** The entries of a breakdown follow one another: the first starts at
    [first], each one starts at the end amount of the one before, and the
    last one ends at [last]. *)
Fixpoint chained (first : Decimal) (l : list YearlyBreakdown) (last : Decimal) : Prop :=
  match l with
  | [] => first = last
  | b :: l' => start_amount b = first /\ chained (end_amount b) l' last
  end.

(** The coefficient of [d] has at most [prec] digits, so that [d] is not
    changed by a rounding to the context. *)
Definition fits_precision (d : Decimal) : bool :=
  (ndigits (Z.abs (d_int d)) <=? prec)%Z.

(** The interest of the year is not negative and the year does not end
    below the amount it started with. *)
Definition entry_not_losing (b : YearlyBreakdown) : Prop :=
  leb (of_Z 0) (interest b) = true /\ leb (start_amount b) (end_amount b) = true.

(** The total of the contributions is not negative and not above the
    current amount, which is within the precision; the interest of the
    year is not negative. *)
Definition ahead (s : PeriodState) : Prop :=
  (0 <= value (ps_total_contributions s) <= value (ps_current_amount s))%R /\
  fits_precision (ps_current_amount s) = true /\
  (0 <= value (ps_year_interest s))%R.

(** The current amount and the total of the contributions of [s] are at
    most those of [s'], and those of [s'] are within the precision. *)
Definition behind (s s' : PeriodState) : Prop :=
  (value (ps_current_amount s) <= value (ps_current_amount s'))%R /\
  (value (ps_total_contributions s) <= value (ps_total_contributions s'))%R /\
  fits_precision (ps_current_amount s') = true /\
  fits_precision (ps_total_contributions s') = true.

(** The state of the period loop with the contributions of the year in
    the place of the total of the contributions. *)
Definition year_as_total (s : PeriodState) : PeriodState :=
  mkPeriodState (ps_current_amount s) (ps_total_contributions s)
                (ps_year_contributions s) (ps_year_interest s).

(** Twelve monthly payments, without rounding. *)
Definition twelve_payments (mp : Decimal) : Decimal :=
  mkDecimal (12 * d_int mp) (d_exp mp).



(** The request [r] over another number of years. *)
Definition with_years (r : CalculatorRequest) (n : Z) : CalculatorRequest :=
  mkRequest (principal r) (monthly_payment r) (annual_rate r) n (compound_frequency r).

(** [x ** y] at the exponents 1 and 0.5 of the examples over one and two
    years: [x ** 1] is [x] rounded, and the ratio of the example over two
    years, 3730 / 3400, has the square root given here to 28 digits. *)
Definition power_example (x y : Decimal) : Result Decimal :=
  if eqb y (of_Z 1) then Ok (fix_ x)
  else if eqb y (mkDecimal 5 (-1))
  then Ok (mkDecimal 1047405758781863756039505857 (-27))
  else Raise InvalidOperation.

(** The request [r] at another annual rate. *)
Definition with_annual_rate (r : CalculatorRequest) (rate : Decimal) : CalculatorRequest :=
  mkRequest (principal r) (monthly_payment r) rate (years r) (compound_frequency r).

(** The coefficient that [__truediv__] hands to the rounding when the
    division leaves a remainder: the quotient [n], or [n + 1] when the last
    digit of [n] is 0 or 5. *)
Definition sticky (n : Z) : Z := if (n mod 5 =? 0)%Z then n + 1 else n.

(** ** Input validation of the export routes ([app/core/validation.py]) *)

(** [CalculatorInputValidator]: the three amounts are [Decimal] fields. *)
Record CalculatorInputValidator : Type := mkValidator {
  v_principal : Decimal;
  v_monthly_payment : Decimal;
  v_annual_rate : Decimal;
  v_years : Z;
  v_compound_frequency : string
}.

(** The bounds declared on the fields: [principal: ge=1, le=10000000],
    [monthly_payment: ge=0, le=50000], [annual_rate: ge=0, le=20],
    [years: ge=1, le=50].  ([compound_frequency] declares a pattern that
    every name admitted by its validator matches.) *)
Definition field_bounds (v : CalculatorInputValidator) : bool :=
  leb (of_Z 1) (v_principal v) && leb (v_principal v) (of_Z 10000000) &&
  leb (of_Z 0) (v_monthly_payment v) && leb (v_monthly_payment v) (of_Z 50000) &&
  leb (of_Z 0) (v_annual_rate v) && leb (v_annual_rate v) (of_Z 20) &&
  (1 <=? v_years v)%Z && (v_years v <=? 50)%Z.

(** The validators of the fields; [None] when the value is returned, the
    message of the [ValueError] otherwise. *)
Definition validate_principal (v : Decimal) : option string :=
  if leb v (of_Z 0) then Some "Das Startkapital muss größer als 0€ sein"
  else if ltb (of_Z 10000000) v
       then Some "Das Startkapital darf nicht größer als 10.000.000€ sein"
  else None.

Definition validate_monthly_payment (v : Decimal) : option string :=
  if ltb v (of_Z 0) then Some "Die monatliche Sparrate kann nicht negativ sein"
  else if ltb (of_Z 50000) v
       then Some "Die monatliche Sparrate darf nicht größer als 50.000€ sein"
  else None.

Definition validate_annual_rate (v : Decimal) : option string :=
  if ltb v (of_Z 0) then Some "Der Zinssatz kann nicht negativ sein"
  else if ltb (of_Z 20) v then Some "Der Zinssatz darf nicht größer als 20% sein"
  else None.

Definition validate_years (v : Z) : option string :=
  if (v <? 1)%Z then Some "Die Laufzeit muss mindestens 1 Jahr betragen"
  else if (50 <? v)%Z then Some "Die Laufzeit darf nicht länger als 50 Jahre sein"
  else None.

Definition validate_compound_frequency (v : string) : option string :=
  if negb (in_list v ["monthly"; "quarterly"; "yearly"])
  then Some "Ungültige Zinszahlungsfrequenz. Erlaubt: monthly, quarterly, yearly"
  else None.

Definition passes {A : Type} (r : option A) : bool :=
  match r with None => true | Some _ => false end.

(** Constructing a [CalculatorInputValidator] succeeds when the bounds of
    the fields hold and no validator raises. *)
Definition validator_accepts (v : CalculatorInputValidator) : bool :=
  field_bounds v &&
  passes (validate_principal (v_principal v)) &&
  passes (validate_monthly_payment (v_monthly_payment v)) &&
  passes (validate_annual_rate (v_annual_rate v)) &&
  passes (validate_years (v_years v)) &&
  passes (validate_compound_frequency (v_compound_frequency v)).

(** [CalculatorInputValidator.validate_business_logic]: the warnings.
    The quotient raises when the principal is 0. *)
Definition validate_business_logic (self : CalculatorInputValidator)
    : Result (list string) :=
  w1 <- (if ltb (of_Z 0) (v_monthly_payment self)
         then
           monthly_to_yearly_ratio <-
             div (mul (v_monthly_payment self) (of_Z 12)) (v_principal self) ;;
           Ok (if ltb (of_Z 2) monthly_to_yearly_ratio
               then ["Die monatliche Sparrate ist sehr hoch im Verhältnis zum Startkapital. Bitte überprüfen Sie Ihre Eingaben."]
               else [])
         else Ok []) ;;
  Ok (w1 ++
      (if (40 <? v_years self)%Z
       then ["Eine Laufzeit von über 40 Jahren ist sehr lang. Berücksichtigen Sie Inflation und Lebensumstände."]
       else []) ++
      (if ltb (of_Z 15) (v_annual_rate self)
       then ["Ein Zinssatz über 15% ist sehr optimistisch. Bitte prüfen Sie realistische Markterwartungen."]
       else []) ++
      (if ltb (v_annual_rate self) (mkDecimal 1 (-1))
       then ["Ein Zinssatz unter 0,1% ist sehr niedrig. Berücksichtigen Sie Inflation und Opportunitätskosten."]
       else []))%list.

(** The two refusals of [validate_api_limits] (the [code] of the
    [HTTPException]). *)
Inductive api_limit : Type :=
| CALCULATION_TOO_COMPLEX
| INVESTMENT_TOO_LARGE.

(** [validate_api_limits]: [None] when the function returns, the refusal
    otherwise. *)
Definition validate_api_limits (data : CalculatorInputValidator) : option api_limit :=
  let total_periods := (v_years data * 12)%Z in
  if (600 <? total_periods)%Z then Some CALCULATION_TOO_COMPLEX
  else
    let total_investment :=
      add (v_principal data)
          (mul (mul (v_monthly_payment data) (of_Z 12)) (of_Z (v_years data))) in
    if ltb (of_Z 50000000) total_investment then Some INVESTMENT_TOO_LARGE
    else None.

(** The validated input as the request the export routes hand to the
    service. *)
Definition as_request (v : CalculatorInputValidator) : CalculatorRequest :=
  mkRequest (v_principal v) (v_monthly_payment v) (v_annual_rate v) (v_years v)
            (v_compound_frequency v).

(** The warning of [validate_business_logic] about the payments. *)
Definition payment_warning : string :=
  "Die monatliche Sparrate ist sehr hoch im Verhältnis zum Startkapital. Bitte überprüfen Sie Ihre Eingaben.".

(** No amount of the state is negative and none is above [u]. *)
Definition capped (u : R) (s : PeriodState) : Prop :=
  (0 <= value (ps_current_amount s) <= u)%R /\
  (0 <= value (ps_year_contributions s) <= u)%R /\
  (0 <= value (ps_year_interest s) <= u)%R.

(** A bound of the growth factor of one period, for the rates up to
    20 %. *)
Definition period_cap (f : string) : R :=
  if f =? "monthly" then (102 / 100)%R
  else if f =? "quarterly" then (106 / 100)%R
  else (121 / 100)%R.

(** The bound of the amounts after [n] periods that start below [u]. *)
Fixpoint periods_cap (n : nat) (g u : R) : R :=
  match n with
  | O => u
  | S n' => periods_cap n' g ((u + 50000) * g)%R
  end.

(** A bound of the current amount after [j] years, for a principal of at
    most 10,000,000 and payments of at most 50,000. *)
Definition years_cap (j : nat) : R := (12000000 * 2 ^ j - 2000000)%R.

(** ** Input sanitising ([app/core/security.py], [InputSanitizer]) *)

(** A Python string: the list of its code points. *)
Definition pystr : Type := list N.

(** [dangerous_chars]: the less-than and the greater-than sign, the double
    and the single quote, the ampersand, NUL, newline, carriage return and
    tab. *)
Definition dangerous_chars : list N := [60; 62; 34; 39; 38; 0; 10; 13; 9]%N.

(** [value.replace(char, '')] for a one-character [char]. *)
Definition remove_char (char : N) (value : pystr) : pystr :=
  filter (fun c => negb (N.eqb c char)) value.

(** [value[:stop]]: a negative [stop] counts from the end. *)
Definition slice_to (value : pystr) (stop : Z) : pystr :=
  if (0 <=? stop)%Z then firstn (Z.to_nat stop) value
  else firstn (List.length value - Z.to_nat (- stop)) value.

Fixpoint drop_while (p : N -> bool) (l : pystr) : pystr :=
  match l with
  | [] => []
  | c :: l' => if p c then drop_while p l' else l
  end.

Section Sanitizer.

(** [str.isspace] on a code point, which decides what [str.strip()]
    removes. *)
Variable isspace : N -> bool.

(** [value.strip()]. *)
Definition strip (value : pystr) : pystr :=
  rev (drop_while isspace (rev (drop_while isspace value))).

(** [InputSanitizer.sanitize_string]. *)
Definition sanitize_string (value : pystr) (max_length : Z) : pystr :=
  let value := fold_left (fun v char => remove_char char v) dangerous_chars value in
  let value :=
    if (max_length <? Z.of_nat (List.length value))%Z then slice_to value max_length
    else value in
  strip value.

End Sanitizer.

(** [c] is one of the dangerous characters. *)
Definition is_dangerous (c : N) : bool := existsb (N.eqb c) dangerous_chars.

(** A string that does not start with a character of [p]. *)
Definition starts_clean (p : N -> bool) (l : pystr) : Prop :=
  match l with [] => True | c :: _ => p c = false end.

(** ** Request rate limiting ([app/core/security.py], [RateLimitMiddleware]) *)

(** A dict with string keys, as the function from a key to its value. *)
Definition dict (V : Type) : Type := string -> option V.

Definition dict_set {V : Type} (d : dict V) (k : string) (v : V) : dict V :=
  fun k' => if String.eqb k' k then Some v else d k'.

(** A set of strings, as its membership test. *)
Definition str_set : Type := string -> bool.

Definition set_add (s : str_set) (k : string) : str_set :=
  fun k' => if String.eqb k' k then true else s k'.

(** [RATE_LIMIT_CONFIG['requests_per_minute']]. *)
Definition requests_per_minute : Z := 60.

(** [whitelist_ips]. *)
Definition whitelist_ips : list string := ["127.0.0.1"; "::1"; "localhost"].

Section RateLimit.

(** The readings of [time.time()] are floats.  [window_start_of t] is
    [t - window_size] and [later t w] is [t > w], both on floats. *)
Variable T : Type.
Variable window_start_of : T -> T.
Variable later : T -> T -> bool.

(** The state of a [RateLimitMiddleware]. *)
Record RateLimiter : Type := mkRateLimiter {
  request_counts : dict (list T);
  blocked_ips : str_set
}.

(** [is_rate_limited], with [current_time] the reading of the clock: the
    answer and the state after the call. *)
Definition is_rate_limited (self : RateLimiter) (current_time : T) (ip : string)
    : bool * RateLimiter :=
  if existsb (String.eqb ip) whitelist_ips then (false, self)
  else if blocked_ips self ip then (true, self)
  else
    let window_start := window_start_of current_time in
    let kept :=
      match request_counts self ip with
      | Some stamps => filter (fun timestamp => later timestamp window_start) stamps
      | None => []
      end in
    let request_count := Z.of_nat (List.length kept) in
    if (requests_per_minute <=? request_count)%Z
    then (true, mkRateLimiter (dict_set (request_counts self) ip kept)
                              (set_add (blocked_ips self) ip))
    else (false, mkRateLimiter (dict_set (request_counts self) ip (kept ++ [current_time])%list)
                               (blocked_ips self)).

(** The state after a sequence of calls, given as the reading of the
    clock and the address of each. *)
Fixpoint after_calls (self : RateLimiter) (calls : list (T * string)) : RateLimiter :=
  match calls with
  | [] => self
  | (t, ip) :: rest => after_calls (snd (is_rate_limited self t ip)) rest
  end.

(** No address has more recorded requests than the limit. *)
Definition within_limit (self : RateLimiter) : Prop :=
  forall ip stamps,
    request_counts self ip = Some stamps ->
    (Z.of_nat (List.length stamps) <= requests_per_minute)%Z.

End RateLimit.

(** ** Bounded logs ([SecurityAuditLogger], [MetricsCollector]) *)

(** [l[start:]]: a negative [start] counts from the end. *)
Definition slice_from {A : Type} (l : list A) (start : Z) : list A :=
  if (0 <=? start)%Z then skipn (Z.to_nat start) l
  else skipn (List.length l - Z.to_nat (- start)) l.




(** ** Marking of suspicious addresses ([DDoSProtection]) *)

Section Suspicious.

(** Readings of [time.time()] and the [details] of a mark. *)
Variables (T Details : Type).

(** An element of [reasons]. *)
Record Reason : Type := mkReason {
  reason : string;
  timestamp : T;
  details : Details
}.

(** A value of [suspicious_ips]. *)
Record Suspicion : Type := mkSuspicion {
  first_seen : T;
  reasons : list Reason;
  request_count : Z;
  blocked : bool
}.

(** The state of a [DDoSProtection] that [mark_suspicious] and
    [is_blocked] use. *)
Record DDoSProtection : Type := mkDDoS {
  suspicious_ips : dict Suspicion;
  ddos_blocked_ips : str_set
}.

(** [mark_suspicious]; [t1] and [t2] are the two readings of the clock. *)
Definition mark_suspicious (self : DDoSProtection) (ip : string) (reason : string)
    (details : Details) (t1 t2 : T) : DDoSProtection :=
  let entry :=
    match suspicious_ips self ip with
    | Some e => e
    | None => mkSuspicion t1 [] 0 false
    end in
  let entry := mkSuspicion (first_seen entry)
                 (reasons entry ++ [mkReason reason t2 details])%list
                 (request_count entry) (blocked entry) in
  if (3 <=? Z.of_nat (List.length (reasons entry)))%Z
  then mkDDoS (dict_set (suspicious_ips self) ip
                 (mkSuspicion (first_seen entry) (reasons entry)
                              (request_count entry) true))
              (set_add (ddos_blocked_ips self) ip)
  else mkDDoS (dict_set (suspicious_ips self) ip entry) (ddos_blocked_ips self).

(** [is_blocked]. *)
Definition is_blocked (self : DDoSProtection) (ip : string) : bool :=
  ddos_blocked_ips self ip.

(** A fresh [DDoSProtection]. *)
Definition new_protection : DDoSProtection :=
  mkDDoS (fun _ => None) (fun _ => false).

(** The state after a sequence of marks. *)
Fixpoint after_marks (self : DDoSProtection)
    (marks : list (string * string * Details * T * T)) : DDoSProtection :=
  match marks with
  | [] => self
  | (ip, reason, details, t1, t2) :: rest =>
      after_marks (mark_suspicious self ip reason details t1 t2) rest
  end.

End Suspicious.

(** The number of marks of the address [ip]. *)
Definition marks_of {T Details : Type} (ip : string)
    (marks : list (string * string * Details * T * T)) : nat :=
  List.length (filter (fun m => let '(ip', _, _, _, _) := m in String.eqb ip' ip) marks).

(** The number of reasons recorded for the address [ip]. *)
Definition reasons_of {T Details : Type} (self : DDoSProtection T Details) (ip : string)
    : nat :=
  match suspicious_ips T Details self ip with
  | Some e => List.length (reasons T Details e)
  | None => 0%nat
  end.

(** ** The in-memory cache ([app/core/cache.py], [MemoryCache]) *)

(** A dict whose order of iteration matters: the list of its items in the
    order of insertion, each key once. *)
Definition odict (V : Type) : Type := list (string * V).

Fixpoint od_get {V : Type} (d : odict V) (key : string) : option V :=
  match d with
  | [] => None
  | (k, v) :: rest => if String.eqb k key then Some v else od_get rest key
  end.

(** [d[key] = v]: a present key keeps its place, a new key goes last. *)
Fixpoint od_set {V : Type} (d : odict V) (key : string) (v : V) : odict V :=
  match d with
  | [] => [(key, v)]
  | (k, v0) :: rest =>
      if String.eqb k key then (k, v) :: rest else (k, v0) :: od_set rest key v
  end.

(** [del d[key]]; [None] stands for the [KeyError] of an absent key. *)
Fixpoint od_del {V : Type} (d : odict V) (key : string) : option (odict V) :=
  match d with
  | [] => None
  | (k, v) :: rest =>
      if String.eqb k key then Some rest
      else match od_del rest key with
           | Some rest' => Some ((k, v) :: rest')
           | None => None
           end
  end.

(** The exceptions of the cache operations. *)
Inductive cache_exn : Type :=
| ValueError    (* min() of an empty sequence *)
| KeyError.     (* del of an absent key *)

Inductive Outcome (A : Type) : Type :=
| Done (a : A)
| Fails (e : cache_exn).
Arguments Done {A} a.
Arguments Fails {A} e.

Section Cache.

(** The values of the cache, the readings of [time.time()] (floats), the
    float sum [t + ttl] and the float comparisons [a > b] and [a < b]. *)
Variables (V T : Type).
Variable plus_ttl : T -> Z -> T.
Variable gt lt : T -> T -> bool.

(** An entry of [_cache]. *)
Record CacheEntry : Type := mkCacheEntry {
  ce_value : V;
  expires_at : T;
  created_at : T
}.

(** The state of a [MemoryCache]. *)
Record MemoryCache : Type := mkMemoryCache {
  _cache : odict CacheEntry;
  _max_size : Z;
  _access_times : odict T
}.

(** [min(d.keys(), key=lambda k: d[k])]: the first key with the least
    value; [None] stands for the [ValueError] of an empty dict. *)
Definition min_key (d : odict T) : option string :=
  match d with
  | [] => None
  | first :: rest =>
      Some (fst (fold_left (fun best item => if lt (snd item) (snd best) then item else best)
                           rest first))
  end.

(** [_cleanup_if_needed]. *)
Definition _cleanup_if_needed (self : MemoryCache) : Outcome MemoryCache :=
  if (_max_size self <=? Z.of_nat (List.length (_cache self)))%Z
  then
    match min_key (_access_times self) with
    | None => Fails ValueError
    | Some oldest_key =>
        match od_del (_cache self) oldest_key with
        | None => Fails KeyError
        | Some cache' =>
            match od_del (_access_times self) oldest_key with
            | None => Fails KeyError
            | Some times' => Done (mkMemoryCache cache' (_max_size self) times')
            end
        end
    end
  else Done self.

(** [get]; [t1] and [t2] are the two readings of the clock. *)
Definition cache_get (self : MemoryCache) (key : string) (t1 t2 : T)
    : Outcome (option V * MemoryCache) :=
  match od_get (_cache self) key with
  | None => Done (None, self)
  | Some cache_entry =>
      if gt t1 (expires_at cache_entry)
      then
        match od_del (_cache self) key with
        | None => Fails KeyError
        | Some cache' =>
            match od_del (_access_times self) key with
            | None => Fails KeyError
            | Some times' => Done (None, mkMemoryCache cache' (_max_size self) times')
            end
        end
      else
        Done (Some (ce_value cache_entry),
              mkMemoryCache (_cache self) (_max_size self)
                            (od_set (_access_times self) key t2))
  end.

(** [set]; [t1], [t2] and [t3] are the three readings of the clock. *)
Definition cache_set (self : MemoryCache) (key : string) (value : V) (ttl : Z)
    (t1 t2 t3 : T) : Outcome MemoryCache :=
  match _cleanup_if_needed self with
  | Fails e => Fails e
  | Done self =>
      let expires_at := plus_ttl t1 ttl in
      Done (mkMemoryCache (od_set (_cache self) key (mkCacheEntry value expires_at t2))
                          (_max_size self)
                          (od_set (_access_times self) key t3))
  end.

(** [delete]. *)
Definition cache_delete (self : MemoryCache) (key : string) : Outcome MemoryCache :=
  match od_get (_cache self) key with
  | None => Done self
  | Some _ =>
      match od_del (_cache self) key with
      | None => Fails KeyError
      | Some cache' =>
          match od_del (_access_times self) key with
          | None => Fails KeyError
          | Some times' => Done (mkMemoryCache cache' (_max_size self) times')
          end
      end
  end.

(** [clear]. *)
Definition cache_clear (self : MemoryCache) : MemoryCache :=
  mkMemoryCache [] (_max_size self) [].

(** The two dicts of the cache have the same keys in the same order, each
    key once. *)
Definition in_step (self : MemoryCache) : Prop :=
  map fst (_cache self) = map fst (_access_times self) /\
  NoDup (map fst (_cache self)).

(** [MemoryCache(max_size)]. *)
Definition new_cache (max_size : Z) : MemoryCache := mkMemoryCache [] max_size [].

(** A call of one of the methods, with the readings of the clock it
    makes. *)
Inductive cache_call : Type :=
| CallGet (key : string) (t1 t2 : T)
| CallSet (key : string) (value : V) (ttl : Z) (t1 t2 t3 : T)
| CallDelete (key : string)
| CallClear.

Definition run_call (self : MemoryCache) (c : cache_call) : Outcome MemoryCache :=
  match c with
  | CallGet key t1 t2 =>
      match cache_get self key t1 t2 with
      | Done (_, self') => Done self'
      | Fails e => Fails e
      end
  | CallSet key value ttl t1 t2 t3 => cache_set self key value ttl t1 t2 t3
  | CallDelete key => cache_delete self key
  | CallClear => Done (cache_clear self)
  end.

(** The calls one after the other, up to the first that raises. *)
Fixpoint run_calls (self : MemoryCache) (calls : list cache_call) : Outcome MemoryCache :=
  match calls with
  | [] => Done self
  | c :: rest =>
      match run_call self c with
      | Done self' => run_calls self' rest
      | Fails e => Fails e
      end
  end.

End Cache.

(** * Properties *)

(** ** Tactics for the error monad *)

Lemma bind_Ok {A B : Type} (m : Result A) (k : A -> Result B) (b : B) :
  bind m k = Ok b -> exists a, m = Ok a /\ k a = Ok b.
Proof.
  destruct m as [a|e]; simpl; intros H; [exists a; split; [reflexivity|exact H] | discriminate].
Qed.

Ltac inv_bind H :=
  match type of H with
  | bind ?m ?k = Ok ?b =>
      let a := fresh "v" in
      let Hm := fresh "Hm" in
      apply bind_Ok in H; destruct H as [a [Hm H]]; cbv beta in H
  end.

Ltac inv_binds H := repeat (inv_bind H).

(** ** Determinism (C1) *)

(** The result of a call at another reading of the clock is the same
    result with the other time stamp. *)
Lemma calculate_stamp power now1 now2 req :
  calculate_compound_interest power now2 req
  = stamp now2 (calculate_compound_interest power now1 req).
Proof.
  unfold calculate_compound_interest.
  destruct (div (annual_rate req) (of_Z 100)) as [ar|e]; simpl; [|reflexivity].
  destruct (rate_per_period_of (compound_frequency req) ar) as [rp|e]; simpl; [|reflexivity].
  destruct (year_loop _ _ _ _ _ _ _) as [y|e]; simpl; [|reflexivity].
  destruct (annual_return_of _ _ _ _) as [a|e]; simpl; [|reflexivity].
  destruct (quantize2 (ys_current_amount y)) as [q1|e]; simpl; [|reflexivity].
  destruct (quantize2 (ys_total_contributions y)) as [q2|e]; simpl; [|reflexivity].
  destruct (quantize2 (sub _ _)) as [q3|e]; simpl; [|reflexivity].
  destruct (quantize2 a) as [q4|e]; simpl; reflexivity.
Qed.

(** C1, as stated, fails: two calls with the same request read the clock
    twice, and the responses differ in [calculation_time]. *)
Lemma C1_two_calls_differ :
  exists req r1 r2,
    valid_request req = true /\
    calculate_compound_interest power_one "2024-01-15T10:30:00.000001" req = Ok r1 /\
    calculate_compound_interest power_one "2024-01-15T10:30:00.000002" req = Ok r2 /\
    r1 <> r2.
Proof.
  exists (mkRequest (mkDecimal 100000 (-1)) (mkDecimal 0 (-1)) (mkDecimal 40 (-1)) 1 "yearly").
  eexists. eexists.
  split; [vm_compute; reflexivity|].
  split; [vm_compute; reflexivity|].
  split; [vm_compute; reflexivity|].
  intros H. apply (f_equal calculation_time) in H. simpl in H. discriminate H.
Qed.

(** C1 (amended): for every request, two calls agree on whether they raise
    and on every numeric field and the whole yearly breakdown of the
    response; [calculation_time] is the reading of the clock at each call,
    so two calls at the same reading return identical responses. *)
Theorem C1_deterministic_up_to_clock :
  forall power now1 now2 req,
    match calculate_compound_interest power now1 req,
          calculate_compound_interest power now2 req with
    | Ok r1, Ok r2 =>
        same_figures r1 r2 /\
        calculation_time r1 = now1 /\ calculation_time r2 = now2 /\
        (now1 = now2 -> r1 = r2)
    | Raise e1, Raise e2 => e1 = e2
    | _, _ => False
    end.
Proof.
  intros power now1 now2 req.
  rewrite (calculate_stamp power now1 now2 req).
  pose proof (calculate_stamp power now1 now1 req) as Hself.
  destruct (calculate_compound_interest power now1 req) as [r1|e1]; simpl in *.
  - injection Hself as Hself.
    unfold same_figures; simpl.
    assert (Ht : calculation_time r1 = now1) by (rewrite Hself at 1; reflexivity).
    repeat split; try reflexivity; try exact Ht.
    intros <-. exact Hself.
  - reflexivity.
Qed.

(** ** Comparison of decimals *)

Lemma compare_antisym a b : Dec.compare b a = CompOpp (Dec.compare a b).
Proof.
  unfold Dec.compare. rewrite (Z.min_comm (d_exp b) (d_exp a)).
  apply Z.compare_antisym.
Qed.

Lemma leb_negb_ltb a b : leb a b = negb (ltb b a).
Proof.
  unfold leb, ltb. rewrite (compare_antisym a b).
  destruct (Dec.compare a b); reflexivity.
Qed.



(** Comparison with zero looks at the sign of the coefficient only. *)
Lemma pow10_pos k : 0 < 10 ^ k \/ 10 ^ k = 0.
Proof.
  destruct (Z.le_gt_cases 0 k) as [H|H].
  - left. apply Z.pow_pos_nonneg; lia.
  - right. apply Z.pow_neg_r. exact H.
Qed.

Lemma ltb_zero_pos a : ltb (of_Z 0) a = true <-> 0 < d_int a.
Proof.
  unfold ltb, Dec.compare, of_Z; cbn [d_int d_exp]. rewrite Z.mul_0_l.
  assert (Hp : 0 < 10 ^ (d_exp a - Z.min 0 (d_exp a))) by (apply Z.pow_pos_nonneg; lia).
  destruct (Z.compare_spec 0 (d_int a * 10 ^ (d_exp a - Z.min 0 (d_exp a)))) as [H|H|H];
    split; intros H'; try discriminate; try reflexivity; nia.
Qed.


(** ** Validation (C7, C8, C10) *)

Lemma app_nil_iff {A : Type} (l1 l2 : list A) :
  (l1 ++ l2)%list = [] <-> l1 = [] /\ l2 = [].
Proof.
  split.
  - apply app_eq_nil.
  - intros [-> ->]. reflexivity.
Qed.











(** ** Order of contribution and accrual (C2) *)

Lemma period_loop_no_contribution n f mp rpp s :
  (f =? "monthly") && ltb (of_Z 0) mp = false ->
  period_loop n f mp rpp s =
  let '(c, i) := accrue_periods n rpp (ps_current_amount s) (ps_year_interest s) in
  mkPeriodState c (ps_year_contributions s) (ps_total_contributions s) i.
Proof.
  intros Hf. revert s.
  induction n as [|n IH]; intros s.
  - destruct s; reflexivity.
  - cbn [period_loop accrue_periods]. rewrite IH.
    unfold period_body, accrue. rewrite Hf. reflexivity.
Qed.

Lemma quarterly_yearly_not_monthly f :
  f = "quarterly" \/ f = "yearly" ->
  (f =? "monthly") = false /\ in_list f ["quarterly"; "yearly"] = true.
Proof. intros [-> | ->]; split; reflexivity. Qed.



(** ** Growth rate of a year (C6) *)






Local Close Scope string_scope.

(** ** Digits *)

Lemma pow10_gt0 k : 0 <= k -> 0 < 10 ^ k.
Proof. intros H. apply Z.pow_pos_nonneg; lia. Qed.

Lemma pow10_succ k : 0 <= k -> 10 ^ (k + 1) = 10 * 10 ^ k.
Proof. intros H. rewrite Z.pow_add_r by lia. lia. Qed.

Lemma pow10_le_mono a b : 0 <= a <= b -> 10 ^ a <= 10 ^ b.
Proof. intros H. apply Z.pow_le_mono_r; lia. Qed.

Lemma pow10_lt_inv a b : 0 <= b -> 10 ^ a < 10 ^ b -> a < b.
Proof. intros Hb H. apply (Z.pow_lt_mono_r_iff 10); lia. Qed.

Lemma ndigits_aux_spec fuel : forall n,
  n < 2 ^ Z.of_nat fuel ->
  1 <= ndigits_aux fuel n /\
  (n <= 0 -> ndigits_aux fuel n = 1) /\
  (0 < n -> 10 ^ (ndigits_aux fuel n - 1) <= n < 10 ^ ndigits_aux fuel n).
Proof.
  induction fuel as [|fuel IH]; intros n Hn.
  - simpl in *. repeat split; try lia.
  - cbn [ndigits_aux].
    destruct (Z.ltb_spec n 10) as [H10|H10].
    + repeat split; try lia.
    + rewrite Nat2Z.inj_succ, Z.pow_succ_r in Hn by lia.
      assert (Hdiv : n / 10 < 2 ^ Z.of_nat fuel).
      { apply Z.div_lt_upper_bound; lia. }
      assert (Hq : 1 <= n / 10) by (apply Z.div_le_lower_bound; lia).
      destruct (IH (n / 10) Hdiv) as [H1 [_ H3]].
      specialize (H3 ltac:(lia)).
      pose proof (Z.mul_div_le n 10 ltac:(lia)) as Hle.
      pose proof (Z.mul_succ_div_gt n 10 ltac:(lia)) as Hgt.
      set (d := ndigits_aux fuel (n / 10)) in *.
      replace (1 + d - 1) with ((d - 1) + 1) by lia.
      rewrite (Z.add_comm 1 d).
      rewrite !pow10_succ by lia.
      repeat split; lia.
Qed.

Lemma ndigits_fuel n : n < 2 ^ Z.of_nat (S (Z.to_nat (Z.log2 n))).
Proof.
  destruct (Z.le_gt_cases n 0) as [H|H].
  - pose proof (Z.pow_pos_nonneg 2 (Z.of_nat (S (Z.to_nat (Z.log2 n)))) ltac:(lia) ltac:(lia)). lia.
  - rewrite Nat2Z.inj_succ, Z2Nat.id by apply Z.log2_nonneg.
    apply Z.log2_spec. exact H.
Qed.

Lemma ndigits_ge1 n : 1 <= ndigits n.
Proof. apply (ndigits_aux_spec _ _ (ndigits_fuel n)). Qed.

Lemma ndigits_spec n : 0 < n -> 10 ^ (ndigits n - 1) <= n < 10 ^ ndigits n.
Proof. apply (ndigits_aux_spec _ _ (ndigits_fuel n)). Qed.

Lemma ndigits_nonpos n : n <= 0 -> ndigits n = 1.
Proof. apply (ndigits_aux_spec _ _ (ndigits_fuel n)). Qed.

Lemma ndigits_unique n d : 10 ^ (d - 1) <= n < 10 ^ d -> 1 <= d -> ndigits n = d.
Proof.
  intros [Hlo Hhi] Hd.
  assert (Hn : 0 < n) by (pose proof (pow10_gt0 (d - 1)); lia).
  destruct (ndigits_spec n Hn) as [Hlo' Hhi'].
  pose proof (ndigits_ge1 n) as H1.
  assert (ndigits n - 1 < d) by (apply pow10_lt_inv; lia).
  assert (d - 1 < ndigits n) by (apply pow10_lt_inv; lia).
  lia.
Qed.

Lemma ndigits_lt_pow n k : 0 <= n -> 1 <= k -> (ndigits n <= k <-> n < 10 ^ k).
Proof.
  intros Hn Hk.
  destruct (Z.eq_dec n 0) as [->|Hnz].
  - rewrite ndigits_nonpos by lia. pose proof (pow10_gt0 k). lia.
  - destruct (ndigits_spec n ltac:(lia)) as [Hlo Hhi].
    pose proof (ndigits_ge1 n).
    split; intros Hk'.
    + pose proof (pow10_le_mono (ndigits n) k). lia.
    + assert (ndigits n - 1 < k) by (apply pow10_lt_inv; lia). lia.
Qed.

Lemma ndigits_mul_pow n j : 0 < n -> 0 <= j -> ndigits (n * 10 ^ j) = ndigits n + j.
Proof.
  intros Hn Hj.
  destruct (ndigits_spec n Hn) as [Hlo Hhi].
  pose proof (ndigits_ge1 n).
  pose proof (pow10_gt0 j Hj).
  apply ndigits_unique; [|lia].
  replace (ndigits n + j - 1) with ((ndigits n - 1) + j) by lia.
  rewrite !Z.pow_add_r by lia.
  split; nia.
Qed.

(** ** Dropping digits *)

Lemma ndigits_mono n m : 0 <= n <= m -> ndigits n <= ndigits m.
Proof.
  intros [Hn Hm].
  destruct (Z.eq_dec n 0) as [->|Hnz].
  - rewrite (ndigits_nonpos 0) by lia. apply ndigits_ge1.
  - pose proof (ndigits_ge1 m).
    apply ndigits_lt_pow; [lia|lia|].
    destruct (ndigits_spec m ltac:(lia)). lia.
Qed.

Lemma round_half_even_bounds n k :
  0 <= n -> 0 <= k ->
  n / 10 ^ k <= round_half_even n k <= n / 10 ^ k + 1 /\
  2 * Z.abs (round_half_even n k * 10 ^ k - n) <= 10 ^ k.
Proof.
  intros Hn Hk. unfold round_half_even.
  pose proof (pow10_gt0 k Hk) as HP.
  pose proof (Z.div_mod n (10 ^ k) ltac:(lia)) as Hdm.
  pose proof (Z.mod_pos_bound n (10 ^ k) HP) as Hr.
  set (q := n / 10 ^ k) in *. set (r := n mod 10 ^ k) in *.
  destruct (Z.ltb_spec (10 ^ k) (2 * r)) as [H1|H1]; cbn [orb].
  - split; [lia|]. nia.
  - destruct (Z.eqb_spec (2 * r) (10 ^ k)) as [H2|H2]; cbn [andb].
    + destruct (Z.odd q); split; try lia; nia.
    + split; [lia|]. nia.
Qed.

Lemma round_half_even_exact n k :
  0 <= k -> n mod 10 ^ k = 0 -> round_half_even n k = n / 10 ^ k.
Proof.
  intros Hk Hr. unfold round_half_even. rewrite Hr.
  pose proof (pow10_gt0 k Hk) as HP.
  destruct (Z.ltb_spec (10 ^ k) (2 * 0)) as [H1|H1]; [lia|].
  destruct (Z.eqb_spec (2 * 0) (10 ^ k)) as [H2|H2]; [lia|]. reflexivity.
Qed.

Lemma round_half_even_scale n k j :
  0 <= k -> 0 <= j ->
  round_half_even (n * 10 ^ j) (k + j) = round_half_even n k.
Proof.
  intros Hk Hj. unfold round_half_even.
  pose proof (pow10_gt0 k Hk) as HP. pose proof (pow10_gt0 j Hj) as HJ.
  rewrite Z.pow_add_r by lia.
  rewrite Z.div_mul_cancel_r by lia.
  rewrite Z.mul_mod_distr_r by lia.
  set (q := n / 10 ^ k). set (r := n mod 10 ^ k).
  replace (10 ^ k * 10 ^ j <? 2 * (r * 10 ^ j)) with (10 ^ k <? 2 * r).
  2:{ destruct (Z.ltb_spec (10 ^ k) (2 * r)), (Z.ltb_spec (10 ^ k * 10 ^ j) (2 * (r * 10 ^ j)));
      try reflexivity; nia. }
  replace (2 * (r * 10 ^ j) =? 10 ^ k * 10 ^ j) with (2 * r =? 10 ^ k).
  2:{ destruct (Z.eqb_spec (2 * r) (10 ^ k)), (Z.eqb_spec (2 * (r * 10 ^ j)) (10 ^ k * 10 ^ j));
      try reflexivity; nia. }
  reflexivity.
Qed.

Lemma round_half_even_mono n m k :
  0 <= n <= m -> 0 <= k -> round_half_even n k <= round_half_even m k.
Proof.
  intros [Hn Hm] Hk.
  pose proof (pow10_gt0 k Hk) as HP.
  destruct (round_half_even_bounds n k Hn Hk) as [[_ Hup] _].
  destruct (round_half_even_bounds m k ltac:(lia) Hk) as [[Hlo _] _].
  pose proof (Z.div_le_mono n m (10 ^ k) HP Hm) as Hq.
  destruct (Z.eq_dec (n / 10 ^ k) (m / 10 ^ k)) as [Heq|Hne]; [|lia].
  unfold round_half_even. rewrite Heq.
  pose proof (Z.div_mod n (10 ^ k) ltac:(lia)) as Hdn.
  pose proof (Z.div_mod m (10 ^ k) ltac:(lia)) as Hdm.
  assert (Hr : n mod 10 ^ k <= m mod 10 ^ k) by nia.
  set (q := m / 10 ^ k) in *. set (r := n mod 10 ^ k) in *. set (s := m mod 10 ^ k) in *.
  destruct (Z.ltb_spec (10 ^ k) (2 * r)), (Z.ltb_spec (10 ^ k) (2 * s));
    destruct (Z.eqb_spec (2 * r) (10 ^ k)), (Z.eqb_spec (2 * s) (10 ^ k));
    cbn [orb andb]; destruct (Z.odd q); lia.
Qed.

Lemma fix_mag_small n : ndigits n <= prec -> fix_mag n = n.
Proof. intros H. unfold fix_mag. apply Z.leb_le in H. rewrite H. reflexivity. Qed.

Lemma rounded_range n :
  prec < ndigits n ->
  10 ^ 27 <= round_half_even n (ndigits n - prec) <= 10 ^ 28.
Proof.
  intros Hbig. unfold prec in *.
  assert (Hn : 0 < n).
  { destruct (Z.le_gt_cases n 0) as [H|H]; [|exact H].
    rewrite ndigits_nonpos in Hbig by lia. lia. }
  set (k := ndigits n - 28) in *.
  assert (Hk : 0 < k) by lia.
  destruct (ndigits_spec n Hn) as [Hlo Hhi].
  replace (ndigits n - 1) with (27 + k) in Hlo by lia.
  replace (ndigits n) with (28 + k) in Hhi by lia.
  rewrite Z.pow_add_r in Hlo, Hhi by lia.
  pose proof (pow10_gt0 k ltac:(lia)) as HP.
  destruct (round_half_even_bounds n k ltac:(lia) ltac:(lia)) as [[Hq1 Hq2] _].
  assert (10 ^ 27 <= n / 10 ^ k) by (apply Z.div_le_lower_bound; lia).
  assert (n / 10 ^ k < 10 ^ 28) by (apply Z.div_lt_upper_bound; lia).
  lia.
Qed.

Lemma fix_mag_range n :
  0 < n -> 10 ^ (ndigits n - 1) <= fix_mag n <= 10 ^ ndigits n.
Proof.
  intros Hn. unfold fix_mag.
  destruct (Z.leb_spec (ndigits n) prec) as [H|H].
  - destruct (ndigits_spec n Hn). lia.
  - pose proof (rounded_range n H) as Hr. unfold prec in *.
    set (k := ndigits n - 28) in *.
    replace (ndigits n - 1) with (27 + k) by lia.
    replace (ndigits n) with (28 + k) by lia.
    rewrite !Z.pow_add_r by lia.
    pose proof (pow10_gt0 k ltac:(lia)). nia.
Qed.

Lemma fix_mag_0 : fix_mag 0 = 0.
Proof. reflexivity. Qed.

Lemma fix_mag_nonneg n : 0 <= n -> 0 <= fix_mag n.
Proof.
  intros Hn. destruct (Z.eq_dec n 0) as [->|H]; [rewrite fix_mag_0; lia|].
  pose proof (fix_mag_range n ltac:(lia)).
  pose proof (ndigits_ge1 n). pose proof (pow10_gt0 (ndigits n - 1) ltac:(lia)). lia.
Qed.

Lemma fix_mag_mono n m : 0 <= n <= m -> fix_mag n <= fix_mag m.
Proof.
  intros [Hn Hm].
  destruct (Z.eq_dec n 0) as [->|Hnz].
  - rewrite fix_mag_0. apply fix_mag_nonneg. lia.
  - pose proof (ndigits_mono n m ltac:(lia)) as Hd.
    destruct (Z.eq_dec (ndigits n) (ndigits m)) as [Heq|Hne].
    + unfold fix_mag. rewrite Heq.
      destruct (Z.leb_spec (ndigits m) prec) as [H|H]; [lia|].
      pose proof (round_half_even_mono n m (ndigits m - prec) ltac:(lia) ltac:(lia)).
      pose proof (pow10_gt0 (ndigits m - prec) ltac:(lia)). nia.
    + pose proof (fix_mag_range n ltac:(lia)) as [_ H1].
      pose proof (fix_mag_range m ltac:(lia)) as [H2 _].
      pose proof (ndigits_ge1 n).
      pose proof (pow10_le_mono (ndigits n) (ndigits m - 1) ltac:(lia)). lia.
Qed.

Lemma fix_mag_scale n j : 0 <= n -> 0 <= j -> fix_mag (n * 10 ^ j) = fix_mag n * 10 ^ j.
Proof.
  intros Hn Hj.
  destruct (Z.eq_dec n 0) as [->|Hnz]; [reflexivity|].
  pose proof (pow10_gt0 j Hj) as HJ.
  unfold fix_mag. rewrite ndigits_mul_pow by lia.
  pose proof (ndigits_ge1 n) as Hd1.
  destruct (Z.leb_spec (ndigits n + j) prec) as [H|H].
  - destruct (Z.leb_spec (ndigits n) prec) as [H'|H']; [reflexivity|lia].
  - destruct (Z.leb_spec (ndigits n) prec) as [H'|H'].
    + (* the dropped digits are zeros *)
      set (k := ndigits n + j - prec) in *.
      assert (Hkj : 0 < k <= j) by lia.
      assert (Hsplit : n * 10 ^ j = (n * 10 ^ (j - k)) * 10 ^ k).
      { rewrite <- Z.mul_assoc, <- Z.pow_add_r by lia. f_equal. f_equal. lia. }
      pose proof (pow10_gt0 k ltac:(lia)) as HK.
      rewrite round_half_even_exact.
      * rewrite Hsplit at 1. rewrite Z.div_mul by lia. lia.
      * lia.
      * rewrite Hsplit. apply Z.mod_mul. lia.
    + replace (ndigits n + j - prec) with ((ndigits n - prec) + j) by lia.
      rewrite round_half_even_scale by lia.
      rewrite Z.pow_add_r by lia. lia.
Qed.

Lemma fix_mag_error n : 0 <= n -> 2 * 10 ^ 27 * Z.abs (fix_mag n - n) <= n.
Proof.
  intros Hn. unfold fix_mag.
  destruct (Z.leb_spec (ndigits n) prec) as [H|H].
  - replace (n - n) with 0 by lia. simpl. lia.
  - assert (Hpos : 0 < n).
    { destruct (Z.eq_dec n 0) as [->|]; [|lia]. rewrite ndigits_nonpos in H by lia. unfold prec in H. lia. }
    unfold prec in *. set (k := ndigits n - 28) in *.
    destruct (round_half_even_bounds n k ltac:(lia) ltac:(lia)) as [_ Herr].
    destruct (ndigits_spec n Hpos) as [Hlo _].
    replace (ndigits n - 1) with (27 + k) in Hlo by lia.
    rewrite Z.pow_add_r in Hlo by lia.
    pose proof (pow10_gt0 k ltac:(lia)). 
    assert (0 < 10 ^ 27) by (apply pow10_gt0; lia).
    nia.
Qed.

(** [fix_] in terms of [fix_mag]. *)
Lemma fix_shape d :
  exists q e,
    fix_ d = mkDecimal (Z.sgn (d_int d) * q) e /\
    0 <= q /\ ndigits q <= prec /\
    d_exp d <= e /\
    q * 10 ^ (e - d_exp d) = fix_mag (Z.abs (d_int d)) /\
    (prec < ndigits (Z.abs (d_int d)) -> 10 ^ 27 <= q).
Proof.
  unfold fix_, fix_mag.
  set (n := Z.abs (d_int d)).
  destruct (Z.leb_spec (ndigits n) prec) as [H|H].
  - exists n, (d_exp d). subst n. destruct d as [c e]; cbn [d_int d_exp] in *.
    split; [f_equal; lia|].
    repeat split; try lia. rewrite Z.sub_diag. lia.
  - pose proof (rounded_range n H) as Hr.
    set (k := ndigits n - prec) in *.
    set (q := round_half_even n k) in *.
    assert (Hk : 0 < k) by lia.
    destruct (Z.ltb_spec prec (ndigits q)) as [Hov|Hov].
    + assert (Hq : q = 10 ^ 28).
      { destruct (Z.eq_dec q (10 ^ 28)) as [|Hne]; [assumption|].
        assert (Hlt : q < 10 ^ 28) by lia.
        apply (ndigits_lt_pow q 28) in Hlt; unfold prec in *; lia. }
      exists (10 ^ 27), (d_exp d + k + 1).
      rewrite Hq. replace (10 ^ 28 / 10) with (10 ^ 27) by reflexivity.
      repeat split; try lia.
      * vm_compute. discriminate.
      * replace (d_exp d + k + 1 - d_exp d) with (1 + k) by lia.
        rewrite Z.pow_add_r by lia. lia.
    + exists q, (d_exp d + k).
      repeat split; try lia.
      replace (d_exp d + k - d_exp d) with k by lia. reflexivity.
Qed.

(** ** Values *)

Lemma p10_pos e : (0 < powerRZ 10 e)%R.
Proof. apply powerRZ_lt. lra. Qed.

Lemma p10_add a b : (powerRZ 10 (a + b) = powerRZ 10 a * powerRZ 10 b)%R.
Proof. apply powerRZ_add. lra. Qed.

Lemma p10_IZR k : 0 <= k -> IZR (10 ^ k) = powerRZ 10 k.
Proof.
  intros Hk. rewrite <- (Z2Nat.id k Hk).
  rewrite <- pow_powerRZ. rewrite <- pow_IZR. reflexivity.
Qed.

Lemma p10_sub a b : (powerRZ 10 a = powerRZ 10 (a - b) * powerRZ 10 b)%R.
Proof. rewrite <- p10_add. f_equal. lia. Qed.

Lemma value_mk c e : value (mkDecimal c e) = (IZR c * powerRZ 10 e)%R.
Proof. reflexivity. Qed.

(** The value of a decimal written at a smaller exponent [e']. *)
Lemma value_at d e' :
  e' <= d_exp d ->
  value d = (IZR (d_int d * 10 ^ (d_exp d - e')) * powerRZ 10 e')%R.
Proof.
  intros H. unfold value.
  rewrite mult_IZR, p10_IZR by lia.
  rewrite (p10_sub (d_exp d) e'). ring.
Qed.

Lemma value_scale c e j :
  0 <= j -> value (mkDecimal (c * 10 ^ j) (e - j)) = value (mkDecimal c e).
Proof.
  intros Hj. rewrite (value_at (mkDecimal c e) (e - j)) by (cbn [d_int d_exp]; lia).
  cbn [d_int d_exp]. rewrite value_mk.
  replace (e - (e - j)) with j by lia. reflexivity.
Qed.

Lemma IZR_p10_inj a b e : (IZR a * powerRZ 10 e = IZR b * powerRZ 10 e)%R -> a = b.
Proof.
  intros H. apply eq_IZR. pose proof (p10_pos e).
  apply (Rmult_eq_reg_r (powerRZ 10 e)); [exact H|lra].
Qed.

Lemma IZR_p10_le a b e : (IZR a * powerRZ 10 e <= IZR b * powerRZ 10 e)%R <-> a <= b.
Proof.
  pose proof (p10_pos e). split; intros Hle.
  - apply le_IZR. apply (Rmult_le_reg_r (powerRZ 10 e)); [lra|exact Hle].
  - apply Rmult_le_compat_r; [lra|]. apply IZR_le. exact Hle.
Qed.

Lemma IZR_p10_lt a b e : (IZR a * powerRZ 10 e < IZR b * powerRZ 10 e)%R <-> a < b.
Proof.
  pose proof (p10_pos e). split; intros Hlt.
  - apply lt_IZR. apply (Rmult_lt_reg_r (powerRZ 10 e)); [lra|exact Hlt].
  - apply Rmult_lt_compat_r; [lra|]. apply IZR_lt. exact Hlt.
Qed.

(** Comparison is comparison of values. *)
Lemma compare_value a b :
  match Dec.compare a b with
  | Eq => value a = value b
  | Lt => (value a < value b)%R
  | Gt => (value b < value a)%R
  end.
Proof.
  unfold Dec.compare.
  set (e := Z.min (d_exp a) (d_exp b)).
  rewrite (value_at a e), (value_at b e) by lia.
  destruct (Z.compare_spec (d_int a * 10 ^ (d_exp a - e)) (d_int b * 10 ^ (d_exp b - e)))
    as [H|H|H].
  - rewrite H. reflexivity.
  - apply IZR_p10_lt. exact H.
  - apply IZR_p10_lt. exact H.
Qed.

Lemma ltb_value a b : ltb a b = true <-> (value a < value b)%R.
Proof.
  unfold ltb. pose proof (compare_value a b) as H.
  destruct (Dec.compare a b); split; intros H'; try discriminate; try reflexivity; lra.
Qed.

Lemma leb_value a b : leb a b = true <-> (value a <= value b)%R.
Proof.
  unfold leb. pose proof (compare_value a b) as H.
  destruct (Dec.compare a b); split; intros H'; try discriminate; try reflexivity; lra.
Qed.

Lemma eqb_value a b : eqb a b = true <-> value a = value b.
Proof.
  unfold eqb. pose proof (compare_value a b) as H.
  destruct (Dec.compare a b); split; intros H'; try discriminate; try reflexivity; lra.
Qed.

Lemma value_of_Z n : value (of_Z n) = IZR n.
Proof. unfold value, of_Z. cbn. lra. Qed.

Lemma value_neg a : value (neg a) = (- value a)%R.
Proof. unfold value, neg. cbn [d_int d_exp]. rewrite opp_IZR. ring. Qed.

(** ** Rounding to the precision, on values *)

Lemma value_fix d :
  value (fix_ d) =
  (IZR (Z.sgn (d_int d) * fix_mag (Z.abs (d_int d))) * powerRZ 10 (d_exp d))%R.
Proof.
  destruct (fix_shape d) as [q [e [Hfix [Hq [Hnd [He [Hmag _]]]]]]].
  rewrite Hfix, <- Hmag.
  rewrite (value_at _ (d_exp d)) by (cbn [d_int d_exp]; lia).
  cbn [d_int d_exp]. do 2 f_equal. ring.
Qed.

Lemma fix_ndigits d : ndigits (Z.abs (d_int (fix_ d))) <= prec.
Proof.
  destruct (fix_shape d) as [q [e [Hfix [Hq [Hnd _]]]]].
  rewrite Hfix. cbn [d_int].
  rewrite Z.abs_mul, (Z.abs_eq q) by lia.
  destruct (Z.eq_dec (d_int d) 0) as [->|Hnz].
  - change (ndigits 0 <= prec). vm_compute. discriminate.
  - replace (Z.abs (Z.sgn (d_int d))) with 1 by lia. rewrite Z.mul_1_l. exact Hnd.
Qed.

Lemma fix_small d : ndigits (Z.abs (d_int d)) <= prec -> fix_ d = d.
Proof. intros H. unfold fix_. apply Z.leb_le in H. rewrite H. reflexivity. Qed.

(** Two decimals of equal value, the first at the smaller exponent. *)
Lemma value_eq_align a b :
  value a = value b -> d_exp a <= d_exp b ->
  d_int a = d_int b * 10 ^ (d_exp b - d_exp a).
Proof.
  intros Hv He. rewrite (value_at b (d_exp a) He) in Hv.
  apply (IZR_p10_inj _ _ (d_exp a)). exact Hv.
Qed.

Lemma fix_value_scale c e j :
  0 <= j -> value (fix_ (mkDecimal (c * 10 ^ j) (e - j))) = value (fix_ (mkDecimal c e)).
Proof.
  intros Hj. rewrite !value_fix. cbn [d_int d_exp].
  pose proof (pow10_gt0 j Hj) as HJ.
  rewrite Z.abs_mul, (Z.abs_eq (10 ^ j)) by lia.
  rewrite fix_mag_scale by lia.
  replace (Z.sgn (c * 10 ^ j)) with (Z.sgn c) by nia.
  rewrite (p10_sub e (e - j)).
  replace (e - (e - j)) with j by lia.
  rewrite <- (p10_IZR j) by lia.
  rewrite !mult_IZR. ring.
Qed.

(** The value of the rounded result depends on the value of the argument
    only, not on how it is written. *)
Lemma fix_value_eq a b : value a = value b -> value (fix_ a) = value (fix_ b).
Proof.
  assert (Hwlog : forall a b, d_exp a <= d_exp b -> value a = value b ->
                              value (fix_ a) = value (fix_ b)).
  { clear a b. intros [ca ea] [cb eb] He Hv.
    pose proof (value_eq_align _ _ Hv He) as Hc. cbn [d_int d_exp] in *.
    subst ca.
    pose proof (fix_value_scale cb eb (eb - ea) ltac:(lia)) as Hs.
    replace (eb - (eb - ea)) with ea in Hs by lia. exact Hs. }
  intros Hv. destruct (Z.le_ge_cases (d_exp a) (d_exp b)) as [H|H].
  - apply Hwlog; assumption.
  - symmetry. apply Hwlog; [assumption|symmetry; assumption].
Qed.

Lemma fix_mono_aligned c1 c2 e :
  c1 <= c2 -> (value (fix_ (mkDecimal c1 e)) <= value (fix_ (mkDecimal c2 e)))%R.
Proof.
  intros Hc. rewrite !value_fix. cbn [d_int d_exp].
  apply IZR_p10_le.
  pose proof (fix_mag_nonneg (Z.abs c1) ltac:(lia)).
  pose proof (fix_mag_nonneg (Z.abs c2) ltac:(lia)).
  destruct (Z.le_gt_cases 0 c1) as [H1|H1].
  - pose proof (fix_mag_mono (Z.abs c1) (Z.abs c2) ltac:(lia)). nia.
  - destruct (Z.le_gt_cases c2 0) as [H2|H2].
    + pose proof (fix_mag_mono (Z.abs c2) (Z.abs c1) ltac:(lia)). nia.
    + nia.
Qed.

(** Rounding is monotone. *)
Lemma fix_mono a b : (value a <= value b)%R -> (value (fix_ a) <= value (fix_ b))%R.
Proof.
  intros Hv.
  set (e := Z.min (d_exp a) (d_exp b)).
  set (a' := mkDecimal (d_int a * 10 ^ (d_exp a - e)) e).
  set (b' := mkDecimal (d_int b * 10 ^ (d_exp b - e)) e).
  assert (Ha : value a = value a')
    by (unfold a'; rewrite value_mk; apply value_at; unfold e; lia).
  assert (Hb : value b = value b')
    by (unfold b'; rewrite value_mk; apply value_at; unfold e; lia).
  rewrite (fix_value_eq a a' Ha), (fix_value_eq b b' Hb).
  apply fix_mono_aligned.
  rewrite Ha, Hb in Hv. unfold a', b' in Hv. rewrite !value_mk in Hv.
  apply IZR_p10_le in Hv. exact Hv.
Qed.

Lemma R_2e27 : (2 * 10 ^ 27)%R = IZR (2 * 10 ^ 27).
Proof.
  replace (2 * 10 ^ 27)%Z with 2000000000000000000000000000%Z by reflexivity. lra.
Qed.

(** Relative error of rounding: at most half a unit of the 28th digit. *)
Lemma fix_error d :
  (2 * 10 ^ 27 * Rabs (value (fix_ d) - value d) <= Rabs (value d))%R.
Proof.
  rewrite value_fix. unfold value.
  set (c := d_int d). set (n := Z.abs c).
  rewrite <- Rmult_minus_distr_r, !Rabs_mult.
  pose proof (p10_pos (d_exp d)) as Hp.
  rewrite (Rabs_right (powerRZ 10 (d_exp d))) by lra.
  rewrite <- Rmult_assoc.
  apply Rmult_le_compat_r; [lra|].
  rewrite <- minus_IZR, <- !abs_IZR.
  rewrite R_2e27.
  rewrite <- mult_IZR. apply IZR_le.
  pose proof (fix_mag_error n ltac:(lia)) as Herr.
  pose proof (fix_mag_nonneg n ltac:(lia)) as Hnn.
  replace (Z.abs (Z.sgn c * fix_mag n - c)) with (Z.abs (fix_mag n - n)); [lia|].
  unfold n in *. destruct (Z.abs_spec c) as [[Hc Ha]|[Hc Ha]]; rewrite Ha in *.
  - destruct (Z.eq_dec c 0) as [->|]; [reflexivity|].
    replace (Z.sgn c) with 1 by lia. f_equal. lia.
  - replace (Z.sgn c) with (-1) by lia.
    replace (-1 * fix_mag (- c) - c) with (- (fix_mag (- c) - - c)) by lia.
    rewrite Z.abs_opp. reflexivity.
Qed.

(** A value that can be written with 28 digits is not changed. *)
Lemma fix_exact d m e :
  value d = (IZR m * powerRZ 10 e)%R -> Z.abs m < 10 ^ 28 -> value (fix_ d) = value d.
Proof.
  intros Hv Hm.
  assert (Hd : value d = value (mkDecimal m e)) by exact Hv.
  rewrite (fix_value_eq _ _ Hd), fix_small; [symmetry; exact Hd|].
  cbn [d_int]. apply ndigits_lt_pow; unfold prec; lia.
Qed.

(** ** Addition, subtraction and multiplication on values *)

Lemma add_fix a b : add a b = fix_ (exact_sum a b).
Proof. reflexivity. Qed.

Lemma mul_fix a b : mul a b = fix_ (exact_product a b).
Proof. reflexivity. Qed.

Lemma value_exact_sum a b : value (exact_sum a b) = (value a + value b)%R.
Proof.
  unfold exact_sum. set (e := Z.min (d_exp a) (d_exp b)).
  rewrite (value_at a e), (value_at b e) by lia.
  rewrite value_mk, plus_IZR. ring.
Qed.

Lemma value_exact_product a b : value (exact_product a b) = (value a * value b)%R.
Proof.
  unfold exact_product, value. cbn [d_int d_exp].
  rewrite mult_IZR, p10_add. ring.
Qed.

(** ** Rounding to two places *)

Lemma round_half_up_bounds n k :
  0 <= n -> 0 <= k ->
  n / 10 ^ k <= round_half_up n k <= n / 10 ^ k + 1 /\
  2 * Z.abs (round_half_up n k * 10 ^ k - n) <= 10 ^ k.
Proof.
  intros Hn Hk. unfold round_half_up.
  pose proof (pow10_gt0 k Hk) as HP.
  pose proof (Z.div_mod n (10 ^ k) ltac:(lia)) as Hdm.
  pose proof (Z.mod_pos_bound n (10 ^ k) HP) as Hr.
  set (q := n / 10 ^ k) in *. set (r := n mod 10 ^ k) in *.
  destruct (Z.leb_spec (10 ^ k) (2 * r)) as [H1|H1]; split; try lia; nia.
Qed.

Lemma round_half_up_exact n k :
  0 <= k -> n mod 10 ^ k = 0 -> round_half_up n k = n / 10 ^ k.
Proof.
  intros Hk Hr. unfold round_half_up. rewrite Hr.
  pose proof (pow10_gt0 k Hk) as HP.
  destruct (Z.leb_spec (10 ^ k) (2 * 0)) as [H1|H1]; [lia|reflexivity].
Qed.

Lemma round_half_up_scale n k j :
  0 <= k -> 0 <= j ->
  round_half_up (n * 10 ^ j) (k + j) = round_half_up n k.
Proof.
  intros Hk Hj. unfold round_half_up.
  pose proof (pow10_gt0 k Hk) as HP. pose proof (pow10_gt0 j Hj) as HJ.
  rewrite Z.pow_add_r by lia.
  rewrite Z.div_mul_cancel_r by lia.
  rewrite Z.mul_mod_distr_r by lia.
  set (q := n / 10 ^ k). set (r := n mod 10 ^ k).
  destruct (Z.leb_spec (10 ^ k) (2 * r)), (Z.leb_spec (10 ^ k * 10 ^ j) (2 * (r * 10 ^ j)));
    try reflexivity; nia.
Qed.

Lemma round_half_up_mono n m k :
  0 <= n <= m -> 0 <= k -> round_half_up n k <= round_half_up m k.
Proof.
  intros [Hn Hm] Hk.
  pose proof (pow10_gt0 k Hk) as HP.
  destruct (round_half_up_bounds n k Hn Hk) as [[_ Hup] _].
  destruct (round_half_up_bounds m k ltac:(lia) Hk) as [[Hlo _] _].
  pose proof (Z.div_le_mono n m (10 ^ k) HP Hm) as Hq.
  destruct (Z.eq_dec (n / 10 ^ k) (m / 10 ^ k)) as [Heq|Hne]; [|lia].
  unfold round_half_up. rewrite Heq.
  pose proof (Z.div_mod n (10 ^ k) ltac:(lia)) as Hdn.
  pose proof (Z.div_mod m (10 ^ k) ltac:(lia)) as Hdm.
  assert (Hr : n mod 10 ^ k <= m mod 10 ^ k) by nia.
  destruct (Z.leb_spec (10 ^ k) (2 * (n mod 10 ^ k))),
           (Z.leb_spec (10 ^ k) (2 * (m mod 10 ^ k))); lia.
Qed.

Lemma quantize2_unfold d :
  quantize2 d =
  let n := Z.abs (d_int d) in
  if n =? 0 then Ok (mkDecimal 0 (-2))
  else if 26 <? d_exp d + ndigits n then Raise InvalidOperation
  else if prec <? ndigits (quant_mag n (d_exp d)) then Raise InvalidOperation
  else Ok (mkDecimal (Z.sgn (d_int d) * quant_mag n (d_exp d)) (-2)).
Proof.
  unfold quantize2, quant_mag, prec. cbv zeta.
  destruct (Z.abs (d_int d) =? 0); [reflexivity|].
  replace (28 <? d_exp d + ndigits (Z.abs (d_int d)) - 1 - -2 + 1)
    with (26 <? d_exp d + ndigits (Z.abs (d_int d))).
  2:{ destruct (Z.ltb_spec 26 (d_exp d + ndigits (Z.abs (d_int d)))),
               (Z.ltb_spec 28 (d_exp d + ndigits (Z.abs (d_int d)) - 1 - -2 + 1));
      try reflexivity; lia. }
  reflexivity.
Qed.

Lemma quant_mag_nonneg n e : 0 <= n -> 0 <= quant_mag n e.
Proof.
  intros Hn. unfold quant_mag.
  destruct (Z.leb_spec (-2) e) as [H|H].
  - pose proof (pow10_gt0 (e + 2) ltac:(lia)). nia.
  - assert (Hk : 0 <= -2 - e) by lia.
    destruct (round_half_up_bounds n (-2 - e) Hn Hk) as [[Hlo _] _].
    pose proof (Z.div_pos n (10 ^ (-2 - e)) Hn (pow10_gt0 _ Hk)). lia.
Qed.

Lemma quant_mag_scale n e j :
  0 <= n -> 0 <= j -> quant_mag (n * 10 ^ j) (e - j) = quant_mag n e.
Proof.
  intros Hn Hj. unfold quant_mag.
  pose proof (pow10_gt0 j Hj) as HJ.
  destruct (Z.leb_spec (-2) (e - j)) as [H1|H1]; destruct (Z.leb_spec (-2) e) as [H2|H2]; try lia.
  - rewrite <- Z.mul_assoc, <- Z.pow_add_r by lia. do 2 f_equal. lia.
  - (* the dropped digits are zeros *)
    set (k := -2 - (e - j)).
    assert (Hk : 0 < k <= j) by (unfold k; lia).
    assert (Hsplit : n * 10 ^ j = (n * 10 ^ (e + 2)) * 10 ^ k).
    { rewrite <- Z.mul_assoc, <- Z.pow_add_r by lia. do 2 f_equal. unfold k. lia. }
    pose proof (pow10_gt0 k ltac:(lia)) as HK.
    rewrite round_half_up_exact.
    + rewrite Hsplit. rewrite Z.div_mul by lia. reflexivity.
    + lia.
    + rewrite Hsplit. apply Z.mod_mul. lia.
  - replace (-2 - (e - j)) with ((-2 - e) + j) by lia.
    apply round_half_up_scale; lia.
Qed.

Lemma quantize2_scale c e j :
  0 <= j -> quantize2 (mkDecimal (c * 10 ^ j) (e - j)) = quantize2 (mkDecimal c e).
Proof.
  intros Hj. rewrite !quantize2_unfold. cbn [d_int d_exp]. cbv zeta.
  pose proof (pow10_gt0 j Hj) as HJ.
  rewrite Z.abs_mul, (Z.abs_eq (10 ^ j)) by lia.
  destruct (Z.eq_dec c 0) as [->|Hc]; [reflexivity|].
  destruct (Z.eqb_spec (Z.abs c * 10 ^ j) 0) as [H0|H0]; [nia|].
  destruct (Z.eqb_spec (Z.abs c) 0) as [H0'|H0']; [lia|].
  rewrite ndigits_mul_pow by lia.
  replace (e - j + (ndigits (Z.abs c) + j)) with (e + ndigits (Z.abs c)) by lia.
  rewrite quant_mag_scale by lia.
  replace (Z.sgn (c * 10 ^ j)) with (Z.sgn c) by nia.
  reflexivity.
Qed.

(** The two-place rounding depends on the value only. *)
Lemma quantize2_value_eq a b : value a = value b -> quantize2 a = quantize2 b.
Proof.
  assert (Hwlog : forall a b, d_exp a <= d_exp b -> value a = value b ->
                              quantize2 a = quantize2 b).
  { clear a b. intros [ca ea] [cb eb] He Hv.
    pose proof (value_eq_align _ _ Hv He) as Hc. cbn [d_int d_exp] in *.
    subst ca.
    pose proof (quantize2_scale cb eb (eb - ea) ltac:(lia)) as Hs.
    replace (eb - (eb - ea)) with ea in Hs by lia. exact Hs. }
  intros Hv. destruct (Z.le_ge_cases (d_exp a) (d_exp b)) as [H|H].
  - apply Hwlog; assumption.
  - symmetry. apply Hwlog; [assumption|symmetry; assumption].
Qed.

(** What a successful rounding returns. *)
Lemma quantize2_Ok d q :
  quantize2 d = Ok q ->
  q = mkDecimal (Z.sgn (d_int d) * quant_mag (Z.abs (d_int d)) (d_exp d)) (-2) /\
  (d_int d <> 0 -> d_exp d + ndigits (Z.abs (d_int d)) <= 26).
Proof.
  rewrite quantize2_unfold. cbv zeta. intros H.
  destruct (Z.eqb_spec (Z.abs (d_int d)) 0) as [H0|H0].
  - injection H as <-. rewrite H0.
    assert (Hc : d_int d = 0) by lia. rewrite Hc.
    split; [reflexivity|]. intros Hne. contradiction.
  - destruct (Z.ltb_spec 26 (d_exp d + ndigits (Z.abs (d_int d)))) as [H1|H1]; [discriminate|].
    destruct (prec <? _); [discriminate|].
    injection H as <-. split; [reflexivity|intros _; lia].
Qed.

Lemma quantize2_exp d q : quantize2 d = Ok q -> d_exp q = -2.
Proof. intros H. apply quantize2_Ok in H. destruct H as [-> _]. reflexivity. Qed.

(** A rounding that succeeds was applied to a number below [10 ^ 26]. *)
Lemma quantize2_Ok_bound d q :
  quantize2 d = Ok q -> (Rabs (value d) < powerRZ 10 26)%R.
Proof.
  intros H. apply quantize2_Ok in H. destruct H as [_ Hb].
  unfold value. rewrite Rabs_mult.
  pose proof (p10_pos (d_exp d)) as Hp.
  rewrite (Rabs_right (powerRZ 10 (d_exp d))) by lra.
  rewrite <- abs_IZR.
  destruct (Z.eq_dec (d_int d) 0) as [H0|H0].
  - rewrite H0. cbn [Z.abs]. rewrite Rmult_0_l. apply p10_pos.
  - specialize (Hb H0).
    set (n := Z.abs (d_int d)) in *.
    destruct (ndigits_spec n ltac:(lia)) as [_ Hhi].
    pose proof (ndigits_ge1 n) as Hd.
    replace 26 with ((26 - d_exp d) + d_exp d) by lia.
    rewrite p10_add.
    apply Rmult_lt_compat_r; [lra|].
    rewrite <- p10_IZR by lia. apply IZR_lt.
    pose proof (pow10_le_mono (ndigits n) (26 - d_exp d) ltac:(lia)). lia.
Qed.


(** The signed number of cents of a two-place decimal. *)
Lemma value_cents q : d_exp q = -2 -> value q = (IZR (d_int q) * powerRZ 10 (-2))%R.
Proof. intros H. unfold value. rewrite H. reflexivity. Qed.

Lemma signed_quant_mono c1 c2 e :
  c1 <= c2 ->
  Z.sgn c1 * quant_mag (Z.abs c1) e <= Z.sgn c2 * quant_mag (Z.abs c2) e.
Proof.
  intros Hc.
  pose proof (quant_mag_nonneg (Z.abs c1) e ltac:(lia)) as H1.
  pose proof (quant_mag_nonneg (Z.abs c2) e ltac:(lia)) as H2.
  assert (Hm : forall n m, 0 <= n <= m -> quant_mag n e <= quant_mag m e).
  { intros n m Hnm. unfold quant_mag. destruct (Z.leb_spec (-2) e) as [He|He].
    - pose proof (pow10_gt0 (e + 2) ltac:(lia)). nia.
    - apply round_half_up_mono; lia. }
  destruct (Z.le_gt_cases 0 c1) as [Hp|Hp].
  - pose proof (Hm (Z.abs c1) (Z.abs c2) ltac:(lia)). nia.
  - destruct (Z.le_gt_cases c2 0) as [Hq|Hq].
    + pose proof (Hm (Z.abs c2) (Z.abs c1) ltac:(lia)). nia.
    + nia.
Qed.

(** Rounding to two places is monotone. *)
Lemma quantize2_mono a b qa qb :
  (value a <= value b)%R -> quantize2 a = Ok qa -> quantize2 b = Ok qb ->
  d_int qa <= d_int qb.
Proof.
  intros Hv Ha Hb.
  set (e := Z.min (d_exp a) (d_exp b)).
  set (a' := mkDecimal (d_int a * 10 ^ (d_exp a - e)) e).
  set (b' := mkDecimal (d_int b * 10 ^ (d_exp b - e)) e).
  assert (Hva : value a = value a')
    by (unfold a'; rewrite value_mk; apply value_at; unfold e; lia).
  assert (Hvb : value b = value b')
    by (unfold b'; rewrite value_mk; apply value_at; unfold e; lia).
  rewrite (quantize2_value_eq a a' Hva) in Ha.
  rewrite (quantize2_value_eq b b' Hvb) in Hb.
  apply quantize2_Ok in Ha. apply quantize2_Ok in Hb.
  destruct Ha as [-> _]. destruct Hb as [-> _].
  cbn [d_int d_exp].
  apply signed_quant_mono.
  rewrite Hva, Hvb in Hv. unfold a', b' in Hv. rewrite !value_mk in Hv.
  apply IZR_p10_le in Hv. exact Hv.
Qed.

(** ** Powers of ten and absolute errors *)

Lemma p10_ge1 k : 0 <= k -> (1 <= powerRZ 10 k)%R.
Proof.
  intros Hk. rewrite <- p10_IZR by lia. apply IZR_le.
  pose proof (pow10_gt0 k Hk). lia.
Qed.

Lemma p10_le a b : a <= b -> (powerRZ 10 a <= powerRZ 10 b)%R.
Proof.
  intros H. rewrite (p10_sub b a).
  pose proof (p10_ge1 (b - a) ltac:(lia)). pose proof (p10_pos a). nra.
Qed.

Lemma p10_lt_inv a b : (powerRZ 10 a < powerRZ 10 b)%R -> a < b.
Proof.
  intros H. destruct (Z.lt_ge_cases a b) as [Hlt|Hge]; [exact Hlt|].
  pose proof (p10_le b a ltac:(lia)). lra.
Qed.

Lemma value_abs d : Rabs (value d) = (IZR (Z.abs (d_int d)) * powerRZ 10 (d_exp d))%R.
Proof.
  unfold value. rewrite Rabs_mult, <- abs_IZR.
  pose proof (p10_pos (d_exp d)). rewrite (Rabs_right (powerRZ 10 (d_exp d))) by lra.
  reflexivity.
Qed.

Lemma value_fix_abs d :
  Rabs (value (fix_ d)) = (IZR (fix_mag (Z.abs (d_int d))) * powerRZ 10 (d_exp d))%R.
Proof.
  rewrite value_fix, Rabs_mult, <- abs_IZR.
  pose proof (p10_pos (d_exp d)). rewrite (Rabs_right (powerRZ 10 (d_exp d))) by lra.
  pose proof (fix_mag_nonneg (Z.abs (d_int d)) ltac:(lia)).
  do 2 f_equal.
  destruct (Z.eq_dec (d_int d) 0) as [Hz|Hz].
  - rewrite Hz. reflexivity.
  - nia.
Qed.





(** ** Conservation (C5) *)

Lemma value_sub a b : value (sub a b) = value (fix_ (exact_sum a (neg b))).
Proof. reflexivity. Qed.




Local Open Scope string_scope.

(** ** The loop without the breakdown *)

Lemma year_loop_amounts k f n mp rpp : forall yr y y',
  year_loop k f n mp rpp yr y = Ok y' ->
  amounts_after k f n mp rpp (ys_current_amount y) (ys_total_contributions y)
  = (ys_current_amount y', ys_total_contributions y').
Proof.
  induction k as [|k IH]; intros yr y y' H.
  - simpl in H. injection H as <-. reflexivity.
  - cbn [year_loop] in H. inv_bind H.
    cbn [amounts_after]. rewrite <- (IH _ _ _ H).
    unfold year_body in Hm. inv_binds Hm. injection Hm as <-.
    reflexivity.
Qed.

(** A returned response rounds the unrounded totals. *)
Lemma calculate_totals power now req resp :
  calculate_compound_interest power now req = Ok resp ->
  exists F T,
    unrounded_totals req = Ok (F, T) /\
    quantize2 F = Ok (final_amount resp) /\
    quantize2 T = Ok (total_contributions resp) /\
    quantize2 (sub F T) = Ok (total_interest resp).
Proof.
  intros H. unfold calculate_compound_interest in H.
  inv_binds H. injection H as <-.
  exists (ys_current_amount v1), (ys_total_contributions v1).
  unfold unrounded_totals. rewrite Hm. cbn [bind]. rewrite Hm0. cbn [bind].
  pose proof (year_loop_amounts _ _ _ _ _ _ _ _ Hm1) as Ha.
  cbn [ys_current_amount ys_total_contributions] in Ha. rewrite Ha.
  cbn [final_amount total_contributions total_interest].
  repeat split; assumption.
Qed.

(** ** Contribution accounting (C4) *)

Lemma period_body_total f mp rpp s :
  ps_total_contributions (period_body f mp rpp s) =
  if (f =? "monthly") && ltb (of_Z 0) mp
  then add (ps_total_contributions s) mp else ps_total_contributions s.
Proof. unfold period_body. destruct ((f =? "monthly") && ltb (of_Z 0) mp); reflexivity. Qed.

Section Accounting.

(** The principal and the payment in units of [10 ^ -20]. *)
Variables (P M : Z) (mp : Decimal).
Hypothesis HP : 0 <= P <= 10 ^ 27.
Hypothesis HM : 0 <= M <= 5 * 10 ^ 24.
Hypothesis Hmp : value mp = (IZR M * powerRZ 10 (-20))%R.

Lemma total_add k t :
  0 <= k < 600 -> total_is P M k t -> total_is P M (k + 1) (add t mp).
Proof.
  unfold total_is. intros Hk Ht.
  assert (Hs : value (exact_sum t mp) = (IZR (P + (k + 1) * M) * powerRZ 10 (-20))%R).
  { rewrite value_exact_sum, Ht, Hmp.
    replace (P + (k + 1) * M) with ((P + k * M) + M) by ring.
    rewrite (plus_IZR (P + k * M) M). ring. }
  rewrite add_fix, (fix_exact _ _ _ Hs); [exact Hs|].
  assert (10 ^ 27 = 1000000000000000000000000000) by reflexivity.
  assert (10 ^ 24 = 1000000000000000000000000) by reflexivity.
  assert (10 ^ 28 = 10000000000000000000000000000) by reflexivity.
  nia.
Qed.

Lemma total_add_annual k t :
  0 <= k <= 588 -> total_is P M k t -> total_is P M (k + 12) (add t (mul mp (of_Z 12))).
Proof.
  unfold total_is. intros Hk Ht.
  assert (H27 : 10 ^ 27 = 1000000000000000000000000000) by reflexivity.
  assert (H24 : 10 ^ 24 = 1000000000000000000000000) by reflexivity.
  assert (H28 : 10 ^ 28 = 10000000000000000000000000000) by reflexivity.
  assert (Hm : value (mul mp (of_Z 12)) = (IZR (12 * M) * powerRZ 10 (-20))%R).
  { assert (Hs : value (exact_product mp (of_Z 12)) = (IZR (12 * M) * powerRZ 10 (-20))%R).
    { rewrite value_exact_product, Hmp, value_of_Z, mult_IZR. ring. }
    rewrite mul_fix, (fix_exact _ _ _ Hs); [exact Hs|]. nia. }
  assert (Hs : value (exact_sum t (mul mp (of_Z 12)))
               = (IZR (P + (k + 12) * M) * powerRZ 10 (-20))%R).
  { rewrite value_exact_sum, Ht, Hm.
    replace (P + (k + 12) * M) with ((P + k * M) + 12 * M) by ring.
    rewrite (plus_IZR (P + k * M) (12 * M)). ring. }
  rewrite add_fix, (fix_exact _ _ _ Hs); [exact Hs|]. nia.
Qed.

Lemma total_zero k k' t : M = 0 -> total_is P M k t -> total_is P M k' t.
Proof. unfold total_is. intros -> H. rewrite H. do 2 f_equal. lia. Qed.

Lemma ltb_zero_payment : ltb (of_Z 0) mp = false -> M = 0.
Proof.
  intros H.
  assert (Hle : leb mp (of_Z 0) = true) by (rewrite leb_negb_ltb, H; reflexivity).
  apply leb_value in Hle. rewrite Hmp, value_of_Z in Hle.
  pose proof (p10_pos (-20)) as Hp.
  assert (IZR M <= 0)%R by nra.
  apply le_IZR in H0. lia.
Qed.

Lemma period_loop_total_monthly n : forall k s rpp,
  ltb (of_Z 0) mp = true ->
  0 <= k -> k + Z.of_nat n <= 600 ->
  total_is P M k (ps_total_contributions s) ->
  total_is P M (k + Z.of_nat n) (ps_total_contributions (period_loop n "monthly" mp rpp s)).
Proof.
  induction n as [|n IH]; intros k s rpp Hpos Hk Hkn Hs.
  - cbn [period_loop]. replace (k + Z.of_nat 0) with k by lia. exact Hs.
  - cbn [period_loop].
    replace (k + Z.of_nat (S n)) with ((k + 1) + Z.of_nat n) by lia.
    apply IH; try lia; try assumption.
    rewrite period_body_total, Hpos. cbn [String.eqb andb].
    change ("monthly" =? "monthly") with true. cbn [andb].
    apply total_add; [lia|exact Hs].
Qed.

Lemma period_loop_total_other n f : forall s rpp,
  (f =? "monthly") && ltb (of_Z 0) mp = false ->
  ps_total_contributions (period_loop n f mp rpp s) = ps_total_contributions s.
Proof.
  induction n as [|n IH]; intros s rpp Hf.
  - reflexivity.
  - cbn [period_loop]. rewrite IH by exact Hf.
    rewrite period_body_total, Hf. reflexivity.
Qed.

Lemma year_amounts_total f rpp c t k :
  in_list f allowed_frequencies = true ->
  0 <= k <= 588 ->
  total_is P M k t ->
  total_is P M (k + 12)
    (ps_total_contributions (year_amounts f (periods_of f) mp rpp (mkYearState c t []))).
Proof.
  intros Hf Hk Ht.
  destruct (ltb (of_Z 0) mp) eqn:Hpos.
  - unfold year_amounts, year_end_contribution.
    assert (Hcases : f = "monthly" \/ f = "quarterly" \/ f = "yearly").
    { unfold in_list, allowed_frequencies in Hf. cbn [existsb] in Hf.
      rewrite !orb_true_iff in Hf.
      destruct Hf as [H|[H|[H|H]]]; try discriminate;
        apply String.eqb_eq in H; subst; tauto. }
    destruct Hcases as [-> | [-> | ->]].
    + change (in_list "monthly" ["quarterly"; "yearly"]) with false. cbn [andb].
      change (periods_of "monthly") with 12%nat.
      apply (period_loop_total_monthly 12 k); try lia; assumption.
    + change (in_list "quarterly" ["quarterly"; "yearly"]) with true. rewrite Hpos. cbn [andb].
      cbn [ps_total_contributions].
      rewrite period_loop_total_other by reflexivity.
      apply total_add_annual; assumption.
    + change (in_list "yearly" ["quarterly"; "yearly"]) with true. rewrite Hpos. cbn [andb].
      cbn [ps_total_contributions].
      rewrite period_loop_total_other by reflexivity.
      apply total_add_annual; assumption.
  - pose proof (ltb_zero_payment Hpos) as HM0.
    apply (total_zero k _ _ HM0).
    unfold year_amounts, year_end_contribution. rewrite Hpos, andb_false_r.
    rewrite period_loop_total_other by (rewrite Hpos; apply andb_false_r).
    exact Ht.
Qed.

Lemma amounts_after_total j f rpp : forall c t k,
  in_list f allowed_frequencies = true ->
  0 <= k -> k + 12 * Z.of_nat j <= 600 ->
  total_is P M k t ->
  total_is P M (k + 12 * Z.of_nat j) (snd (amounts_after j f (periods_of f) mp rpp c t)).
Proof.
  induction j as [|j IH]; intros c t k Hf Hk Hkj Ht.
  - cbn [amounts_after snd]. replace (k + 12 * Z.of_nat 0) with k by lia. exact Ht.
  - cbn [amounts_after].
    replace (k + 12 * Z.of_nat (S j)) with ((k + 12) + 12 * Z.of_nat j) by lia.
    apply IH; try lia; try assumption.
    apply year_amounts_total; try assumption. lia.
Qed.

End Accounting.

Lemma ite_nil_iff' {A : Type} (b : bool) (x : A) :
  (if b then [] else [x]) = [] <-> b = true.
Proof. destruct b; split; congruence. Qed.

Lemma model_accepts_true r :
  model_accepts r = true <->
  (ltb (of_Z 0) (principal r) && leb (principal r) (of_Z 10000000) = true /\
   leb (of_Z 0) (monthly_payment r) && leb (monthly_payment r) (of_Z 50000) = true /\
   ltb (of_Z 0) (annual_rate r) && leb (annual_rate r) (of_Z 20) = true /\
   (0 <? years r)%Z && (years r <=? 50)%Z = true /\
   in_list (compound_frequency r) allowed_frequencies = true).
Proof.
  unfold model_accepts.
  assert (H : model_field_errors r = [] <->
              (ltb (of_Z 0) (principal r) && leb (principal r) (of_Z 10000000) = true /\
               leb (of_Z 0) (monthly_payment r) && leb (monthly_payment r) (of_Z 50000) = true /\
               ltb (of_Z 0) (annual_rate r) && leb (annual_rate r) (of_Z 20) = true /\
               (0 <? years r)%Z && (years r <=? 50)%Z = true /\
               in_list (compound_frequency r) allowed_frequencies = true)).
  { unfold model_field_errors. rewrite !app_nil_iff, !ite_nil_iff'. tauto. }
  rewrite <- H. destruct (model_field_errors r); split; congruence.
Qed.

Lemma valid_request_caps r : valid_request r = true -> within_caps r = true.
Proof.
  unfold valid_request, within_caps. rewrite !andb_true_iff.
  intros [[[Hm _] _] _]. apply model_accepts_true in Hm.
  rewrite !andb_true_iff in Hm. tauto.
Qed.

Lemma value_exact_contributions r :
  value (exact_contributions r)
  = (value (principal r) + IZR (12 * years r) * value (monthly_payment r))%R.
Proof.
  unfold exact_contributions.
  set (e := Z.min (d_exp (principal r)) (d_exp (monthly_payment r))).
  rewrite (value_at (principal r) e), (value_at (monthly_payment r) e) by (unfold e; lia).
  rewrite value_mk, plus_IZR.
  replace (d_int (monthly_payment r) * 12 * years r * 10 ^ (d_exp (monthly_payment r) - e))
    with ((12 * years r) * (d_int (monthly_payment r) * 10 ^ (d_exp (monthly_payment r) - e)))
    by ring.
  rewrite (mult_IZR (12 * years r)). ring.
Qed.

(** The unrounded total of the contributions is the exact sum, for
    amounts within the caps that have at most 20 decimal places. *)
Lemma unrounded_total_exact r F T :
  within_caps r = true -> at_most_20_places r = true ->
  unrounded_totals r = Ok (F, T) ->
  value T = value (exact_contributions r).
Proof.
  unfold within_caps, at_most_20_places. rewrite !andb_true_iff.
  intros [[[[[[Hp0 Hp1] Hm0] Hm1] Hy0] Hy1] Hf] [Hep Hem] Hu.
  apply Z.leb_le in Hep, Hem, Hy1. apply Z.ltb_lt in Hy0.
  apply ltb_value in Hp0. apply leb_value in Hp1, Hm0, Hm1.
  rewrite value_of_Z in *.
  set (P := d_int (principal r) * 10 ^ (d_exp (principal r) - -20)).
  set (M := d_int (monthly_payment r) * 10 ^ (d_exp (monthly_payment r) - -20)).
  assert (HvP : value (principal r) = (IZR P * powerRZ 10 (-20))%R) by (apply value_at; lia).
  assert (HvM : value (monthly_payment r) = (IZR M * powerRZ 10 (-20))%R) by (apply value_at; lia).
  assert (H27 : (IZR (10 ^ 27) * powerRZ 10 (-20) = 10000000)%R).
  { rewrite p10_IZR by lia. rewrite <- p10_add. change (27 + -20) with 7.
    rewrite <- p10_IZR by lia. change (10 ^ 7) with 10000000. reflexivity. }
  assert (H24 : (IZR (5 * 10 ^ 24) * powerRZ 10 (-20) = 50000)%R).
  { rewrite mult_IZR, p10_IZR by lia. rewrite Rmult_assoc, <- p10_add. change (24 + -20) with 4.
    rewrite <- p10_IZR by lia. change (10 ^ 4) with 10000. lra. }
  assert (HP : 0 <= P <= 10 ^ 27).
  { split.
    - apply (IZR_p10_le 0 P (-20)). rewrite <- HvP. lra.
    - apply (IZR_p10_le P (10 ^ 27) (-20)). rewrite <- HvP, H27. exact Hp1. }
  assert (HM : 0 <= M <= 5 * 10 ^ 24).
  { split.
    - apply (IZR_p10_le 0 M (-20)). rewrite <- HvM. lra.
    - apply (IZR_p10_le M (5 * 10 ^ 24) (-20)). rewrite <- HvM, H24. exact Hm1. }
  unfold unrounded_totals in Hu. inv_binds Hu. injection Hu as Hu.
  pose proof (amounts_after_total P M (monthly_payment r) HP HM HvM
                (Z.to_nat (years r)) (compound_frequency r) v0
                (principal r) (principal r) 0 Hf ltac:(lia) ltac:(lia)) as Hinv.
  rewrite Hu in Hinv. cbn [snd] in Hinv.
  unfold total_is in Hinv.
  rewrite Hinv.
  - rewrite value_exact_contributions, HvP, HvM.
    rewrite Z2Nat.id by lia.
    replace (P + (0 + 12 * years r) * M) with (P + (12 * years r) * M) by ring.
    rewrite plus_IZR, (mult_IZR (12 * years r)). ring.
  - rewrite HvP. do 2 f_equal. ring.
Qed.

(** C4, as stated, fails: the total is accumulated by additions rounded to
    28 digits.  With [principal = 2.399999999999999e-13] and
    [monthly_payment = 83.33374999999998], one year, yearly compounding,
    the response reports 1000.01, while
    [principal + monthly_payment * 12 * years] is
    1000.0049999999999999999999999999, which rounds to 1000.00. *)
Lemma C4_total_accumulated_with_rounding :
  exists resp,
    valid_request
      (mkRequest (mkDecimal 2399999999999999 (-28)) (mkDecimal 8333374999999998 (-14))
         (mkDecimal 50 (-1)) 1 "yearly") = true /\
    calculate_compound_interest power_one "t"
      (mkRequest (mkDecimal 2399999999999999 (-28)) (mkDecimal 8333374999999998 (-14))
         (mkDecimal 50 (-1)) 1 "yearly") = Ok resp /\
    total_contributions resp = mkDecimal 100001 (-2) /\
    exact_contributions
      (mkRequest (mkDecimal 2399999999999999 (-28)) (mkDecimal 8333374999999998 (-14))
         (mkDecimal 50 (-1)) 1 "yearly")
    = mkDecimal 10000049999999999999999999999999 (-28) /\
    quantize2 (mkDecimal 10000049999999999999999999999999 (-28))
    = Ok (mkDecimal 100000 (-2)).
Proof.
  eexists.
  split; [vm_compute; reflexivity|].
  split; [vm_compute; reflexivity|].
  split; [vm_compute; reflexivity|].
  split; vm_compute; reflexivity.
Qed.

(** C4 (amended): for every valid input whose principal and monthly
    payment have at most 20 decimal places, the total of the contributions
    the service accumulates equals
    [principal + monthly_payment * 12 * years] exactly, and the returned
    [total_contributions] is that sum rounded half-up to two places. *)
Theorem C4_contribution_accounting :
  forall power now req resp,
    valid_request req = true ->
    at_most_20_places req = true ->
    calculate_compound_interest power now req = Ok resp ->
    exists F T,
      unrounded_totals req = Ok (F, T) /\
      eqb T (exact_contributions req) = true /\
      quantize2 (exact_contributions req) = Ok (total_contributions resp).
Proof.
  intros power now req resp Hv H20 H.
  destruct (calculate_totals _ _ _ _ H) as [F [T [Hu [_ [HT _]]]]].
  exists F, T. split; [exact Hu|].
  pose proof (unrounded_total_exact req F T (valid_request_caps _ Hv) H20 Hu) as Hval.
  split.
  - apply eqb_value. exact Hval.
  - rewrite <- (quantize2_value_eq _ _ Hval). exact HT.
Qed.

Lemma C4_contribution_accounting_witness :
  exists resp,
    calculate_compound_interest power_one "t"
      (mkRequest (mkDecimal 50000 (-1)) (mkDecimal 2000 (-1)) (mkDecimal 50 (-1)) 1 "monthly")
    = Ok resp /\
    quantize2 (exact_contributions
      (mkRequest (mkDecimal 50000 (-1)) (mkDecimal 2000 (-1)) (mkDecimal 50 (-1)) 1 "monthly"))
    = Ok (total_contributions resp).
Proof.
  eexists. split; [vm_compute; reflexivity|].
  destruct (C4_contribution_accounting power_one "t"
    (mkRequest (mkDecimal 50000 (-1)) (mkDecimal 2000 (-1)) (mkDecimal 50 (-1)) 1 "monthly")
    _ ltac:(vm_compute; reflexivity) ltac:(vm_compute; reflexivity)
    ltac:(vm_compute; reflexivity)) as [F [T [_ [_ Hq]]]].
  exact Hq.
Defined.

(** ** Zero rate (C3) *)

Lemma value_zero_iff d : value d = 0%R <-> d_int d = 0.
Proof.
  unfold value. pose proof (p10_pos (d_exp d)) as Hp. split; intros H.
  - apply eq_IZR. nra.
  - rewrite H. ring.
Qed.

Lemma fix_zero d : d_int d = 0 -> d_int (fix_ d) = 0.
Proof.
  intros H. rewrite fix_small; [exact H|]. rewrite H. vm_compute. discriminate.
Qed.


Lemma div_zero_l a b q : d_int a = 0 -> div a b = Ok q -> d_int q = 0.
Proof.
  unfold div. intros Ha. rewrite Ha. cbn [Z.eqb].
  destruct (d_int b =? 0)%Z; [discriminate|].
  intros H. injection H as <-. apply fix_zero. reflexivity.
Qed.


Lemma add_ndigits a b : ndigits (Z.abs (d_int (add a b))) <= prec.
Proof. apply fix_ndigits. Qed.












Local Close Scope string_scope.

(** ** Relative errors *)

Lemma delta_bounds : (0 < delta /\ delta * (2 * 10 ^ 27) = 1 /\ delta <= / 10 ^ 27)%R.
Proof.
  unfold delta.
  assert (H : (0 < 2 * 10 ^ 27)%R) by lra.
  split; [apply Rinv_0_lt_compat; exact H|].
  split; [apply Rinv_l; lra|].
  apply Rinv_le_contravar; lra.
Qed.

Lemma Rabs_bound x y : (Rabs x <= y)%R -> (- y <= x <= y)%R.
Proof. unfold Rabs. destruct (Rcase_abs x); intros H; lra. Qed.

Lemma fix_rel d :
  (0 <= value d)%R ->
  (value d * (1 - delta) <= value (fix_ d) <= value d * (1 + delta))%R.
Proof.
  intros Hd. pose proof (fix_error d) as He.
  rewrite (Rabs_right (value d)) in He by lra.
  destruct delta_bounds as [Hd0 [Hd1 _]].
  assert (Hb : (Rabs (value (fix_ d) - value d) <= value d * delta)%R).
  { apply (Rmult_le_reg_l (2 * 10 ^ 27)); [lra|].
    replace (2 * 10 ^ 27 * (value d * delta))%R with (value d * (delta * (2 * 10 ^ 27)))%R by ring.
    rewrite Hd1. lra. }
  apply Rabs_bound in Hb. lra.
Qed.

Lemma fix_nonneg d : (0 <= value d)%R -> (0 <= value (fix_ d))%R.
Proof.
  intros Hd.
  assert (H0 : value (fix_ (mkDecimal 0 0)) = 0%R).
  { rewrite fix_small by (vm_compute; discriminate). rewrite value_mk. lra. }
  rewrite <- H0. apply fix_mono. rewrite value_mk. lra.
Qed.

Lemma add_rel a b :
  (0 <= value a + value b)%R ->
  ((value a + value b) * (1 - delta) <= value (add a b)
   <= (value a + value b) * (1 + delta))%R.
Proof.
  intros H. rewrite add_fix. rewrite <- value_exact_sum in *. apply fix_rel. exact H.
Qed.

Lemma mul_rel a b :
  (0 <= value a * value b)%R ->
  ((value a * value b) * (1 - delta) <= value (mul a b)
   <= (value a * value b) * (1 + delta))%R.
Proof.
  intros H. rewrite mul_fix. rewrite <- value_exact_product in *. apply fix_rel. exact H.
Qed.

Lemma add_nonneg a b : (0 <= value a)%R -> (0 <= value b)%R -> (0 <= value (add a b))%R.
Proof.
  intros Ha Hb. rewrite add_fix. apply fix_nonneg. rewrite value_exact_sum. lra.
Qed.

Lemma mul_nonneg a b : (0 <= value a)%R -> (0 <= value b)%R -> (0 <= value (mul a b))%R.
Proof.
  intros Ha Hb. rewrite mul_fix. apply fix_nonneg. rewrite value_exact_product.
  apply Rmult_le_pos; assumption.
Qed.

Lemma add_mono a a' b b' :
  (value a <= value a')%R -> (value b <= value b')%R ->
  (value (add a b) <= value (add a' b'))%R.
Proof.
  intros Ha Hb. rewrite !add_fix. apply fix_mono. rewrite !value_exact_sum. lra.
Qed.

(** ** Division *)

Lemma strip_to_ideal_value fuel : forall coeff exp ideal c e,
  strip_to_ideal fuel coeff exp ideal = (c, e) ->
  exp <= e /\ c * 10 ^ (e - exp) = coeff.
Proof.
  induction fuel as [|fuel IH]; intros coeff exp ideal c e H.
  - cbn in H. injection H as <- <-. rewrite Z.sub_diag. cbn. lia.
  - cbn [strip_to_ideal] in H.
    destruct ((exp <? ideal) && (coeff mod 10 =? 0)) eqn:Hc.
    + apply andb_prop in Hc. destruct Hc as [_ Hm]. apply Z.eqb_eq in Hm.
      destruct (IH _ _ _ _ _ H) as [He Hv].
      split; [lia|].
      replace (e - exp) with ((e - (exp + 1)) + 1) by lia.
      rewrite Z.pow_add_r by lia. rewrite Z.mul_assoc, Hv.
      pose proof (Z.div_mod coeff 10 ltac:(lia)). lia.
    + injection H as <- <-. rewrite Z.sub_diag. cbn. lia.
Qed.

(** The quotient before it is rounded to the precision: it is within a
    relative [10 ^ -28] of the exact quotient. *)
Lemma div_shape a b :
  0 < d_int a -> 0 < d_int b ->
  exists c e,
    div a b = Ok (fix_ (mkDecimal c e)) /\ 0 <= c /\
    (10 ^ 28 * Rabs (value (mkDecimal c e) * value b - value a)
     <= value a)%R.
Proof.
  intros Ha Hb. unfold div.
  destruct (Z.eqb_spec (d_int b) 0) as [H|_]; [lia|].
  destruct (Z.eqb_spec (d_int a) 0) as [H|_]; [lia|].
  rewrite (Z.abs_eq (d_int a)), (Z.abs_eq (d_int b)) by lia.
  rewrite (Z.sgn_pos (d_int a)), (Z.sgn_pos (d_int b)) by lia.
  set (ca := d_int a) in *. set (cb := d_int b) in *.
  set (ea := d_exp a). set (eb := d_exp b).
  set (shift := ndigits cb - ndigits ca + prec + 1).
  set (exp := ea - eb - shift).
  set (num := if 0 <=? shift then ca * 10 ^ shift else ca).
  set (den := if 0 <=? shift then cb else cb * 10 ^ (- shift)).
  destruct (ndigits_spec ca Ha) as [Halo Hahi].
  destruct (ndigits_spec cb Hb) as [Hblo Hbhi].
  pose proof (ndigits_ge1 ca) as Hda. pose proof (ndigits_ge1 cb) as Hdb.
  (* numerator and denominator *)
  assert (Hden : 0 < den).
  { unfold den. destruct (0 <=? shift) eqn:Hs; [lia|].
    apply Z.leb_gt in Hs. pose proof (pow10_gt0 (- shift) ltac:(lia)). nia. }
  assert (Hnum : 0 < num).
  { unfold num. destruct (0 <=? shift) eqn:Hs; [|lia].
    apply Z.leb_le in Hs. pose proof (pow10_gt0 shift Hs). nia. }
  assert (Hbig : 10 ^ 28 * den <= num).
  { unfold num, den, shift, prec in *.
    destruct (Z.leb_spec 0 (ndigits cb - ndigits ca + 28 + 1)) as [Hs|Hs].
    - set (s := ndigits cb - ndigits ca + 28 + 1) in *.
      assert (H1 : 10 ^ 28 * 10 ^ ndigits cb = 10 ^ (ndigits ca - 1) * 10 ^ s).
      { rewrite <- !Z.pow_add_r by lia. f_equal. unfold s. lia. }
      pose proof (pow10_gt0 s Hs). pose proof (pow10_gt0 28 ltac:(lia)). nia.
    - set (s := ndigits cb - ndigits ca + 28 + 1) in *.
      assert (H1 : 10 ^ 28 * (10 ^ ndigits cb * 10 ^ (- s)) = 10 ^ (ndigits ca - 1)).
      { rewrite <- !Z.pow_add_r by lia. f_equal. unfold s. lia. }
      pose proof (pow10_gt0 (- s) ltac:(lia)). pose proof (pow10_gt0 28 ltac:(lia)). nia. }
  (* the exact quotient, in units of [10 ^ exp] *)
  assert (Hexact : (IZR num * powerRZ 10 exp * value b = IZR den * value a)%R).
  { unfold value. fold ca cb ea eb. unfold num, den, exp.
    destruct (Z.leb_spec 0 shift) as [Hs|Hs].
    - rewrite mult_IZR, p10_IZR by lia.
      replace ea with ((ea - eb - shift) + shift + eb) at 2 by lia.
      rewrite !p10_add. ring.
    - rewrite mult_IZR, p10_IZR by lia.
      replace (ea - eb - shift) with (ea + (- shift) + - eb) by lia.
      rewrite !p10_add.
      assert (Hinv : (powerRZ 10 (- eb) * powerRZ 10 eb = 1)%R).
      { rewrite <- p10_add. replace (- eb + eb) with 0 by lia. reflexivity. }
      transitivity (IZR ca * powerRZ 10 ea * powerRZ 10 (- shift) * IZR cb
                    * (powerRZ 10 (- eb) * powerRZ 10 eb))%R; [ring|].
      rewrite Hinv. ring. }
  pose proof (Z.div_mod num den ltac:(lia)) as Hdm.
  pose proof (Z.mod_pos_bound num den Hden) as Hr.
  set (coeff := num / den) in *. set (remainder := num mod den) in *.
  assert (Hcoeff : 10 ^ 28 <= coeff).
  { apply Z.div_le_lower_bound; [lia|]. lia. }
  pose proof (p10_pos exp) as Hpe.
  assert (Hva : (0 < value a)%R).
  { unfold value. fold ca. apply Rmult_lt_0_compat; [apply IZR_lt; lia|apply p10_pos]. }
  assert (Hvb : (0 < value b)%R).
  { unfold value. fold cb. apply Rmult_lt_0_compat; [apply IZR_lt; lia|apply p10_pos]. }
  (* a coefficient within one unit of the exact quotient *)
  assert (Hgen : forall c, 0 <= c -> Z.abs (c * den - num) <= den ->
            (10 ^ 28 * Rabs (value (mkDecimal c exp) * value b - value a) <= value a)%R).
  { intros c Hc Herr. rewrite value_mk.
    assert (Hden' : (0 < IZR den)%R) by (apply IZR_lt; lia).
    apply (Rmult_le_reg_l (IZR den)); [exact Hden'|].
    rewrite <- (Rabs_right (IZR den)) at 1 by lra.
    replace (Rabs (IZR den) * (10 ^ 28 * Rabs (IZR c * powerRZ 10 exp * value b - value a)))%R
      with (10 ^ 28 * (Rabs (IZR den) * Rabs (IZR c * powerRZ 10 exp * value b - value a)))%R
      by ring.
    rewrite <- Rabs_mult.
    replace (IZR den * (IZR c * powerRZ 10 exp * value b - value a))%R
      with (IZR (c * den - num) * (powerRZ 10 exp * value b))%R.
    2:{ rewrite minus_IZR, mult_IZR.
        transitivity (IZR c * IZR den * powerRZ 10 exp * value b
                      - IZR num * powerRZ 10 exp * value b)%R; [ring|].
        rewrite Hexact. ring. }
    rewrite Rabs_mult, <- abs_IZR.
    rewrite (Rabs_right (powerRZ 10 exp * value b)) by (apply Rle_ge; apply Rmult_le_pos; lra).
    assert (H1 : (IZR (Z.abs (c * den - num)) <= IZR den)%R) by (apply IZR_le; exact Herr).
    assert (H2 : (10 ^ 28 * IZR den <= IZR num)%R).
    { replace (10 ^ 28)%R with (IZR (10 ^ 28)).
      - rewrite <- mult_IZR. apply IZR_le. exact Hbig.
      - change (10 ^ 28) with 10000000000000000000000000000. lra. }
    assert (H3 : (0 <= powerRZ 10 exp * value b)%R) by (apply Rmult_le_pos; lra).
    assert (H4 : (0 <= IZR (Z.abs (c * den - num)))%R) by (apply IZR_le; lia).
    (* |c den - num| * u <= den * u and 10^28 den u <= num u = den * value a *)
    assert (H5 : (IZR num * (powerRZ 10 exp * value b) = IZR den * value a)%R)
      by (rewrite <- Hexact; ring).
    rewrite <- H5. nra. }
  destruct (Z.eqb_spec remainder 0) as [Hrem|Hrem]; cbn [negb].
  - (* exact *)
    destruct (strip_to_ideal (Z.to_nat (ndigits coeff)) coeff exp (ea - eb)) as [c e] eqn:Hstrip.
    destruct (strip_to_ideal_value _ _ _ _ _ _ Hstrip) as [He Hc].
    exists c, e. rewrite Z.mul_1_l.
    assert (Hc0 : 0 <= c).
    { pose proof (pow10_gt0 (e - exp) ltac:(lia)). nia. }
    split; [reflexivity|]. split; [exact Hc0|].
    assert (Hv : value (mkDecimal c e) = value (mkDecimal coeff exp)).
    { rewrite (value_at (mkDecimal c e) exp) by (cbn [d_exp]; lia).
      cbn [d_int d_exp]. rewrite Hc. reflexivity. }
    rewrite Hv. apply Hgen; [lia|]. replace (coeff * den - num) with 0 by lia. cbn. lia.
  - destruct (coeff mod 5 =? 0).
    + exists (coeff + 1), exp. rewrite Z.mul_1_l.
      split; [reflexivity|]. split; [lia|].
      apply Hgen; [lia|]. lia.
    + exists coeff, exp. rewrite Z.mul_1_l.
      split; [reflexivity|]. split; [lia|].
      apply Hgen; [lia|]. lia.
Qed.

Local Open Scope R_scope.

Lemma delta_small : 0 < delta <= / 10 ^ 27.
Proof. destruct delta_bounds as [H1 [_ H3]]. split; assumption. Qed.

Lemma kappa_val : kappa * 10 ^ 20 = 1 /\ 0 < kappa.
Proof.
  unfold kappa. split.
  - apply Rinv_l. lra.
  - apply Rinv_0_lt_compat. lra.
Qed.

Lemma delta_kappa : delta * 10 ^ 7 <= kappa.
Proof.
  destruct delta_small as [_ Hd]. destruct kappa_val as [Hk _].
  assert (H : / 10 ^ 27 * 10 ^ 7 = kappa).
  { unfold kappa. field. }
  rewrite <- H. apply Rmult_le_compat_r; lra.
Qed.

Lemma small_facts : 0 < delta /\ delta <= / 10 ^ 7 * kappa /\ 0 < kappa /\ kappa <= / 10 ^ 20.
Proof.
  destruct delta_small as [H1 H2]. destruct kappa_val as [H3 H4].
  pose proof delta_kappa as H5.
  split; [exact H1|]. split; [|split; [exact H4|unfold kappa; lra]].
  apply (Rmult_le_reg_l (10 ^ 7)); [lra|]. rewrite <- Rmult_assoc.
  replace (10 ^ 7 * / 10 ^ 7) with 1 by field. lra.
Qed.

Lemma hi_le r :
  9 / 100000 <= r <= 1 ->
  acc_hi r <= 1 + r * (1 + kappa).
Proof.
  intros Hr.
  destruct small_facts as [Hd0 [Hdk [Hk0 Hk1]]].
  unfold acc_hi.
  assert (Hd1 : delta <= kappa / 10000000) by lra.
  assert (Hdd : delta * delta <= delta) by nra.
  nra.
Qed.

Lemma lo_ge r r4 :
  9 / 100000 <= r <= 1 ->
  r * (1 - 2 * delta) <= 4 * r4 ->
  1 + r / 4 * (1 - kappa) <= acc_lo r4.
Proof.
  intros Hr Hr4lo.
  destruct small_facts as [Hd0 [Hdk [Hk0 Hk1]]].
  unfold acc_lo.
  assert (Hd1 : delta <= kappa / 10000000) by lra.
  assert (Hdd : 0 <= delta * delta <= delta) by nra.
  assert (Hr4 : r / 4 * (1 - 2 * delta) <= r4) by lra.
  assert (H1 : (1 + r / 4 * (1 - 2 * delta) * (1 - delta)) * (1 - delta)
               <= (1 + r4 * (1 - delta)) * (1 - delta)).
  { apply Rmult_le_compat_r; [lra|]. apply Rplus_le_compat_l.
    apply Rmult_le_compat_r; lra. }
  eapply Rle_trans; [|exact H1].
  replace ((1 + r / 4 * (1 - 2 * delta) * (1 - delta)) * (1 - delta))
    with (1 - delta + r / 4 * ((1 - 2 * delta) * (1 - delta) * (1 - delta))) by ring.
  assert (Hp : 1 - 4 * delta <= (1 - 2 * delta) * (1 - delta) * (1 - delta)).
  { replace ((1 - 2 * delta) * (1 - delta) * (1 - delta))
      with (1 - 4 * delta + 5 * (delta * delta) - 2 * (delta * delta) * delta) by ring.
    assert (0 <= (delta * delta) * delta <= delta * delta) by nra. lra. }
  assert (H2 : r / 4 * (1 - 4 * delta) <= r / 4 * ((1 - 2 * delta) * (1 - delta) * (1 - delta))).
  { apply Rmult_le_compat_l; lra. }
  assert (H3 : r * delta <= delta) by nra.
  assert (H4 : 9 / 100000 * kappa <= r * kappa) by nra.
  lra.
Qed.

Lemma quarter_power r :
  9 / 100000 <= r <= 1 ->
  1 + r * (1 + kappa) <= (1 + r / 4 * (1 - kappa)) ^ 4.
Proof.
  intros Hr.
  destruct small_facts as [Hd0 [Hdk [Hk0 Hk1]]].
  set (x := r / 4 * (1 - kappa)).
  assert (Hx : 0 <= x) by (unfold x; nra).
  assert (H4 : 1 + 4 * x + 6 * (x * x) <= (1 + x) ^ 4).
  { replace ((1 + x) ^ 4) with (1 + 4 * x + 6 * (x * x) + 4 * (x * x * x) + x * x * x * x) by ring.
    assert (0 <= x * x * x) by (apply Rmult_le_pos; [apply Rmult_le_pos|]; assumption).
    assert (0 <= x * x * x * x) by (apply Rmult_le_pos; assumption).
    lra. }
  eapply Rle_trans; [|exact H4].
  unfold x.
  assert (Hk2 : kappa <= 1 / 1000000) by lra.
  nra.
Qed.

(** Yearly against quarterly: one accrual at the annual rate grows less
    than four accruals at the quarterly rate. *)
Lemma hi_le_lo4 r r4 :
  9 / 100000 <= r <= 1 ->
  r * (1 - 2 * delta) <= 4 * r4 ->
  acc_hi r <= acc_lo r4 ^ 4.
Proof.
  intros Hr Hr4lo.
  eapply Rle_trans; [apply hi_le; exact Hr|].
  eapply Rle_trans; [apply quarter_power; exact Hr|].
  destruct small_facts as [Hd0 [Hdk [Hk0 Hk1]]].
  apply pow_incr. split; [nra|apply (lo_ge r r4); assumption].
Qed.

Lemma hi4_le r r4 :
  9 / 100000 <= r <= 1 ->
  r * (1 - 2 * delta) <= 4 * r4 ->
  4 * r4 <= r * (1 + 2 * delta) ->
  acc_hi r4 * (1 + delta) <= 1 + r / 4 * (1 + kappa).
Proof.
  intros Hr Hr4lo Hr4hi.
  destruct small_facts as [Hd0 [Hdk [Hk0 Hk1]]].
  unfold acc_hi.
  assert (Hd1 : delta <= kappa / 10000000) by lra.
  assert (Hr4 : r4 <= r / 4 * (1 + 2 * delta)) by lra.
  assert (Hr40 : 0 <= r4) by nra.
  assert (H1 : (1 + r4 * (1 + delta)) * (1 + delta) * (1 + delta)
               <= (1 + r / 4 * (1 + 2 * delta) * (1 + delta)) * (1 + delta) * (1 + delta)).
  { apply Rmult_le_compat_r; [lra|]. apply Rmult_le_compat_r; [lra|].
    apply Rplus_le_compat_l. apply Rmult_le_compat_r; lra. }
  eapply Rle_trans; [exact H1|].
  assert (Hdd : 0 <= delta * delta <= delta) by nra.
  assert (Hddd : 0 <= delta * delta * delta <= delta) by nra.
  replace ((1 + r / 4 * (1 + 2 * delta) * (1 + delta)) * (1 + delta) * (1 + delta))
    with (1 + 2 * delta + delta * delta
          + r / 4 * (1 + 5 * delta + 9 * (delta * delta) + 7 * (delta * delta * delta)
                     + 2 * (delta * delta * delta) * delta)) by ring.
  assert (Hd4 : 0 <= delta * delta * delta * delta <= delta) by nra.
  nra.
Qed.

Lemma month_lo_ge r r12 :
  9 / 100000 <= r <= 1 ->
  r * (1 - 2 * delta) <= 12 * r12 ->
  1 + r / 12 * (1 - kappa) <= month_lo r12.
Proof.
  intros Hr Hr12lo.
  destruct small_facts as [Hd0 [Hdk [Hk0 Hk1]]].
  unfold month_lo, acc_lo.
  assert (Hd1 : delta <= kappa / 10000000) by lra.
  assert (Hr12 : r / 12 * (1 - 2 * delta) <= r12) by lra.
  assert (H1 : (1 - delta) * ((1 + r / 12 * (1 - 2 * delta) * (1 - delta)) * (1 - delta))
               <= (1 - delta) * ((1 + r12 * (1 - delta)) * (1 - delta))).
  { apply Rmult_le_compat_l; [lra|]. apply Rmult_le_compat_r; [lra|].
    apply Rplus_le_compat_l. apply Rmult_le_compat_r; lra. }
  eapply Rle_trans; [|exact H1].
  assert (Hdd : 0 <= delta * delta <= delta) by nra.
  assert (Hddd : 0 <= delta * delta * delta <= delta) by nra.
  replace ((1 - delta) * ((1 + r / 12 * (1 - 2 * delta) * (1 - delta)) * (1 - delta)))
    with (1 - 2 * delta + delta * delta
          + r / 12 * (1 - 5 * delta + 9 * (delta * delta) - 7 * (delta * delta * delta)
                      + 2 * (delta * delta * delta) * delta)) by ring.
  assert (Hd4 : 0 <= delta * delta * delta * delta <= delta) by nra.
  nra.
Qed.

Lemma month_power r :
  9 / 100000 <= r <= 1 ->
  1 + r / 4 * (1 + kappa) <= (1 + r / 12 * (1 - kappa)) ^ 3.
Proof.
  intros Hr.
  destruct small_facts as [Hd0 [Hdk [Hk0 Hk1]]].
  set (x := r / 12 * (1 - kappa)).
  assert (Hx : 0 <= x) by (unfold x; nra).
  assert (H3 : 1 + 3 * x + 3 * (x * x) <= (1 + x) ^ 3).
  { replace ((1 + x) ^ 3) with (1 + 3 * x + 3 * (x * x) + x * x * x) by ring.
    assert (0 <= x * x * x) by (apply Rmult_le_pos; [apply Rmult_le_pos|]; assumption).
    lra. }
  eapply Rle_trans; [|exact H3].
  unfold x.
  assert (Hk2 : kappa <= 1 / 1000000) by lra.
  nra.
Qed.

(** Quarterly against monthly: four accruals at the quarterly rate and one
    more rounding grow less than twelve monthly periods. *)
Lemma hi4_le_month12 r r4 r12 :
  9 / 100000 <= r <= 1 ->
  r * (1 - 2 * delta) <= 4 * r4 ->
  4 * r4 <= r * (1 + 2 * delta) ->
  r * (1 - 2 * delta) <= 12 * r12 ->
  acc_hi r4 ^ 4 * (1 + delta) <= month_lo r12 ^ 12.
Proof.
  intros Hr Hr4lo Hr4hi Hr12lo.
  destruct small_facts as [Hd0 [Hdk [Hk0 Hk1]]].
  assert (Hr40 : 0 <= r4) by nra.
  assert (Hup0 : 0 <= acc_hi r4).
  { unfold acc_hi. apply Rmult_le_pos; [|lra]. nra. }
  assert (H1 : acc_hi r4 ^ 4 * (1 + delta) <= (acc_hi r4 * (1 + delta)) ^ 4).
  { rewrite Rpow_mult_distr.
    apply Rmult_le_compat_l; [apply pow_le; exact Hup0|].
    replace ((1 + delta) ^ 4) with ((1 + delta) * ((1 + delta) * (1 + delta) * (1 + delta))) by ring.
    rewrite <- (Rmult_1_r (1 + delta)) at 1.
    apply Rmult_le_compat_l; [lra|].
    assert (1 <= (1 + delta) * (1 + delta)) by nra. nra. }
  eapply Rle_trans; [exact H1|].
  replace 12%nat with (3 * 4)%nat by reflexivity. rewrite pow_mult.
  apply pow_incr. split; [apply Rmult_le_pos; lra|].
  eapply Rle_trans; [apply (hi4_le r r4); assumption|].
  eapply Rle_trans; [apply month_power; exact Hr|].
  apply pow_incr. split; [nra|apply (month_lo_ge r r12); assumption].
Qed.

Lemma month_lo_ge_one r r12 :
  9 / 100000 <= r <= 1 ->
  r * (1 - 2 * delta) <= 12 * r12 ->
  (1 + delta) * (1 + delta) <= month_lo r12.
Proof.
  intros Hr Hr12lo.
  destruct small_facts as [Hd0 [Hdk [Hk0 Hk1]]].
  eapply Rle_trans; [|apply (month_lo_ge r r12); assumption].
  assert (Hd1 : delta <= kappa / 10000000) by lra.
  assert (Hk2 : kappa <= 1 / 1000000) by lra.
  nra.
Qed.

Local Close Scope R_scope.

Local Open Scope string_scope.

(** ** Division, relative error *)

Lemma value_pos_iff d : (0 < value d)%R <-> 0 < d_int d.
Proof.
  unfold value. pose proof (p10_pos (d_exp d)) as Hp. split; intros H.
  - apply lt_IZR. nra.
  - apply Rmult_lt_0_compat; [apply IZR_lt; exact H|exact Hp].
Qed.

Lemma div_rel a b q :
  (0 < value a)%R -> (0 < value b)%R -> div a b = Ok q ->
  (value a * (1 - 2 * delta) <= value q * value b <= value a * (1 + 2 * delta))%R.
Proof.
  intros Ha Hb Hq.
  destruct (div_shape a b (proj1 (value_pos_iff a) Ha) (proj1 (value_pos_iff b) Hb))
    as [c [e [Hdiv [Hc Herr]]]].
  rewrite Hdiv in Hq. injection Hq as <-.
  set (W := value (mkDecimal c e)) in *.
  assert (HW : (0 <= W)%R).
  { unfold W. rewrite value_mk. apply Rmult_le_pos; [apply IZR_le; exact Hc|].
    pose proof (p10_pos e). lra. }
  pose proof (fix_rel (mkDecimal c e) HW) as Hfix. fold W in Hfix.
  destruct delta_bounds as [Hd0 [Hd1 Hd2]].
  assert (He : (Rabs (W * value b - value a) * 5 <= value a * delta)%R).
  { apply (Rmult_le_reg_r (2 * 10 ^ 27)); [lra|].
    replace (value a * delta * (2 * 10 ^ 27))%R with (value a * (delta * (2 * 10 ^ 27)))%R by ring.
    rewrite Hd1. lra. }
  assert (Hd3 : (delta <= 1)%R) by lra.
  assert (He' : (Rabs (W * value b - value a) <= value a * delta / 5)%R) by lra.
  apply Rabs_bound in He'.
  nra.
Qed.

(** ** One accrual and one monthly period *)

Lemma accrue_bounds c z :
  (0 <= value c)%R -> (0 <= value z)%R ->
  (0 <= value (add c (mul c z)) /\
   value c * acc_lo (value z) <= value (add c (mul c z)) <= value c * acc_hi (value z))%R.
Proof.
  intros Hc Hz.
  assert (Hcz : (0 <= value c * value z)%R) by (apply Rmult_le_pos; assumption).
  pose proof (mul_rel c z Hcz) as Hm.
  pose proof (mul_nonneg c z Hc Hz) as Hm0.
  pose proof (add_rel c (mul c z) ltac:(lra)) as Ha.
  destruct delta_bounds as [Hd0 [_ Hd2]].
  assert (Hd1 : (delta <= 1)%R) by lra.
  split; [apply add_nonneg; assumption|].
  unfold acc_lo, acc_hi. split.
  - replace (value c * ((1 + value z * (1 - delta)) * (1 - delta)))%R
      with ((value c + value c * value z * (1 - delta)) * (1 - delta))%R by ring.
    eapply Rle_trans; [|apply Ha]. apply Rmult_le_compat_r; lra.
  - replace (value c * ((1 + value z * (1 + delta)) * (1 + delta)))%R
      with ((value c + value c * value z * (1 + delta)) * (1 + delta))%R by ring.
    eapply Rle_trans; [apply Ha|]. apply Rmult_le_compat_r; lra.
Qed.

Lemma acc_hi_nonneg r : (0 <= r)%R -> (0 <= acc_hi r)%R.
Proof.
  intros Hr. destruct delta_bounds as [Hd0 _]. unfold acc_hi.
  apply Rmult_le_pos; [|lra]. nra.
Qed.

Lemma acc_lo_nonneg r : (0 <= r)%R -> (0 <= acc_lo r)%R.
Proof.
  intros Hr. destruct delta_bounds as [Hd0 [_ Hd2]]. unfold acc_lo.
  assert (delta <= 1)%R by lra.
  apply Rmult_le_pos; [|lra]. nra.
Qed.

Lemma accrue_n_bounds n z : forall c,
  (0 <= value c)%R -> (0 <= value z)%R ->
  (0 <= value (accrue_n n z c) /\
   value c * acc_lo (value z) ^ n <= value (accrue_n n z c) <= value c * acc_hi (value z) ^ n)%R.
Proof.
  induction n as [|n IH]; intros c Hc Hz.
  - cbn [accrue_n pow]. split; [exact Hc|]. lra.
  - cbn [accrue_n].
    destruct (accrue_bounds c z Hc Hz) as [H0 [Hlo Hup]].
    destruct (IH _ H0 Hz) as [H0' [Hlo' Hup']].
    pose proof (pow_le _ n (acc_lo_nonneg _ Hz)) as Hl.
    pose proof (pow_le _ n (acc_hi_nonneg _ Hz)) as Hu.
    split; [exact H0'|]. split.
    + eapply Rle_trans; [|exact Hlo'].
      replace (value c * acc_lo (value z) ^ S n)%R
        with (value c * acc_lo (value z) * acc_lo (value z) ^ n)%R by (cbn [pow]; ring).
      apply Rmult_le_compat_r; assumption.
    + eapply Rle_trans; [exact Hup'|].
      replace (value c * acc_hi (value z) ^ S n)%R
        with (value c * acc_hi (value z) * acc_hi (value z) ^ n)%R by (cbn [pow]; ring).
      apply Rmult_le_compat_r; assumption.
Qed.

Lemma month_bounds c mp z :
  (0 <= value c)%R -> (0 <= value mp)%R -> (0 <= value z)%R ->
  (0 <= value (add (add c mp) (mul (add c mp) z)) /\
   (value c + value mp) * month_lo (value z)
   <= value (add (add c mp) (mul (add c mp) z)))%R.
Proof.
  intros Hc Hm Hz.
  pose proof (add_nonneg c mp Hc Hm) as H1.
  pose proof (add_rel c mp ltac:(lra)) as [Ha _].
  destruct (accrue_bounds (add c mp) z H1 Hz) as [H0 [Hlo _]].
  split; [exact H0|].
  eapply Rle_trans; [|exact Hlo].
  unfold month_lo. rewrite <- Rmult_assoc.
  apply Rmult_le_compat_r; [apply acc_lo_nonneg; exact Hz|exact Ha].
Qed.

Lemma gacc_lo_nonneg r : (0 <= r)%R -> (0 <= month_lo r)%R.
Proof.
  intros Hr. destruct delta_bounds as [Hd0 [_ Hd2]]. unfold month_lo.
  assert (delta <= 1)%R by lra.
  apply Rmult_le_pos; [lra|apply acc_lo_nonneg; exact Hr].
Qed.

Lemma contribute_accrue_n_bounds n mp z : forall c,
  (0 <= value c)%R -> (0 <= value mp)%R -> (0 <= value z)%R ->
  (0 <= value (contribute_accrue_n n mp z c) /\
   value c * month_lo (value z) ^ n + value mp * geo_sum (month_lo (value z)) n
   <= value (contribute_accrue_n n mp z c))%R.
Proof.
  induction n as [|n IH]; intros c Hc Hm Hz.
  - cbn [contribute_accrue_n pow geo_sum]. split; [exact Hc|]. lra.
  - cbn [contribute_accrue_n].
    destruct (month_bounds c mp z Hc Hm Hz) as [H0 Hlo].
    destruct (IH _ H0 Hm Hz) as [H0' Hlo'].
    pose proof (pow_le _ n (gacc_lo_nonneg _ Hz)) as Hg.
    split; [exact H0'|].
    eapply Rle_trans; [|exact Hlo'].
    cbn [geo_sum].
    replace (value c * month_lo (value z) ^ S n
             + value mp * (month_lo (value z) ^ S n + geo_sum (month_lo (value z)) n))%R
      with ((value c + value mp) * month_lo (value z) * month_lo (value z) ^ n
            + value mp * geo_sum (month_lo (value z)) n)%R by (cbn [pow]; ring).
    apply Rplus_le_compat_r. apply Rmult_le_compat_r; assumption.
Qed.

Lemma geo_sum_ge g b n :
  (0 <= b)%R -> (1 <= g)%R -> (b <= g)%R -> (INR n * b <= geo_sum g n)%R.
Proof.
  intros Hb Hg Hbg. induction n as [|n IH].
  - cbn. lra.
  - rewrite S_INR. cbn [geo_sum].
    assert (H1 : (g <= g ^ S n)%R).
    { cbn [pow]. rewrite <- (Rmult_1_r g) at 1.
      apply Rmult_le_compat_l; [lra|]. apply pow_R1_Rle. exact Hg. }
    lra.
Qed.

(** ** The current amount of a year, by frequency *)

Lemma accrue_periods_fst n z : forall c i, fst (accrue_periods n z c i) = accrue_n n z c.
Proof.
  induction n as [|n IH]; intros c i; [reflexivity|].
  cbn [accrue_periods accrue_n accrue]. apply IH.
Qed.

Lemma year_current_year_end f n mp z y :
  f = "quarterly" \/ f = "yearly" ->
  ltb (of_Z 0) mp = true ->
  ps_current_amount (year_amounts f n mp z y)
  = add (accrue_n n z (ys_current_amount y)) (mul mp (of_Z 12)).
Proof.
  intros Hf Hmp.
  destruct (quarterly_yearly_not_monthly f Hf) as [Hm Hq].
  unfold year_amounts.
  rewrite period_loop_no_contribution by (rewrite Hm; reflexivity).
  cbn [ps_current_amount ps_year_interest ps_year_contributions ps_total_contributions].
  rewrite <- (accrue_periods_fst n z (ys_current_amount y) (of_Z 0)).
  destruct (accrue_periods n z (ys_current_amount y) (of_Z 0)) as [c i].
  unfold year_end_contribution. rewrite Hq, Hmp. reflexivity.
Qed.

Lemma period_loop_current_monthly n mp z : forall s,
  ltb (of_Z 0) mp = true ->
  ps_current_amount (period_loop n "monthly" mp z s)
  = contribute_accrue_n n mp z (ps_current_amount s).
Proof.
  induction n as [|n IH]; intros s Hmp; [reflexivity|].
  cbn [period_loop contribute_accrue_n]. rewrite IH by exact Hmp.
  unfold period_body. rewrite Hmp.
  change ("monthly" =? "monthly") with true. reflexivity.
Qed.

Lemma year_current_monthly n mp z y :
  ltb (of_Z 0) mp = true ->
  ps_current_amount (year_amounts "monthly" n mp z y)
  = contribute_accrue_n n mp z (ys_current_amount y).
Proof.
  intros Hmp. unfold year_amounts, year_end_contribution.
  change (in_list "monthly" ["quarterly"; "yearly"]) with false. cbn [andb].
  rewrite period_loop_current_monthly by exact Hmp. reflexivity.
Qed.

(** ** One year, frequency against frequency *)

Section Frequencies.

Variables ar r4 r12 mp : Decimal.
Hypothesis Har : (9 / 100000 <= value ar <= 1)%R.
Hypothesis Hr4 : div ar (of_Z 4) = Ok r4.
Hypothesis Hr12 : div ar (of_Z 12) = Ok r12.
Hypothesis Hmp : ltb (of_Z 0) mp = true.

Lemma quarter_rate :
  (value ar * (1 - 2 * delta) <= 4 * value r4 <= value ar * (1 + 2 * delta))%R.
Proof using Har Hr4 Hr12 Hmp.
  pose proof (div_rel ar (of_Z 4) r4 ltac:(lra) ltac:(rewrite value_of_Z; lra) Hr4) as H.
  rewrite value_of_Z in H. lra.
Qed.

Lemma month_rate :
  (value ar * (1 - 2 * delta) <= 12 * value r12 <= value ar * (1 + 2 * delta))%R.
Proof using Har Hr4 Hr12 Hmp.
  pose proof (div_rel ar (of_Z 12) r12 ltac:(lra) ltac:(rewrite value_of_Z; lra) Hr12) as H.
  rewrite value_of_Z in H. lra.
Qed.

Lemma rates_nonneg : (0 <= value ar /\ 0 <= value r4 /\ 0 <= value r12 /\ 0 < value mp)%R.
Proof using Har Hr4 Hr12 Hmp.
  pose proof quarter_rate as H4. pose proof month_rate as H12.
  destruct delta_bounds as [Hd0 [_ Hd2]].
  assert (Hd1 : (delta <= 1 / 4)%R) by lra.
  apply ltb_value in Hmp. rewrite value_of_Z in Hmp.
  repeat split; try lra; nra.
Qed.

Lemma year_yearly_quarterly cy cq :
  (0 <= value cy <= value cq)%R ->
  (0 <= value (add (accrue_n 1 ar cy) (mul mp (of_Z 12)))
   <= value (add (accrue_n 4 r4 cq) (mul mp (of_Z 12))))%R.
Proof using Har Hr4 Hr12 Hmp.
  intros [Hy Hyq].
  destruct rates_nonneg as [Ha0 [H40 [_ Hm0]]].
  destruct (accrue_n_bounds 1 ar cy Hy Ha0) as [Hy0 [_ Hup]].
  destruct (accrue_n_bounds 4 r4 cq ltac:(lra) H40) as [Hq0 [Hlo _]].
  pose proof (mul_nonneg mp (of_Z 12) ltac:(lra) ltac:(rewrite value_of_Z; lra)) as Hc0.
  split; [apply add_nonneg; assumption|].
  apply add_mono; [|lra].
  pose proof (hi_le_lo4 (value ar) (value r4) Har (proj1 quarter_rate)) as Hk.
  pose proof (acc_hi_nonneg _ Ha0) as Hh.
  eapply Rle_trans; [exact Hup|]. eapply Rle_trans; [|exact Hlo].
  rewrite pow_1.
  apply Rle_trans with (value cq * acc_hi (value ar))%R.
  - apply Rmult_le_compat_r; assumption.
  - apply Rmult_le_compat_l; [lra|exact Hk].
Qed.

Lemma year_quarterly_monthly cq cm :
  (0 <= value cq <= value cm)%R ->
  (0 <= value (add (accrue_n 4 r4 cq) (mul mp (of_Z 12)))
   <= value (contribute_accrue_n 12 mp r12 cm))%R.
Proof using Har Hr4 Hr12 Hmp.
  intros [Hq Hqm].
  destruct rates_nonneg as [Ha0 [H40 [H120 Hm0]]].
  destruct (accrue_n_bounds 4 r4 cq Hq H40) as [Hq0 [_ Hup]].
  destruct (contribute_accrue_n_bounds 12 mp r12 cm ltac:(lra) ltac:(lra) H120) as [_ Hlo].
  assert (Hmul0 : (0 <= value mp * value (of_Z 12))%R) by (rewrite value_of_Z; lra).
  pose proof (mul_rel mp (of_Z 12) Hmul0) as [_ Hc]. rewrite value_of_Z in Hc.
  pose proof (mul_nonneg mp (of_Z 12) ltac:(lra) ltac:(rewrite value_of_Z; lra)) as Hc0.
  split; [apply add_nonneg; assumption|].
  pose proof (add_rel (accrue_n 4 r4 cq) (mul mp (of_Z 12)) ltac:(lra)) as [_ Hadd].
  eapply Rle_trans; [exact Hadd|]. eapply Rle_trans; [|exact Hlo].
  destruct delta_bounds as [Hd0 [_ Hd2]].
  pose proof (hi4_le_month12 (value ar) (value r4) (value r12) Har
                (proj1 quarter_rate) (proj2 quarter_rate) (proj1 month_rate)) as Hk.
  pose proof (month_lo_ge_one (value ar) (value r12) Har (proj1 month_rate)) as Hg1.
  assert (Hg : (1 <= month_lo (value r12))%R) by nra.
  pose proof (geo_sum_ge (month_lo (value r12)) ((1 + delta) * (1 + delta)) 12
                ltac:(nra) Hg Hg1) as Hs.
  change (INR 12) with (IZR 12) in Hs || (replace (INR 12) with 12%R in Hs by (cbn; lra)).
  pose proof (pow_le _ 4 (acc_hi_nonneg _ H40)) as Hp4.
  set (h4 := (acc_hi (value r4) ^ 4)%R) in *.
  set (g12 := (month_lo (value r12) ^ 12)%R) in *.
  set (S12 := geo_sum (month_lo (value r12)) 12) in *.
  apply Rle_trans with ((value cq * h4 + value mp * 12 * (1 + delta)) * (1 + delta))%R.
  - apply Rmult_le_compat_r; [lra|]. lra.
  - assert (H1 : (value cq * (h4 * (1 + delta)) <= value cm * g12)%R).
    { apply Rle_trans with (value cm * (h4 * (1 + delta)))%R.
      - apply Rmult_le_compat_r; [apply Rmult_le_pos; lra|lra].
      - apply Rmult_le_compat_l; [lra|exact Hk]. }
    assert (H2 : (value mp * (12 * ((1 + delta) * (1 + delta))) <= value mp * S12)%R).
    { apply Rmult_le_compat_l; lra. }
    lra.
Qed.

(** ** All the years *)

Lemma years_yearly_quarterly k : forall cy ty cq tq,
  (0 <= value cy <= value cq)%R ->
  (0 <= value (fst (amounts_after k "yearly" 1 mp ar cy ty))
   <= value (fst (amounts_after k "quarterly" 4 mp r4 cq tq)))%R.
Proof using Har Hr4 Hr12 Hmp.
  induction k as [|k IH]; intros cy ty cq tq H; [exact H|].
  cbn [amounts_after]. apply IH.
  rewrite !year_current_year_end by (auto; exact Hmp).
  cbn [ys_current_amount]. apply year_yearly_quarterly. exact H.
Qed.

Lemma years_quarterly_monthly k : forall cq tq cm tm,
  (0 <= value cq <= value cm)%R ->
  (0 <= value (fst (amounts_after k "quarterly" 4 mp r4 cq tq))
   <= value (fst (amounts_after k "monthly" 12 mp r12 cm tm)))%R.
Proof using Har Hr4 Hr12 Hmp.
  induction k as [|k IH]; intros cq tq cm tm H; [exact H|].
  cbn [amounts_after]. apply IH.
  rewrite year_current_year_end by (auto; exact Hmp).
  rewrite year_current_monthly by exact Hmp.
  cbn [ys_current_amount]. apply year_quarterly_monthly. exact H.
Qed.

End Frequencies.

(** ** Monotonicity in the frequency (C9) *)

Lemma unrounded_totals_frequency req f F T :
  unrounded_totals (with_frequency req f) = Ok (F, T) ->
  exists ar rpp,
    div (annual_rate req) (of_Z 100) = Ok ar /\
    rate_per_period_of f ar = Ok rpp /\
    F = fst (amounts_after (Z.to_nat (years req)) f (periods_of f)
               (monthly_payment req) rpp (principal req) (principal req)).
Proof.
  unfold unrounded_totals, with_frequency.
  cbn [annual_rate compound_frequency years monthly_payment principal].
  intros H. inv_binds H. injection H as H.
  exists v, v0. repeat split; try assumption.
  rewrite H. reflexivity.
Qed.

Lemma annual_rate_fraction rate ar :
  leb (mkDecimal 1 (-2)) rate = true -> leb rate (of_Z 20) = true ->
  div rate (of_Z 100) = Ok ar ->
  (9 / 100000 <= value ar <= 1)%R.
Proof.
  intros Hlo Hhi Hdiv.
  apply leb_value in Hlo, Hhi. rewrite value_of_Z in Hhi.
  assert (H001 : value (mkDecimal 1 (-2)) = (/ 100)%R).
  { rewrite value_mk. change (powerRZ 10 (-2)) with (/ (10 * (10 * 1)))%R.
    replace (10 * (10 * 1))%R with 100%R by ring. ring. }
  rewrite H001 in Hlo.
  pose proof (div_rel rate (of_Z 100) ar ltac:(lra) ltac:(rewrite value_of_Z; lra) Hdiv) as H.
  rewrite value_of_Z in H.
  destruct delta_bounds as [Hd0 [_ Hd2]].
  assert (Hd1 : (delta <= / 1000)%R).
  { eapply Rle_trans; [exact Hd2|]. apply Rinv_le_contravar; lra. }
  split; nra.
Qed.

(** C9, as stated, fails: with [principal = 1.004999999999999],
    [monthly_payment = 1e-30], [annual_rate = 9.950248756218486e-14] and
    one year, the interest of a month is below half a unit of the 28th
    digit of the amount and is rounded away, the interest of a quarter is
    not: quarterly compounding returns 1.01 and monthly compounding
    returns 1.00. *)
Lemma C9_quarterly_above_monthly :
  exists rq rm,
    valid_request
      (mkRequest (mkDecimal 1004999999999999 (-15)) (mkDecimal 1 (-30))
         (mkDecimal 9950248756218486 (-29)) 1 "quarterly") = true /\
    ltb (of_Z 0) (mkDecimal 1 (-30)) = true /\
    calculate_compound_interest power_one "t"
      (mkRequest (mkDecimal 1004999999999999 (-15)) (mkDecimal 1 (-30))
         (mkDecimal 9950248756218486 (-29)) 1 "quarterly") = Ok rq /\
    calculate_compound_interest power_one "t"
      (mkRequest (mkDecimal 1004999999999999 (-15)) (mkDecimal 1 (-30))
         (mkDecimal 9950248756218486 (-29)) 1 "monthly") = Ok rm /\
    final_amount rq = mkDecimal 101 (-2) /\
    final_amount rm = mkDecimal 100 (-2) /\
    leb (final_amount rq) (final_amount rm) = false.
Proof.
  eexists. eexists.
  split; [vm_compute; reflexivity|].
  split; [vm_compute; reflexivity|].
  split; [vm_compute; reflexivity|].
  split; [vm_compute; reflexivity|].
  split; [vm_compute; reflexivity|].
  split; vm_compute; reflexivity.
Qed.

(** C9 (amended): for every principal > 0, monthly payment > 0 and annual
    rate between the documented minimum of 0.01 % and 20 %, and every
    number of years, when the three calls return, the final amount for
    yearly compounding is at most the one for quarterly compounding, which
    is at most the one for monthly compounding. *)
Theorem C9_frequency_order :
  forall power now req ry rq rm,
    ltb (of_Z 0) (principal req) = true ->
    ltb (of_Z 0) (monthly_payment req) = true ->
    leb (mkDecimal 1 (-2)) (annual_rate req) = true ->
    leb (annual_rate req) (of_Z 20) = true ->
    calculate_compound_interest power now (with_frequency req "yearly") = Ok ry ->
    calculate_compound_interest power now (with_frequency req "quarterly") = Ok rq ->
    calculate_compound_interest power now (with_frequency req "monthly") = Ok rm ->
    leb (final_amount ry) (final_amount rq) = true /\
    leb (final_amount rq) (final_amount rm) = true.
Proof.
  intros power now req ry rq rm Hp Hmp Hlo Hhi Hy Hq Hm.
  destruct (calculate_totals _ _ _ _ Hy) as [Fy [Ty [Huy [HFy _]]]].
  destruct (calculate_totals _ _ _ _ Hq) as [Fq [Tq [Huq [HFq _]]]].
  destruct (calculate_totals _ _ _ _ Hm) as [Fm [Tm [Hum [HFm _]]]].
  destruct (unrounded_totals_frequency _ _ _ _ Huy) as [ar [ry' [Har [Hry ->]]]].
  destruct (unrounded_totals_frequency _ _ _ _ Huq) as [ar' [r4 [Har' [Hr4 ->]]]].
  destruct (unrounded_totals_frequency _ _ _ _ Hum) as [ar'' [r12 [Har'' [Hr12 ->]]]].
  rewrite Har in Har', Har''. injection Har' as <-. injection Har'' as <-.
  change (rate_per_period_of "yearly" ar) with (Ok ar) in Hry. injection Hry as <-.
  change (rate_per_period_of "quarterly" ar) with (div ar (of_Z 4)) in Hr4.
  change (rate_per_period_of "monthly" ar) with (div ar (of_Z 12)) in Hr12.
  change (periods_of "yearly") with 1%nat in HFy.
  change (periods_of "quarterly") with 4%nat in HFq.
  change (periods_of "monthly") with 12%nat in HFm.
  pose proof (annual_rate_fraction _ _ Hlo Hhi Har) as Hrate.
  assert (Hp0 : (0 <= value (principal req) <= value (principal req))%R).
  { apply ltb_value in Hp. rewrite value_of_Z in Hp. lra. }
  set (K := Z.to_nat (years req)) in *.
  pose proof (years_yearly_quarterly ar r4 r12 (monthly_payment req) Hrate Hr4 Hr12 Hmp
                K _ (principal req) _ (principal req) Hp0) as [_ Hyq].
  pose proof (years_quarterly_monthly ar r4 r12 (monthly_payment req) Hrate Hr4 Hr12 Hmp
                K _ (principal req) _ (principal req) Hp0) as [_ Hqm].
  pose proof (quantize2_mono _ _ _ _ Hyq HFy HFq) as H1.
  pose proof (quantize2_mono _ _ _ _ Hqm HFq HFm) as H2.
  pose proof (p10_pos (-2)) as Hp2.
  split; apply leb_value;
    rewrite !value_cents by (eapply quantize2_exp; eassumption);
    apply Rmult_le_compat_r; try lra; apply IZR_le; assumption.
Qed.

Lemma C9_frequency_order_witness :
  exists ry rq rm,
    calculate_compound_interest power_one "t"
      (mkRequest (mkDecimal 10000 (-1)) (mkDecimal 1000 (-1)) (mkDecimal 100 (-1)) 1 "yearly")
    = Ok ry /\
    calculate_compound_interest power_one "t"
      (mkRequest (mkDecimal 10000 (-1)) (mkDecimal 1000 (-1)) (mkDecimal 100 (-1)) 1 "quarterly")
    = Ok rq /\
    calculate_compound_interest power_one "t"
      (mkRequest (mkDecimal 10000 (-1)) (mkDecimal 1000 (-1)) (mkDecimal 100 (-1)) 1 "monthly")
    = Ok rm /\
    leb (final_amount ry) (final_amount rq) = true /\
    leb (final_amount rq) (final_amount rm) = true.
Proof.
  eexists. eexists. eexists.
  split; [vm_compute; reflexivity|].
  split; [vm_compute; reflexivity|].
  split; [vm_compute; reflexivity|].
  apply (C9_frequency_order power_one "t"
    (mkRequest (mkDecimal 10000 (-1)) (mkDecimal 1000 (-1)) (mkDecimal 100 (-1)) 1 "monthly"));
    vm_compute; reflexivity.
Defined.

(** * Further properties of the service

    ** The yearly breakdown (X1, X2) *)

Lemma year_body_shape f n mp rpp yr y y' :
  year_body f n mp rpp yr y = Ok y' ->
  exists b,
    ys_yearly_breakdown y' = (ys_yearly_breakdown y ++ [b])%list /\
    year b = yr /\
    quantize2 (ys_current_amount y) = Ok (start_amount b) /\
    quantize2 (ys_current_amount y') = Ok (end_amount b) /\
    quantize2 (ps_year_contributions (year_amounts f n mp rpp y)) = Ok (contributions b) /\
    quantize2 (ps_year_interest (year_amounts f n mp rpp y)) = Ok (interest b) /\
    ys_current_amount y' = ps_current_amount (year_amounts f n mp rpp y) /\
    ys_total_contributions y' = ps_total_contributions (year_amounts f n mp rpp y).
Proof.
  unfold year_body. intros H. inv_binds H. injection H as <-.
  eexists. cbn [ys_yearly_breakdown ys_current_amount ys_total_contributions
                year start_amount end_amount contributions interest].
  repeat split; try reflexivity; assumption.
Qed.

Lemma year_loop_years k f n mp rpp : forall yr y y',
  year_loop k f n mp rpp yr y = Ok y' ->
  map year (ys_yearly_breakdown y') =
  (map year (ys_yearly_breakdown y) ++ map (fun i => yr + Z.of_nat i) (seq 0 k))%list.
Proof.
  induction k as [|k IH]; intros yr y y' H.
  - injection H as <-. cbn. rewrite app_nil_r. reflexivity.
  - cbn [year_loop] in H. inv_bind H.
    destruct (year_body_shape _ _ _ _ _ _ _ Hm) as [b [Hb [Hyr _]]].
    rewrite (IH _ _ _ H), Hb, map_app. cbn [map seq].
    rewrite <- app_assoc. cbn [app]. rewrite Hyr, Z.add_0_r.
    do 2 f_equal. rewrite <- seq_shift, map_map.
    apply map_ext. intros i. lia.
Qed.

Lemma calculate_loop power now req resp :
  calculate_compound_interest power now req = Ok resp ->
  exists ar rpp y,
    div (annual_rate req) (of_Z 100) = Ok ar /\
    rate_per_period_of (compound_frequency req) ar = Ok rpp /\
    year_loop (Z.to_nat (years req)) (compound_frequency req)
      (periods_of (compound_frequency req)) (monthly_payment req) rpp 1
      (mkYearState (principal req) (principal req) []) = Ok y /\
    yearly_breakdown resp = ys_yearly_breakdown y /\
    quantize2 (ys_current_amount y) = Ok (final_amount resp) /\
    quantize2 (ys_total_contributions y) = Ok (total_contributions resp) /\
    quantize2 (sub (ys_current_amount y) (ys_total_contributions y))
    = Ok (total_interest resp).
Proof.
  unfold calculate_compound_interest. intros H. inv_binds H. injection H as <-.
  cbn [yearly_breakdown final_amount total_contributions total_interest].
  eexists. eexists. eexists. repeat split; eassumption.
Qed.

(** X1.  The yearly breakdown has one entry per year: its length is
    [years] (no entry when [years] is not positive) and its entries are
    numbered 1, 2, ..., [years], in this order. *)
Theorem X1_breakdown_one_entry_per_year :
  forall power now req resp,
    calculate_compound_interest power now req = Ok resp ->
    List.length (yearly_breakdown resp) = Z.to_nat (years req) /\
    map year (yearly_breakdown resp)
    = map Z.of_nat (seq 1 (Z.to_nat (years req))).
Proof.
  intros power now req resp H.
  destruct (calculate_loop _ _ _ _ H) as [ar [rpp [y [_ [_ [Hy [Hb _]]]]]]].
  apply year_loop_years in Hy. cbn [ys_yearly_breakdown map app] in Hy.
  rewrite <- Hb in Hy.
  assert (Hm : map year (yearly_breakdown resp)
               = map Z.of_nat (seq 1 (Z.to_nat (years req)))).
  { rewrite Hy, <- seq_shift, map_map. apply map_ext. intros i. lia. }
  split; [|exact Hm].
  rewrite <- (List.length_map year), Hm, List.length_map, List.length_seq. reflexivity.
Qed.

Lemma X1_breakdown_one_entry_per_year_witness :
  exists resp,
    calculate_compound_interest power_one "t"
      (mkRequest (mkDecimal 10000 (-1)) (mkDecimal 1000 (-1)) (mkDecimal 100 (-1)) 1 "yearly")
    = Ok resp /\
    List.length (yearly_breakdown resp) = 1%nat.
Proof.
  eexists. split; [vm_compute; reflexivity|].
  apply (X1_breakdown_one_entry_per_year power_one "t"
    (mkRequest (mkDecimal 10000 (-1)) (mkDecimal 1000 (-1)) (mkDecimal 100 (-1)) 1 "yearly")).
  vm_compute; reflexivity.
Defined.

Lemma chained_app first l b last :
  chained first l (start_amount b) ->
  end_amount b = last ->
  chained first (l ++ [b])%list last.
Proof.
  revert first. induction l as [|a l IH]; intros first H He; cbn in *.
  - split; [symmetry; exact H | exact He].
  - destruct H as [H1 H2]. split; [exact H1 | apply IH; assumption].
Qed.

Lemma year_loop_chained k f n mp rpp : forall yr y y' q0 qc,
  year_loop k f n mp rpp yr y = Ok y' ->
  quantize2 (ys_current_amount y) = Ok qc ->
  chained q0 (ys_yearly_breakdown y) qc ->
  exists qc',
    quantize2 (ys_current_amount y') = Ok qc' /\
    chained q0 (ys_yearly_breakdown y') qc'.
Proof.
  induction k as [|k IH]; intros yr y y' q0 qc H Hq Hc.
  - injection H as <-. exists qc. split; assumption.
  - cbn [year_loop] in H. inv_bind H.
    destruct (year_body_shape _ _ _ _ _ _ _ Hm) as [b [Hb [_ [Hs [He _]]]]].
    apply (IH _ _ _ q0 (end_amount b) H He).
    rewrite Hb. apply chained_app; [|reflexivity].
    rewrite Hq in Hs. injection Hs as <-. exact Hc.
Qed.

(** X2.  The entries of the breakdown follow one another without a gap:
    the first start amount is the principal rounded to two places, the
    start amount of every later entry is the end amount of the entry
    before it, and the end amount of the last entry is the final amount
    of the response (which is the rounded principal when there is no
    entry). *)
Theorem X2_breakdown_chained :
  forall power now req resp,
    calculate_compound_interest power now req = Ok resp ->
    exists q0,
      quantize2 (principal req) = Ok q0 /\
      chained q0 (yearly_breakdown resp) (final_amount resp).
Proof.
  intros power now req resp H.
  destruct (calculate_loop _ _ _ _ H) as [ar [rpp [y [_ [_ [Hy [Hb [HF _]]]]]]]].
  destruct (Z.to_nat (years req)) as [|k] eqn:Hk.
  - injection Hy as <-. cbn [ys_current_amount ys_yearly_breakdown] in *.
    exists (final_amount resp). split; [exact HF|]. rewrite Hb. reflexivity.
  - pose proof Hy as Hy'. cbn [year_loop] in Hy'. inv_bind Hy'.
    destruct (year_body_shape _ _ _ _ _ _ _ Hm) as [b [_ [_ [Hs _]]]].
    cbn [ys_current_amount] in Hs.
    exists (start_amount b). split; [exact Hs|].
    destruct (year_loop_chained _ _ _ _ _ _ _ _ (start_amount b) (start_amount b) Hy Hs)
      as [qc' [Hq' Hc]]; [reflexivity|].
    rewrite HF in Hq'. injection Hq' as <-. rewrite Hb. exact Hc.
Qed.

Lemma X2_breakdown_chained_witness :
  exists resp q0,
    calculate_compound_interest power_one "t"
      (mkRequest (mkDecimal 10000 (-1)) (mkDecimal 1000 (-1)) (mkDecimal 100 (-1)) 1 "yearly")
    = Ok resp /\
    quantize2 (mkDecimal 10000 (-1)) = Ok q0 /\
    chained q0 (yearly_breakdown resp) (final_amount resp).
Proof.
  eexists.
  assert (H : calculate_compound_interest power_one "t"
      (mkRequest (mkDecimal 10000 (-1)) (mkDecimal 1000 (-1)) (mkDecimal 100 (-1)) 1 "yearly")
    = Ok ?[r]) by (vm_compute; reflexivity).
  destruct (X2_breakdown_chained _ _ _ _ H) as [q0 [Hq Hc]].
  exists q0. split; [exact H|]. split; [exact Hq | exact Hc].
Defined.

(** ** Payments that are not positive, unknown frequencies, no years (X3, X4, X5) *)

(** ** Payments that are not positive, frequencies that are not known *)

Lemma period_loop_ext n f f' mp mp' rpp : forall s,
  (f =? "monthly") && ltb (of_Z 0) mp = false ->
  (f' =? "monthly") && ltb (of_Z 0) mp' = false ->
  period_loop n f mp rpp s = period_loop n f' mp' rpp s.
Proof.
  intros s H H'. revert s.
  induction n as [|n IH]; intros s; [reflexivity|].
  cbn [period_loop]. rewrite <- IH. f_equal.
  unfold period_body. rewrite H, H'. reflexivity.
Qed.

Lemma year_amounts_ext f f' n mp mp' rpp y :
  (f =? "monthly") && ltb (of_Z 0) mp = false ->
  (f' =? "monthly") && ltb (of_Z 0) mp' = false ->
  in_list f ["quarterly"; "yearly"] && ltb (of_Z 0) mp = false ->
  in_list f' ["quarterly"; "yearly"] && ltb (of_Z 0) mp' = false ->
  year_amounts f n mp rpp y = year_amounts f' n mp' rpp y.
Proof.
  intros H1 H1' H2 H2'. unfold year_amounts, year_end_contribution.
  rewrite H2, H2'. apply period_loop_ext; assumption.
Qed.

Lemma year_loop_ext k f f' n mp mp' rpp : forall yr y,
  (f =? "monthly") && ltb (of_Z 0) mp = false ->
  (f' =? "monthly") && ltb (of_Z 0) mp' = false ->
  in_list f ["quarterly"; "yearly"] && ltb (of_Z 0) mp = false ->
  in_list f' ["quarterly"; "yearly"] && ltb (of_Z 0) mp' = false ->
  year_loop k f n mp rpp yr y = year_loop k f' n mp' rpp yr y.
Proof.
  intros yr y H1 H1' H2 H2'. revert yr y.
  induction k as [|k IH]; intros yr y; [reflexivity|].
  cbn [year_loop]. unfold year_body.
  rewrite (year_amounts_ext f f' n mp mp' rpp y H1 H1' H2 H2').
  destruct (year_growth_rate _ _); [|reflexivity]. cbn [bind].
  destruct (quantize2 (ys_current_amount y)); [|reflexivity]. cbn [bind].
  destruct (quantize2 (ps_year_contributions _)); [|reflexivity]. cbn [bind].
  destruct (quantize2 (ps_year_interest _)); [|reflexivity]. cbn [bind].
  destruct (quantize2 (ps_current_amount _)); [|reflexivity]. cbn [bind].
  destruct (quantize2 _); [|reflexivity]. cbn [bind].
  apply IH.
Qed.

Lemma ltb_zero_zero : ltb (of_Z 0) (of_Z 0) = false.
Proof. reflexivity. Qed.

(** X3.  A monthly payment that is not positive is ignored: the call
    returns (or raises) exactly what it does for the same request with the
    monthly payment 0.  A negative payment is never subtracted. *)
Theorem X3_payment_not_positive_ignored :
  forall power now req,
    ltb (of_Z 0) (monthly_payment req) = false ->
    calculate_compound_interest power now req
    = calculate_compound_interest power now (with_monthly_payment req (of_Z 0)).
Proof.
  intros power now req H.
  unfold calculate_compound_interest, with_monthly_payment.
  cbn [principal monthly_payment annual_rate years compound_frequency].
  destruct (div (annual_rate req) (of_Z 100)) as [ar|]; [|reflexivity]. cbn [bind].
  destruct (rate_per_period_of (compound_frequency req) ar) as [rpp|]; [|reflexivity].
  cbn [bind].
  rewrite (year_loop_ext _ (compound_frequency req) (compound_frequency req) _
             (monthly_payment req) (of_Z 0) rpp 1 _);
    rewrite ?H, ?ltb_zero_zero, ?andb_false_r; reflexivity.
Qed.

Lemma unknown_frequency f :
  in_list f allowed_frequencies = false ->
  (f =? "monthly") = false /\ (f =? "quarterly") = false /\
  in_list f ["quarterly"; "yearly"] = false.
Proof.
  unfold in_list, allowed_frequencies. cbn [existsb].
  destruct (f =? "monthly"), (f =? "quarterly"), (f =? "yearly"); cbn; intros H;
    try discriminate; repeat split; reflexivity.
Qed.

(** X4.  A compounding frequency that is none of the three names takes
    the [else] branch of the frequency and neither branch of the
    contributions: the call returns (or raises) exactly what it does for
    yearly compounding of the same principal with the monthly payment 0. *)
Theorem X4_unknown_frequency_as_yearly_without_payments :
  forall power now req,
    in_list (compound_frequency req) allowed_frequencies = false ->
    calculate_compound_interest power now req
    = calculate_compound_interest power now
        (mkRequest (principal req) (of_Z 0) (annual_rate req) (years req) "yearly").
Proof.
  intros power now req H.
  destruct (unknown_frequency _ H) as [Hm [Hq Hqy]].
  unfold calculate_compound_interest.
  cbn [principal monthly_payment annual_rate years compound_frequency].
  destruct (div (annual_rate req) (of_Z 100)) as [ar|]; [|reflexivity]. cbn [bind].
  unfold rate_per_period_of, periods_of. rewrite Hm, Hq.
  change ("yearly" =? "monthly") with false. change ("yearly" =? "quarterly") with false.
  cbn [bind].
  rewrite (year_loop_ext _ (compound_frequency req) "yearly" _
             (monthly_payment req) (of_Z 0) ar 1 _);
    rewrite ?Hm, ?Hqy, ?ltb_zero_zero, ?andb_false_r; reflexivity.
Qed.

Lemma div_nonzero a b : d_int b <> 0 -> exists q, div a b = Ok q.
Proof.
  intros Hb. unfold div.
  destruct (d_int b =? 0)%Z eqn:E; [apply Z.eqb_eq in E; contradiction|].
  destruct (d_int a =? 0)%Z; [eexists; reflexivity|].
  cbv zeta.
  destruct (if negb _ then _ else _) as [c e]. eexists; reflexivity.
Qed.

Lemma rate_per_period_total f ar : exists rpp, rate_per_period_of f ar = Ok rpp.
Proof.
  unfold rate_per_period_of.
  destruct (f =? "monthly"); [apply div_nonzero; discriminate|].
  destruct (f =? "quarterly"); [apply div_nonzero; discriminate|].
  eexists; reflexivity.
Qed.

Lemma sub_self p : sub p p = mkDecimal 0 (d_exp p).
Proof.
  unfold sub, add, neg. cbn [d_int d_exp]. rewrite Z.min_id, Z.sub_diag.
  replace (d_int p * 10 ^ 0 + - d_int p * 10 ^ 0) with 0 by ring.
  reflexivity.
Qed.

(** X5.  When [years] is not positive the loop over the years does not
    run: the response has an empty breakdown, its final amount and its
    total contributions are the principal rounded to two places, its
    interest and its annual return are 0.00; the call raises only when the
    rounding of the principal does. *)
Theorem X5_no_years_no_growth :
  forall power now req,
    (years req <= 0)%Z ->
    calculate_compound_interest power now req
    = (q <- quantize2 (principal req) ;;
       Ok (mkResponse q q (mkDecimal 0 (-2)) (mkDecimal 0 (-2)) [] now)).
Proof.
  intros power now req Hy.
  unfold calculate_compound_interest.
  destruct (div_nonzero (annual_rate req) (of_Z 100)) as [ar ->]; [discriminate|].
  cbn [bind].
  destruct (rate_per_period_total (compound_frequency req) ar) as [rpp ->].
  cbn [bind].
  replace (Z.to_nat (years req)) with 0%nat by lia.
  cbn [year_loop bind ys_current_amount ys_total_contributions ys_yearly_breakdown].
  unfold annual_return_of.
  replace (0 <? years req)%Z with false by (symmetry; apply Z.ltb_ge; exact Hy).
  rewrite andb_false_r. cbn [bind].
  rewrite sub_self.
  destruct (quantize2 (principal req)) as [q|e]; reflexivity.
Qed.

Lemma X3_payment_not_positive_ignored_witness :
  calculate_compound_interest power_one "t"
    (mkRequest (mkDecimal 10000 (-1)) (mkDecimal (-1000) (-1)) (mkDecimal 100 (-1)) 1 "monthly")
  = calculate_compound_interest power_one "t"
      (with_monthly_payment
         (mkRequest (mkDecimal 10000 (-1)) (mkDecimal (-1000) (-1)) (mkDecimal 100 (-1)) 1
            "monthly")
         (of_Z 0)).
Proof.
  apply X3_payment_not_positive_ignored. vm_compute. reflexivity.
Defined.

Lemma X4_unknown_frequency_as_yearly_without_payments_witness :
  calculate_compound_interest power_one "t"
    (mkRequest (mkDecimal 10000 (-1)) (mkDecimal 1000 (-1)) (mkDecimal 100 (-1)) 1 "weekly")
  = calculate_compound_interest power_one "t"
      (mkRequest (mkDecimal 10000 (-1)) (of_Z 0) (mkDecimal 100 (-1)) 1 "yearly").
Proof.
  apply (X4_unknown_frequency_as_yearly_without_payments power_one "t"
    (mkRequest (mkDecimal 10000 (-1)) (mkDecimal 1000 (-1)) (mkDecimal 100 (-1)) 1 "weekly")).
  vm_compute. reflexivity.
Defined.

Lemma X5_no_years_no_growth_witness :
  calculate_compound_interest power_one "t"
    (mkRequest (mkDecimal 10000 (-1)) (mkDecimal 1000 (-1)) (mkDecimal 100 (-1)) 0 "monthly")
  = (q <- quantize2 (mkDecimal 10000 (-1)) ;;
     Ok (mkResponse q q (mkDecimal 0 (-2)) (mkDecimal 0 (-2)) [] "t")).
Proof.
  apply (X5_no_years_no_growth power_one "t"
    (mkRequest (mkDecimal 10000 (-1)) (mkDecimal 1000 (-1)) (mkDecimal 100 (-1)) 0 "monthly")).
  vm_compute. discriminate.
Defined.

(** ** The amounts never fall (X6) *)

Lemma fits_precision_spec d : fits_precision d = true <-> ndigits (Z.abs (d_int d)) <= prec.
Proof. unfold fits_precision. apply Z.leb_le. Qed.

Lemma add_fits a b : fits_precision (add a b) = true.
Proof. apply fits_precision_spec, add_ndigits. Qed.

Lemma add_ge_l c x :
  fits_precision c = true -> (0 <= value x)%R -> (value c <= value (add c x))%R.
Proof.
  intros Hc Hx. apply fits_precision_spec in Hc.
  rewrite add_fix. rewrite <- (fix_small c Hc) at 1.
  apply fix_mono. rewrite value_exact_sum. lra.
Qed.

Lemma mul_mono_l c c' r :
  (0 <= value r)%R -> (value c <= value c')%R -> (value (mul c r) <= value (mul c' r))%R.
Proof.
  intros Hr Hc. rewrite !mul_fix. apply fix_mono. rewrite !value_exact_product.
  apply Rmult_le_compat_r; assumption.
Qed.

Lemma div_nonneg a b q :
  (0 <= value a)%R -> (0 < value b)%R -> div a b = Ok q -> (0 <= value q)%R.
Proof.
  intros Ha Hb H.
  destruct (Req_dec (value a) 0) as [Ha0|Ha0].
  - apply value_zero_iff in Ha0. pose proof (div_zero_l _ _ _ Ha0 H) as Hq.
    apply value_zero_iff in Hq. lra.
  - pose proof (div_rel a b q ltac:(lra) Hb H) as [Hlo _].
    destruct delta_bounds as [Hd0 [_ Hd2]].
    assert (Hd1 : (delta <= / 4)%R).
    { eapply Rle_trans; [exact Hd2|]. apply Rinv_le_contravar; lra. }
    assert (0 < value q * value b)%R by nra.
    destruct (Rle_or_lt 0 (value q)) as [|Hneg]; [assumption|]. nra.
Qed.

Lemma rate_per_period_nonneg rate f ar rpp :
  leb (of_Z 0) rate = true ->
  div rate (of_Z 100) = Ok ar ->
  rate_per_period_of f ar = Ok rpp ->
  (0 <= value rpp)%R.
Proof.
  intros Hr Har Hrpp. apply leb_value in Hr. rewrite value_of_Z in Hr.
  assert (Ha : (0 <= value ar)%R).
  { eapply div_nonneg; [exact Hr| |exact Har]. rewrite value_of_Z. lra. }
  unfold rate_per_period_of in Hrpp.
  destruct (f =? "monthly").
  { eapply div_nonneg; [exact Ha| |exact Hrpp]. rewrite value_of_Z. lra. }
  destruct (f =? "quarterly").
  { eapply div_nonneg; [exact Ha| |exact Hrpp]. rewrite value_of_Z. lra. }
  injection Hrpp as <-. exact Ha.
Qed.

(** *** The amounts never fall *)

Section NotLosing.

Variables (f : string) (mp rpp : Decimal).
Hypothesis Hrpp : (0 <= value rpp)%R.

Lemma ltb_zero_value m : ltb (of_Z 0) m = true -> (0 < value m)%R.
Proof. intros H. apply ltb_value in H. rewrite value_of_Z in H. exact H. Qed.

Lemma period_body_ahead s :
  ahead s ->
  ahead (period_body f mp rpp s) /\
  (value (ps_current_amount s) <= value (ps_current_amount (period_body f mp rpp s)))%R.
Proof using Hrpp.
  intros [[Ht Htc] [Hfit Hi]]. unfold period_body, ahead.
  destruct ((f =? "monthly") && ltb (of_Z 0) mp) eqn:E.
  - apply andb_prop in E. destruct E as [_ E]. apply ltb_zero_value in E.
    cbn [ps_current_amount ps_total_contributions ps_year_interest ps_year_contributions].
    set (c1 := add (ps_current_amount s) mp).
    assert (Hc1 : (value (ps_current_amount s) <= value c1)%R)
      by (apply add_ge_l; [assumption|lra]).
    assert (Hi1 : (0 <= value (mul c1 rpp))%R) by (apply mul_nonneg; lra).
    assert (Hc2 : (value c1 <= value (add c1 (mul c1 rpp)))%R)
      by (apply add_ge_l; [apply add_fits|assumption]).
    assert (Ht1 : (value (add (ps_total_contributions s) mp) <= value c1)%R)
      by (apply add_mono; lra).
    assert (Ht0 : (0 <= value (add (ps_total_contributions s) mp))%R)
      by (apply add_nonneg; lra).
    repeat split; try lra; [apply add_fits | apply add_nonneg; assumption].
  - cbn [ps_current_amount ps_total_contributions ps_year_interest ps_year_contributions].
    assert (Hi1 : (0 <= value (mul (ps_current_amount s) rpp))%R) by (apply mul_nonneg; lra).
    assert (Hc2 : (value (ps_current_amount s)
                   <= value (add (ps_current_amount s) (mul (ps_current_amount s) rpp)))%R)
      by (apply add_ge_l; assumption).
    repeat split; try lra; [apply add_fits | apply add_nonneg; assumption].
Qed.

Lemma period_loop_ahead n : forall s,
  ahead s ->
  ahead (period_loop n f mp rpp s) /\
  (value (ps_current_amount s) <= value (ps_current_amount (period_loop n f mp rpp s)))%R.
Proof using Hrpp.
  induction n as [|n IH]; intros s Hs; cbn [period_loop].
  - split; [assumption|lra].
  - destruct (period_body_ahead s Hs) as [H1 H2].
    destruct (IH _ H1) as [H3 H4]. split; [assumption|lra].
Qed.

Lemma year_end_contribution_ahead s :
  ahead s ->
  ahead (year_end_contribution f mp s) /\
  (value (ps_current_amount s) <= value (ps_current_amount (year_end_contribution f mp s)))%R.
Proof.
  intros [[Ht Htc] [Hfit Hi]]. unfold year_end_contribution, ahead.
  destruct (in_list f ["quarterly"; "yearly"] && ltb (of_Z 0) mp) eqn:E.
  - apply andb_prop in E. destruct E as [_ E]. apply ltb_zero_value in E.
    cbn [ps_current_amount ps_total_contributions ps_year_interest ps_year_contributions].
    assert (Ha : (0 <= value (mul mp (of_Z 12)))%R)
      by (apply mul_nonneg; [lra | rewrite value_of_Z; lra]).
    assert (Hc1 : (value (ps_current_amount s)
                   <= value (add (ps_current_amount s) (mul mp (of_Z 12))))%R)
      by (apply add_ge_l; assumption).
    assert (Ht1 : (value (add (ps_total_contributions s) (mul mp (of_Z 12)))
                   <= value (add (ps_current_amount s) (mul mp (of_Z 12))))%R)
      by (apply add_mono; lra).
    assert (Ht0 : (0 <= value (add (ps_total_contributions s) (mul mp (of_Z 12))))%R)
      by (apply add_nonneg; lra).
    repeat split; try lra. apply add_fits.
  - repeat split; try assumption; lra.
Qed.

Lemma year_amounts_ahead n y :
  (0 <= value (ys_total_contributions y) <= value (ys_current_amount y))%R ->
  fits_precision (ys_current_amount y) = true ->
  ahead (year_amounts f n mp rpp y) /\
  (value (ys_current_amount y) <= value (ps_current_amount (year_amounts f n mp rpp y)))%R.
Proof using Hrpp.
  intros Hy Hfit. unfold year_amounts.
  set (s0 := mkPeriodState _ _ _ _).
  assert (H0 : ahead s0).
  { unfold ahead, s0. cbn [ps_current_amount ps_total_contributions ps_year_interest].
    rewrite value_of_Z. repeat split; try assumption; lra. }
  destruct (period_loop_ahead n s0 H0) as [H1 H2].
  destruct (year_end_contribution_ahead _ H1) as [H3 H4].
  split; [assumption|]. unfold s0 in H2 at 1. cbn [ps_current_amount] in H2. lra.
Qed.

Lemma quantize2_leb a b qa qb :
  (value a <= value b)%R -> quantize2 a = Ok qa -> quantize2 b = Ok qb ->
  leb qa qb = true.
Proof.
  intros Hab Ha Hb. pose proof (quantize2_mono _ _ _ _ Hab Ha Hb) as H.
  pose proof (p10_pos (-2)) as Hp.
  apply leb_value.
  rewrite !value_cents by (eapply quantize2_exp; eassumption).
  apply Rmult_le_compat_r; [lra | apply IZR_le; assumption].
Qed.

Lemma quantize2_nonneg a qa :
  (0 <= value a)%R -> quantize2 a = Ok qa -> leb (of_Z 0) qa = true.
Proof.
  intros Ha Hq.
  assert (H0 : quantize2 (of_Z 0) = Ok (mkDecimal 0 (-2))) by reflexivity.
  assert (Hv : (value (of_Z 0) <= value a)%R) by (rewrite value_of_Z; exact Ha).
  pose proof (quantize2_leb _ _ _ _ Hv H0 Hq) as H.
  apply leb_value in H. apply leb_value.
  rewrite value_of_Z. rewrite value_mk in H. lra.
Qed.

Lemma year_loop_not_losing k n : forall yr y y',
  year_loop k f n mp rpp yr y = Ok y' ->
  (0 <= value (ys_total_contributions y) <= value (ys_current_amount y))%R ->
  fits_precision (ys_current_amount y) = true ->
  Forall entry_not_losing (ys_yearly_breakdown y) ->
  (0 <= value (ys_total_contributions y') <= value (ys_current_amount y'))%R /\
  Forall entry_not_losing (ys_yearly_breakdown y').
Proof using Hrpp.
  induction k as [|k IH]; intros yr y y' H Hy Hfit Hall.
  - injection H as <-. split; assumption.
  - cbn [year_loop] in H. inv_bind H.
    destruct (year_body_shape _ _ _ _ _ _ _ Hm)
      as [b [Hb [_ [Hs [He [_ [Hi [Hc Ht]]]]]]]].
    destruct (year_amounts_ahead n y Hy Hfit) as [[Hah [Hfit' Hyi]] Hge].
    rewrite <- Hc in Hge, Hfit'. rewrite <- Hc, <- Ht in Hah.
    apply (IH _ _ _ H Hah Hfit').
    rewrite Hb. apply Forall_app. split; [assumption|].
    constructor; [|constructor]. split.
    + eapply quantize2_nonneg; eassumption.
    + eapply quantize2_leb; eassumption.
Qed.

End NotLosing.

(** X6.  With a principal that is not negative (and has at most 28
    significant digits) and a rate that is not negative, no money is
    lost: the final amount is at least the total of the contributions, the
    total interest is not negative, and in every entry of the breakdown
    the interest is not negative and the end amount is at least the start
    amount. *)
Theorem X6_never_below_contributions :
  forall power now req resp,
    leb (of_Z 0) (principal req) = true ->
    fits_precision (principal req) = true ->
    leb (of_Z 0) (annual_rate req) = true ->
    calculate_compound_interest power now req = Ok resp ->
    leb (total_contributions resp) (final_amount resp) = true /\
    leb (of_Z 0) (total_interest resp) = true /\
    Forall (fun b => leb (of_Z 0) (interest b) = true /\
                     leb (start_amount b) (end_amount b) = true)
           (yearly_breakdown resp).
Proof.
  intros power now req resp Hp Hfit Hr H.
  destruct (calculate_loop _ _ _ _ H)
    as [ar [rpp [y [Har [Hrpp [Hy [Hb [HF [HT HI]]]]]]]]].
  pose proof (rate_per_period_nonneg _ _ _ _ Hr Har Hrpp) as Hrpp0.
  apply leb_value in Hp. rewrite value_of_Z in Hp.
  destruct (year_loop_not_losing _ _ _ Hrpp0 _ _ _ _ _ Hy) as [Hle Hall];
    cbn [ys_current_amount ys_total_contributions ys_yearly_breakdown];
    [lra | assumption | constructor |].
  split; [eapply quantize2_leb; [|eassumption|eassumption]; lra|].
  split; [|rewrite Hb; exact Hall].
  eapply quantize2_nonneg; [|exact HI].
  rewrite value_sub. apply fix_nonneg. rewrite value_exact_sum, value_neg. lra.
Qed.

Lemma X6_never_below_contributions_witness :
  exists resp,
    calculate_compound_interest power_one "t"
      (mkRequest (mkDecimal 10000 (-1)) (mkDecimal 1000 (-1)) (mkDecimal 100 (-1)) 1 "monthly")
    = Ok resp /\
    leb (total_contributions resp) (final_amount resp) = true.
Proof.
  eexists. split; [vm_compute; reflexivity|].
  apply (X6_never_below_contributions power_one "t"
    (mkRequest (mkDecimal 10000 (-1)) (mkDecimal 1000 (-1)) (mkDecimal 100 (-1)) 1 "monthly"));
    vm_compute; reflexivity.
Defined.

(** ** More capital, larger amounts (X7) *)

Section MoreIsMore.

Variables (f : string) (mp mp' rpp : Decimal).
Hypothesis Hrpp : (0 <= value rpp)%R.
Hypothesis Hmp : (value mp <= value mp')%R.

Lemma payment_guards :
  ltb (of_Z 0) mp = true -> ltb (of_Z 0) mp' = true.
Proof using Hmp.
  intros H. apply ltb_value. apply ltb_value in H. lra.
Qed.

Lemma period_body_behind s s' :
  behind s s' -> behind (period_body f mp rpp s) (period_body f mp' rpp s').
Proof using Hrpp Hmp.
  intros [Hc [Ht [Hfc Hft]]]. unfold period_body, behind.
  destruct (f =? "monthly"); cbn [andb].
  - destruct (ltb (of_Z 0) mp) eqn:E.
    + rewrite (payment_guards E).
      cbn [ps_current_amount ps_total_contributions].
      assert (H1 : (value (add (ps_current_amount s) mp)
                    <= value (add (ps_current_amount s') mp'))%R)
        by (apply add_mono; assumption).
      repeat split; try apply add_fits.
      * apply add_mono; [assumption | apply mul_mono_l; assumption].
      * apply add_mono; assumption.
    + destruct (ltb (of_Z 0) mp') eqn:E'.
      * apply ltb_zero_value in E'.
        cbn [ps_current_amount ps_total_contributions].
        assert (H1 : (value (ps_current_amount s)
                      <= value (add (ps_current_amount s') mp'))%R).
        { eapply Rle_trans; [exact Hc|]. apply add_ge_l; [assumption|lra]. }
        repeat split; try apply add_fits.
        -- apply add_mono; [assumption | apply mul_mono_l; assumption].
        -- eapply Rle_trans; [exact Ht|]. apply add_ge_l; [assumption|lra].
      * cbn [ps_current_amount ps_total_contributions].
        repeat split; try assumption; try apply add_fits.
        apply add_mono; [assumption | apply mul_mono_l; assumption].
  - cbn [ps_current_amount ps_total_contributions].
    repeat split; try assumption; try apply add_fits.
    apply add_mono; [assumption | apply mul_mono_l; assumption].
Qed.


Lemma year_end_contribution_behind s s' :
  behind s s' -> behind (year_end_contribution f mp s) (year_end_contribution f mp' s').
Proof using Hmp.
  intros [Hc [Ht [Hfc Hft]]]. unfold year_end_contribution, behind.
  destruct (in_list f ["quarterly"; "yearly"]); cbn [andb];
    [|repeat split; assumption].
  assert (H12 : (0 <= value (of_Z 12))%R) by (rewrite value_of_Z; lra).
  destruct (ltb (of_Z 0) mp) eqn:E.
  - rewrite (payment_guards E). cbn [ps_current_amount ps_total_contributions].
    repeat split; try apply add_fits;
      (apply add_mono; [assumption | apply mul_mono_l; assumption]).
  - destruct (ltb (of_Z 0) mp') eqn:E'; [|repeat split; assumption].
    apply ltb_zero_value in E'.
    cbn [ps_current_amount ps_total_contributions].
    assert (Ha : (0 <= value (mul mp' (of_Z 12)))%R) by (apply mul_nonneg; lra).
    repeat split; try apply add_fits.
    + eapply Rle_trans; [exact Hc|]. apply add_ge_l; assumption.
    + eapply Rle_trans; [exact Ht|]. apply add_ge_l; assumption.
Qed.


End MoreIsMore.



(** ** The contributions of a year (X8) *)

Lemma period_loop_year_as_total n f mp rpp : forall s,
  period_loop n f mp rpp (year_as_total s) = year_as_total (period_loop n f mp rpp s).
Proof.
  induction n as [|n IH]; intros s; [reflexivity|].
  cbn [period_loop]. rewrite <- IH. f_equal.
  unfold period_body, year_as_total.
  destruct ((f =? "monthly") && ltb (of_Z 0) mp); reflexivity.
Qed.

Lemma year_end_contribution_year_as_total f mp s :
  year_end_contribution f mp (year_as_total s)
  = year_as_total (year_end_contribution f mp s).
Proof.
  unfold year_end_contribution, year_as_total.
  destruct (in_list f ["quarterly"; "yearly"] && ltb (of_Z 0) mp); reflexivity.
Qed.

(** The contributions of a year are accumulated like the total of the
    contributions of a first year on the principal 0. *)
Lemma year_contributions_as_total f n mp rpp y :
  ps_year_contributions (year_amounts f n mp rpp y)
  = ps_total_contributions
      (year_amounts f n mp rpp (mkYearState (ys_current_amount y) (of_Z 0) [])).
Proof.
  unfold year_amounts. cbn [ys_current_amount ys_total_contributions].
  change (mkPeriodState (ys_current_amount y) (of_Z 0) (of_Z 0) (of_Z 0))
    with (year_as_total (mkPeriodState (ys_current_amount y) (of_Z 0) (of_Z 0) (of_Z 0))).
  rewrite period_loop_year_as_total, year_end_contribution_year_as_total.
  cbn [year_as_total ps_total_contributions].
  assert (H : forall t t',
    ps_year_contributions
      (year_end_contribution f mp
         (period_loop n f mp rpp (mkPeriodState (ys_current_amount y) (of_Z 0) t (of_Z 0))))
    = ps_year_contributions
      (year_end_contribution f mp
         (period_loop n f mp rpp (mkPeriodState (ys_current_amount y) (of_Z 0) t' (of_Z 0))))).
  { intros t t'.
    assert (G : forall m s s',
      ps_current_amount s = ps_current_amount s' ->
      ps_year_contributions s = ps_year_contributions s' ->
      ps_current_amount (period_loop m f mp rpp s) = ps_current_amount (period_loop m f mp rpp s') /\
      ps_year_contributions (period_loop m f mp rpp s)
      = ps_year_contributions (period_loop m f mp rpp s')).
    { induction m as [|m IHm]; intros s s' Hc Hyc; [split; assumption|].
      cbn [period_loop]. apply IHm; unfold period_body;
        destruct ((f =? "monthly") && ltb (of_Z 0) mp);
        cbn [ps_current_amount ps_year_contributions]; rewrite ?Hc, ?Hyc; reflexivity. }
    destruct (G n (mkPeriodState (ys_current_amount y) (of_Z 0) t (of_Z 0))
                (mkPeriodState (ys_current_amount y) (of_Z 0) t' (of_Z 0))
                eq_refl eq_refl) as [_ G2].
    unfold year_end_contribution.
    destruct (in_list f ["quarterly"; "yearly"] && ltb (of_Z 0) mp);
      cbn [ps_year_contributions]; rewrite G2; reflexivity. }
  apply H.
Qed.

Lemma year_contributions_exact f rpp mp y :
  in_list f allowed_frequencies = true ->
  leb (of_Z 0) mp = true -> leb mp (of_Z 50000) = true -> -20 <= d_exp mp ->
  value (ps_year_contributions (year_amounts f (periods_of f) mp rpp y))
  = value (twelve_payments mp).
Proof.
  intros Hf Hm0 Hm1 Hem.
  apply leb_value in Hm0, Hm1. rewrite value_of_Z in *.
  set (M := d_int mp * 10 ^ (d_exp mp - -20)).
  assert (HvM : value mp = (IZR M * powerRZ 10 (-20))%R) by (apply value_at; lia).
  assert (H24 : (IZR (5 * 10 ^ 24) * powerRZ 10 (-20) = 50000)%R).
  { rewrite mult_IZR, p10_IZR by lia. rewrite Rmult_assoc, <- p10_add. change (24 + -20) with 4.
    rewrite <- p10_IZR by lia. change (10 ^ 4) with 10000. lra. }
  assert (HM : 0 <= M <= 5 * 10 ^ 24).
  { split.
    - apply (IZR_p10_le 0 M (-20)). rewrite <- HvM. lra.
    - apply (IZR_p10_le M (5 * 10 ^ 24) (-20)). rewrite <- HvM, H24. exact Hm1. }
  rewrite year_contributions_as_total.
  assert (H0 : total_is 0 M 0 (of_Z 0)).
  { unfold total_is. rewrite value_of_Z. cbn. lra. }
  pose proof (year_amounts_total 0 M mp ltac:(lia) HM HvM f rpp (ys_current_amount y)
                (of_Z 0) 0 Hf ltac:(lia) H0) as H.
  unfold total_is in H. rewrite H.
  unfold twelve_payments. rewrite value_mk, mult_IZR.
  replace (0 + (0 + 12) * M) with (12 * M) by ring. rewrite mult_IZR.
  unfold value in HvM. nra.
Qed.

Lemma year_loop_contributions k f rpp mp : forall yr y y',
  in_list f allowed_frequencies = true ->
  leb (of_Z 0) mp = true -> leb mp (of_Z 50000) = true -> -20 <= d_exp mp ->
  year_loop k f (periods_of f) mp rpp yr y = Ok y' ->
  Forall (fun b => quantize2 (twelve_payments mp) = Ok (contributions b))
         (ys_yearly_breakdown y) ->
  Forall (fun b => quantize2 (twelve_payments mp) = Ok (contributions b))
         (ys_yearly_breakdown y').
Proof.
  induction k as [|k IH]; intros yr y y' Hf Hm0 Hm1 Hem H Hall.
  - injection H as <-. exact Hall.
  - cbn [year_loop] in H. inv_bind H.
    destruct (year_body_shape _ _ _ _ _ _ _ Hm) as [b [Hb [_ [_ [_ [Hc _]]]]]].
    apply (IH _ _ _ Hf Hm0 Hm1 Hem H).
    rewrite Hb. apply Forall_app. split; [assumption|].
    constructor; [|constructor].
    rewrite <- Hc. apply quantize2_value_eq. symmetry.
    apply year_contributions_exact; assumption.
Qed.

(** X8.  For each of the three frequencies and a monthly payment between
    0 and 50,000 with at most 20 decimal places, the contributions of
    every entry of the breakdown are twelve monthly payments, rounded to
    two places. *)
Theorem X8_yearly_contributions_twelve_payments :
  forall power now req resp,
    in_list (compound_frequency req) allowed_frequencies = true ->
    leb (of_Z 0) (monthly_payment req) = true ->
    leb (monthly_payment req) (of_Z 50000) = true ->
    (-20 <= d_exp (monthly_payment req))%Z ->
    calculate_compound_interest power now req = Ok resp ->
    Forall (fun b =>
              quantize2 (mkDecimal (12 * d_int (monthly_payment req))
                                   (d_exp (monthly_payment req)))
              = Ok (contributions b))
           (yearly_breakdown resp).
Proof.
  intros power now req resp Hf Hm0 Hm1 Hem H.
  destruct (calculate_loop _ _ _ _ H) as [ar [rpp [y [_ [_ [Hy [Hb _]]]]]]].
  rewrite Hb.
  apply (year_loop_contributions _ _ _ _ _ _ _ Hf Hm0 Hm1 Hem Hy).
  constructor.
Qed.

Lemma X8_yearly_contributions_twelve_payments_witness :
  exists resp,
    calculate_compound_interest power_one "t"
      (mkRequest (mkDecimal 10000 (-1)) (mkDecimal 1000 (-1)) (mkDecimal 100 (-1)) 1 "monthly")
    = Ok resp /\
    Forall (fun b => quantize2 (mkDecimal (12 * 1000) (-1)) = Ok (contributions b))
           (yearly_breakdown resp).
Proof.
  eexists. split; [vm_compute; reflexivity|].
  apply (X8_yearly_contributions_twelve_payments power_one "t"
    (mkRequest (mkDecimal 10000 (-1)) (mkDecimal 1000 (-1)) (mkDecimal 100 (-1)) 1 "monthly"));
    vm_compute; try reflexivity; discriminate.
Defined.

(** ** The ledger of a year (X9) *)


Section YearLedger.

Variables (f : string) (mp rpp c0 : Decimal).
Hypothesis Hrpp : (0 <= value rpp)%R.

Lemma period_body_grows s :
  (0 <= value (ps_current_amount s))%R ->
  fits_precision (ps_current_amount s) = true ->
  (value (ps_current_amount s) <= value (ps_current_amount (period_body f mp rpp s)))%R /\
  fits_precision (ps_current_amount (period_body f mp rpp s)) = true.
Proof using Hrpp.
  intros H0 Hfit. unfold period_body.
  destruct ((f =? "monthly") && ltb (of_Z 0) mp) eqn:E.
  - apply andb_prop in E. destruct E as [_ E]. apply ltb_zero_value in E.
    cbn [ps_current_amount].
    set (c1 := add (ps_current_amount s) mp).
    assert (Hc1 : (value (ps_current_amount s) <= value c1)%R)
      by (apply add_ge_l; [assumption|lra]).
    assert (Hi1 : (0 <= value (mul c1 rpp))%R) by (apply mul_nonneg; lra).
    assert (Hc2 : (value c1 <= value (add c1 (mul c1 rpp)))%R)
      by (apply add_ge_l; [apply add_fits|assumption]).
    split; [lra | apply add_fits].
  - cbn [ps_current_amount].
    assert (Hi1 : (0 <= value (mul (ps_current_amount s) rpp))%R) by (apply mul_nonneg; lra).
    split; [apply add_ge_l; assumption | apply add_fits].
Qed.

Lemma period_loop_grows n : forall s,
  (0 <= value (ps_current_amount s))%R ->
  fits_precision (ps_current_amount s) = true ->
  (value (ps_current_amount s) <= value (ps_current_amount (period_loop n f mp rpp s)))%R /\
  fits_precision (ps_current_amount (period_loop n f mp rpp s)) = true.
Proof using Hrpp.
  induction n as [|n IH]; intros s H0 Hfit; cbn [period_loop].
  - split; [lra|assumption].
  - destruct (period_body_grows s H0 Hfit) as [H1 H2].
    assert (H0' : (0 <= value (ps_current_amount (period_body f mp rpp s)))%R) by lra.
    destruct (IH _ H0' H2) as [H3 H4]. split; [lra|assumption].
Qed.





End YearLedger.







(** ** A longer term (X27, X28) *)

Lemma year_loop_app k1 k2 f n mp rpp : forall yr y,
  year_loop (k1 + k2) f n mp rpp yr y =
  (y1 <- year_loop k1 f n mp rpp yr y ;;
   year_loop k2 f n mp rpp (yr + Z.of_nat k1) y1).
Proof.
  induction k1 as [|k1 IH]; intros yr y.
  - cbn [Nat.add year_loop bind]. rewrite Z.add_0_r. reflexivity.
  - cbn [Nat.add year_loop].
    destruct (year_body f n mp rpp yr y) as [y0|e]; cbn [bind]; [|reflexivity].
    rewrite IH. replace (yr + 1 + Z.of_nat k1) with (yr + Z.of_nat (S k1)) by lia.
    reflexivity.
Qed.

Lemma year_loop_extends k f n mp rpp : forall yr y y',
  year_loop k f n mp rpp yr y = Ok y' ->
  exists l, ys_yearly_breakdown y' = (ys_yearly_breakdown y ++ l)%list /\
            List.length l = k.
Proof.
  induction k as [|k IH]; intros yr y y' H; cbn [year_loop] in H.
  - injection H as <-. exists []. rewrite app_nil_r. split; reflexivity.
  - inv_bind H. destruct (year_body_shape _ _ _ _ _ _ _ Hm) as [b [Hb _]].
    destruct (IH _ _ _ H) as [l [Hl Hk]]. exists (b :: l).
    rewrite Hl, Hb, <- app_assoc. cbn [app List.length]. rewrite Hk. split; reflexivity.
Qed.

Lemma chained_split first l1 : forall l2 mid last,
  chained first l1 mid -> chained first (l1 ++ l2)%list last -> chained mid l2 last.
Proof.
  revert first. induction l1 as [|b l1 IH]; intros first l2 mid last H1 H2; cbn in *.
  - subst mid. exact H2.
  - destruct H1 as [_ H1], H2 as [_ H2]. exact (IH _ _ _ _ H1 H2).
Qed.

Lemma chained_not_losing l : forall first last,
  chained first l last -> Forall entry_not_losing l ->
  (value first <= value last)%R.
Proof.
  induction l as [|b l IH]; intros first last H Hall; cbn in H.
  - subst last. lra.
  - destruct H as [Hs H]. inversion Hall as [|? ? [_ Hb] Hl]; subst.
    apply leb_value in Hb. specialize (IH _ _ H Hl). lra.
Qed.

Lemma years_split power now req years' resp resp' :
  years req <= years' ->
  calculate_compound_interest power now req = Ok resp ->
  calculate_compound_interest power now (with_years req years') = Ok resp' ->
  exists ar rpp y y',
    div (annual_rate req) (of_Z 100) = Ok ar /\
    rate_per_period_of (compound_frequency req) ar = Ok rpp /\
    year_loop (Z.to_nat (years req)) (compound_frequency req)
      (periods_of (compound_frequency req)) (monthly_payment req) rpp 1
      (mkYearState (principal req) (principal req) []) = Ok y /\
    year_loop (Z.to_nat years' - Z.to_nat (years req)) (compound_frequency req)
      (periods_of (compound_frequency req)) (monthly_payment req) rpp
      (1 + Z.of_nat (Z.to_nat (years req))) y = Ok y' /\
    year_loop (Z.to_nat years') (compound_frequency req)
      (periods_of (compound_frequency req)) (monthly_payment req) rpp 1
      (mkYearState (principal req) (principal req) []) = Ok y' /\
    yearly_breakdown resp = ys_yearly_breakdown y /\
    yearly_breakdown resp' = ys_yearly_breakdown y' /\
    quantize2 (ys_current_amount y) = Ok (final_amount resp) /\
    quantize2 (ys_current_amount y') = Ok (final_amount resp').
Proof.
  intros Hle H H'.
  destruct (calculate_loop _ _ _ _ H) as [ar [rpp [y [Har [Hrpp [Hy [Hb [HF _]]]]]]]].
  destruct (calculate_loop _ _ _ _ H') as [ar' [rpp' [y' [Har' [Hrpp' [Hy' [Hb' [HF' _]]]]]]]].
  cbn [with_years principal monthly_payment annual_rate years compound_frequency] in *.
  rewrite Har in Har'. injection Har' as <-.
  rewrite Hrpp in Hrpp'. injection Hrpp' as <-.
  exists ar, rpp, y, y'.
  pose proof Hy' as Hsplit.
  replace (Z.to_nat years')
    with (Z.to_nat (years req) + (Z.to_nat years' - Z.to_nat (years req)))%nat
    in Hsplit by lia.
  rewrite year_loop_app, Hy in Hsplit. cbn [bind] in Hsplit.
  repeat split; assumption.
Qed.

(** X27.  The breakdown of a calculation is the beginning of the breakdown
    of the same calculation over more years: when both calculations
    return, the entries of the shorter one are the first entries of the
    longer one. *)
Theorem X27_breakdown_prefix_of_longer_term :
  forall power now req years' resp resp',
    years req <= years' ->
    calculate_compound_interest power now req = Ok resp ->
    calculate_compound_interest power now (with_years req years') = Ok resp' ->
    yearly_breakdown resp = firstn (Z.to_nat (years req)) (yearly_breakdown resp').
Proof.
  intros power now req years' resp resp' Hle H H'.
  destruct (years_split _ _ _ _ _ _ Hle H H')
    as [ar [rpp [y [y' [_ [_ [Hy [Hrest [_ [Hb [Hb' _]]]]]]]]]]].
  destruct (year_loop_extends _ _ _ _ _ _ _ _ Hy) as [l [Hl Hk]].
  destruct (year_loop_extends _ _ _ _ _ _ _ _ Hrest) as [l' [Hl' _]].
  cbn [ys_yearly_breakdown app] in Hl.
  rewrite Hb, Hb', Hl', Hl. rewrite <- Hk at 1.
  rewrite firstn_app, firstn_all, Nat.sub_diag. cbn [firstn]. rewrite app_nil_r.
  reflexivity.
Qed.

Lemma X27_breakdown_prefix_of_longer_term_witness :
  exists resp resp',
    calculate_compound_interest power_example "t"
      (mkRequest (mkDecimal 10000 (-1)) (mkDecimal 1000 (-1)) (mkDecimal 100 (-1)) 1 "yearly")
    = Ok resp /\
    calculate_compound_interest power_example "t"
      (mkRequest (mkDecimal 10000 (-1)) (mkDecimal 1000 (-1)) (mkDecimal 100 (-1)) 2 "yearly")
    = Ok resp' /\
    yearly_breakdown resp = firstn 1 (yearly_breakdown resp').
Proof.
  do 2 eexists. split; [vm_compute; reflexivity|]. split; [vm_compute; reflexivity|].
  apply (X27_breakdown_prefix_of_longer_term power_example "t"
    (mkRequest (mkDecimal 10000 (-1)) (mkDecimal 1000 (-1)) (mkDecimal 100 (-1)) 1 "yearly")
    2).
  - cbn. lia.
  - vm_compute; reflexivity.
  - vm_compute; reflexivity.
Defined.

Lemma calculate_chained power now req resp :
  calculate_compound_interest power now req = Ok resp ->
  exists q0,
    quantize2 (principal req) = Ok q0 /\
    chained q0 (yearly_breakdown resp) (final_amount resp).
Proof.
  intros H.
  destruct (calculate_loop _ _ _ _ H) as [ar [rpp [y [_ [_ [Hy [Hb [HF _]]]]]]]].
  destruct (Z.to_nat (years req)) as [|k] eqn:Hk.
  - injection Hy as <-. cbn [ys_current_amount ys_yearly_breakdown] in *.
    exists (final_amount resp). split; [exact HF|]. rewrite Hb. reflexivity.
  - pose proof Hy as Hy'. cbn [year_loop] in Hy'. inv_bind Hy'.
    destruct (year_body_shape _ _ _ _ _ _ _ Hm) as [b [_ [_ [Hs _]]]].
    cbn [ys_current_amount] in Hs.
    exists (start_amount b). split; [exact Hs|].
    destruct (year_loop_chained _ _ _ _ _ _ _ _ (start_amount b) (start_amount b) Hy Hs)
      as [qc' [Hq' Hc]]; [reflexivity|].
    rewrite HF in Hq'. injection Hq' as <-. rewrite Hb. exact Hc.
Qed.

(** X28.  More years give no smaller final amount: for a principal that is
    not negative and has at most 28 digits and a rate that is not
    negative, when the calculation returns for [years] and for a longer
    term, the final amount of the longer term is at least that of the
    shorter one. *)
Theorem X28_longer_term_no_smaller_final_amount :
  forall power now req years' resp resp',
    leb (of_Z 0) (principal req) = true ->
    fits_precision (principal req) = true ->
    leb (of_Z 0) (annual_rate req) = true ->
    years req <= years' ->
    calculate_compound_interest power now req = Ok resp ->
    calculate_compound_interest power now (with_years req years') = Ok resp' ->
    leb (final_amount resp) (final_amount resp') = true.
Proof.
  intros power now req years' resp resp' Hp Hfit Hr Hle H H'.
  destruct (years_split _ _ _ _ _ _ Hle H H')
    as [ar [rpp [y [y' [Har [Hrpp [Hy [Hrest [Hy' [Hb [Hb' _]]]]]]]]]]].
  destruct (calculate_chained _ _ _ _ H) as [q0 [Hq0 Hc]].
  destruct (calculate_chained _ _ _ _ H') as [q0' [Hq0' Hc']].
  cbn [with_years principal] in Hq0'. rewrite Hq0 in Hq0'. injection Hq0' as <-.
  destruct (year_loop_extends _ _ _ _ _ _ _ _ Hrest) as [l' [Hl' _]].
  pose proof (rate_per_period_nonneg _ _ _ _ Hr Har Hrpp) as Hrpp0.
  apply leb_value in Hp. rewrite value_of_Z in Hp.
  destruct (year_loop_not_losing _ _ _ Hrpp0 _ _ _ _ _ Hy') as [_ Hall];
    cbn [ys_current_amount ys_total_contributions ys_yearly_breakdown];
    [lra | assumption | constructor |].
  rewrite Hl' in Hall. apply Forall_app in Hall. destruct Hall as [_ Hall].
  rewrite Hb', Hl', <- Hb in Hc'.
  apply leb_value.
  exact (chained_not_losing _ _ _ (chained_split _ _ _ _ _ Hc Hc') Hall).
Qed.

Lemma X28_longer_term_no_smaller_final_amount_witness :
  exists resp resp',
    calculate_compound_interest power_example "t"
      (mkRequest (mkDecimal 10000 (-1)) (mkDecimal 1000 (-1)) (mkDecimal 100 (-1)) 1 "yearly")
    = Ok resp /\
    calculate_compound_interest power_example "t"
      (mkRequest (mkDecimal 10000 (-1)) (mkDecimal 1000 (-1)) (mkDecimal 100 (-1)) 2 "yearly")
    = Ok resp' /\
    leb (final_amount resp) (final_amount resp') = true.
Proof.
  do 2 eexists. split; [vm_compute; reflexivity|]. split; [vm_compute; reflexivity|].
  apply (X28_longer_term_no_smaller_final_amount power_example "t"
    (mkRequest (mkDecimal 10000 (-1)) (mkDecimal 1000 (-1)) (mkDecimal 100 (-1)) 1 "yearly")
    2).
  - vm_compute; reflexivity.
  - vm_compute; reflexivity.
  - vm_compute; reflexivity.
  - cbn. lia.
  - vm_compute; reflexivity.
  - vm_compute; reflexivity.
Defined.

(** ** A higher rate (X29) *)

(** ** Rounding between two neighbours of 28 digits *)

Lemma fix_mag_below h m c :
  10 ^ 27 <= h < 10 ^ 28 -> 1 <= m ->
  h * 10 ^ m < c < h * 10 ^ m + 5 * 10 ^ (m - 1) ->
  fix_mag c = h * 10 ^ m.
Proof.
  intros Hh Hm Hc.
  pose proof (pow10_gt0 (m - 1) ltac:(lia)) as HP.
  assert (E10 : 10 ^ m = 10 * 10 ^ (m - 1)).
  { replace m with ((m - 1) + 1) at 1 by lia. apply pow10_succ. lia. }
  assert (Hnd : ndigits c = 28 + m).
  { apply ndigits_unique; [|lia].
    replace (28 + m - 1) with (27 + m) by lia.
    rewrite !Z.pow_add_r by lia. nia. }
  unfold fix_mag. rewrite Hnd. unfold prec.
  destruct (Z.leb_spec (28 + m) 28) as [H|_]; [lia|].
  replace (28 + m - 28) with m by lia.
  f_equal. unfold round_half_even.
  assert (Hq : c / 10 ^ m = h)
    by (symmetry; apply Z.div_unique with (r := c - h * 10 ^ m); lia).
  assert (Hr : c mod 10 ^ m = c - h * 10 ^ m)
    by (symmetry; apply Z.mod_unique with (q := h); lia).
  rewrite Hq, Hr.
  destruct (Z.ltb_spec (10 ^ m) (2 * (c - h * 10 ^ m))) as [H|_]; [lia|].
  destruct (Z.eqb_spec (2 * (c - h * 10 ^ m)) (10 ^ m)) as [H|_]; [lia|].
  reflexivity.
Qed.

Lemma fix_mag_above h m c :
  10 ^ 27 <= h < 10 ^ 28 -> 1 <= m ->
  h * 10 ^ m + 5 * 10 ^ (m - 1) < c < (h + 1) * 10 ^ m ->
  fix_mag c = (h + 1) * 10 ^ m.
Proof.
  intros Hh Hm Hc.
  pose proof (pow10_gt0 (m - 1) ltac:(lia)) as HP.
  assert (E10 : 10 ^ m = 10 * 10 ^ (m - 1)).
  { replace m with ((m - 1) + 1) at 1 by lia. apply pow10_succ. lia. }
  assert (Hnd : ndigits c = 28 + m).
  { apply ndigits_unique; [|lia].
    replace (28 + m - 1) with (27 + m) by lia.
    rewrite !Z.pow_add_r by lia. nia. }
  unfold fix_mag. rewrite Hnd. unfold prec.
  destruct (Z.leb_spec (28 + m) 28) as [H|_]; [lia|].
  replace (28 + m - 28) with m by lia.
  f_equal. unfold round_half_even.
  assert (Hq : c / 10 ^ m = h)
    by (symmetry; apply Z.div_unique with (r := c - h * 10 ^ m); lia).
  assert (Hr : c mod 10 ^ m = c - h * 10 ^ m)
    by (symmetry; apply Z.mod_unique with (q := h); lia).
  rewrite Hq, Hr.
  destruct (Z.ltb_spec (10 ^ m) (2 * (c - h * 10 ^ m))) as [_|H]; [|lia].
  reflexivity.
Qed.

(** The coefficient of [d] at the exponent [min (d_exp d) e]. *)
Lemma value_aligned d e :
  exists c j, 0 <= j /\
    value d = (IZR c * powerRZ 10 (e - j))%R /\
    value (fix_ d) = (IZR (Z.sgn c * fix_mag (Z.abs c)) * powerRZ 10 (e - j))%R.
Proof.
  set (f := Z.min (d_exp d) e).
  exists (d_int d * 10 ^ (d_exp d - f)), (e - f).
  replace (e - (e - f)) with f by lia.
  assert (Hv : value d = value (mkDecimal (d_int d * 10 ^ (d_exp d - f)) f))
    by (rewrite value_mk; apply value_at; unfold f; lia).
  split; [unfold f; lia|]. split; [exact Hv|].
  rewrite (fix_value_eq _ _ Hv), value_fix. reflexivity.
Qed.

Lemma IZR_scaled n e j :
  0 <= j -> (IZR n * powerRZ 10 e = IZR (n * 10 ^ j) * powerRZ 10 (e - j))%R.
Proof.
  intros Hj. rewrite mult_IZR, p10_IZR by lia.
  rewrite (p10_sub e (e - j)). replace (e - (e - j)) with j by lia. ring.
Qed.

Lemma fix_between_low h m e n1 n2 d :
  10 ^ 27 <= h < 10 ^ 28 -> 1 <= m ->
  h * 10 ^ m <= n1 -> n2 <= h * 10 ^ m + 5 * 10 ^ (m - 1) ->
  (IZR n1 * powerRZ 10 e < value d < IZR n2 * powerRZ 10 e)%R ->
  value (fix_ d) = (IZR (h * 10 ^ m) * powerRZ 10 e)%R.
Proof.
  intros Hh Hm H1 H2 [Hlo Hhi].
  destruct (value_aligned d e) as [c [j [Hj [Hv Hf]]]].
  rewrite Hv, (IZR_scaled n1 e j Hj) in Hlo. apply IZR_p10_lt in Hlo.
  rewrite Hv, (IZR_scaled n2 e j Hj) in Hhi. apply IZR_p10_lt in Hhi.
  pose proof (pow10_gt0 j Hj) as HJ.
  pose proof (pow10_gt0 m ltac:(lia)) as HM.
  pose proof (pow10_gt0 (m - 1) ltac:(lia)) as HM1.
  assert (Hc : h * 10 ^ (m + j) < c < h * 10 ^ (m + j) + 5 * 10 ^ (m + j - 1)).
  { replace (m + j - 1) with ((m - 1) + j) by lia.
    rewrite !Z.pow_add_r by lia. nia. }
  assert (Hpos : 0 < c) by (pose proof (pow10_gt0 (m + j) ltac:(lia)); nia).
  rewrite Hf, (Z.abs_eq c), (Z.sgn_pos c), Z.mul_1_l by lia.
  rewrite (fix_mag_below h (m + j) c Hh ltac:(lia) Hc).
  rewrite (IZR_scaled (h * 10 ^ m) e j Hj).
  rewrite Z.pow_add_r by lia. do 2 f_equal. ring.
Qed.

Lemma fix_between_high h m e n1 n2 d :
  10 ^ 27 <= h < 10 ^ 28 -> 1 <= m ->
  h * 10 ^ m + 5 * 10 ^ (m - 1) <= n1 -> n2 <= (h + 1) * 10 ^ m ->
  (IZR n1 * powerRZ 10 e < value d < IZR n2 * powerRZ 10 e)%R ->
  value (fix_ d) = (IZR ((h + 1) * 10 ^ m) * powerRZ 10 e)%R.
Proof.
  intros Hh Hm H1 H2 [Hlo Hhi].
  destruct (value_aligned d e) as [c [j [Hj [Hv Hf]]]].
  rewrite Hv, (IZR_scaled n1 e j Hj) in Hlo. apply IZR_p10_lt in Hlo.
  rewrite Hv, (IZR_scaled n2 e j Hj) in Hhi. apply IZR_p10_lt in Hhi.
  pose proof (pow10_gt0 j Hj) as HJ.
  pose proof (pow10_gt0 m ltac:(lia)) as HM.
  pose proof (pow10_gt0 (m - 1) ltac:(lia)) as HM1.
  assert (Hc : h * 10 ^ (m + j) + 5 * 10 ^ (m + j - 1) < c < (h + 1) * 10 ^ (m + j)).
  { replace (m + j - 1) with ((m - 1) + j) by lia.
    rewrite !Z.pow_add_r by lia. nia. }
  assert (Hpos : 0 < c) by (pose proof (pow10_gt0 (m + j) ltac:(lia)); nia).
  rewrite Hf, (Z.abs_eq c), (Z.sgn_pos c), Z.mul_1_l by lia.
  rewrite (fix_mag_above h (m + j) c Hh ltac:(lia) Hc).
  rewrite (IZR_scaled ((h + 1) * 10 ^ m) e j Hj).
  rewrite Z.pow_add_r by lia. do 2 f_equal. ring.
Qed.

(** ** The sticky digit of the division

    Between two neighbours [n] and [n + 1] of at least 29 digits, every
    decimal rounds to the same 28 digits as [sticky n]. *)
Lemma sticky_round n e d :
  10 ^ 28 <= n ->
  (IZR n * powerRZ 10 e < value d < IZR (n + 1) * powerRZ 10 e)%R ->
  value (fix_ d) = value (fix_ (mkDecimal (sticky n) e)).
Proof.
  intros Hn Hd.
  assert (Hn0 : 0 < n) by (pose proof (pow10_gt0 28 ltac:(lia)); lia).
  destruct (ndigits_spec n Hn0) as [Hlo Hhi].
  set (m := ndigits n - 28).
  assert (Hm : 1 <= m).
  { unfold m. assert (28 < ndigits n); [|lia].
    apply pow10_lt_inv; [pose proof (ndigits_ge1 n); lia|]. lia. }
  pose proof (pow10_gt0 (m - 1) ltac:(lia)) as HP.
  assert (E10 : 10 ^ m = 10 * 10 ^ (m - 1)).
  { replace m with ((m - 1) + 1) at 1 by lia. apply pow10_succ. lia. }
  set (P := 10 ^ (m - 1)) in *.
  set (h := n / 10 ^ m).
  pose proof (Z.div_mod n (10 ^ m) ltac:(lia)) as Hdm.
  pose proof (Z.mod_pos_bound n (10 ^ m) ltac:(lia)) as Hr.
  fold h in Hdm.
  assert (Hh : 10 ^ 27 <= h < 10 ^ 28).
  { replace (ndigits n - 1) with (27 + m) in Hlo by (unfold m; lia).
    replace (ndigits n) with (28 + m) in Hhi by (unfold m; lia).
    rewrite Z.pow_add_r in Hlo, Hhi by lia.
    split.
    - apply Z.div_le_lower_bound; lia.
    - apply Z.div_lt_upper_bound; lia. }
  (* the sticky coefficient is strictly inside a half of the cell *)
  assert (Hs : n <= sticky n <= n + 1 /\ sticky n mod 5 <> 0).
  { unfold sticky. destruct (Z.eqb_spec (n mod 5) 0) as [H5|H5].
    - split; [lia|]. rewrite <- Zplus_mod_idemp_l, H5. cbn. lia.
    - split; [lia | exact H5]. }
  destruct Hs as [Hs Hs5].
  assert (Hgrid : forall x, (5 * x) mod 5 = 0).
  { intros x. rewrite Z.mul_comm. apply Z_mod_mult. }
  assert (HsL : sticky n <> h * 10 ^ m).
  { intros E. apply Hs5. rewrite E, E10.
    replace (h * (10 * P)) with (5 * (2 * h * P)) by ring. apply Hgrid. }
  assert (HsM : sticky n <> h * 10 ^ m + 5 * P).
  { intros E. apply Hs5. rewrite E, E10.
    replace (h * (10 * P) + 5 * P) with (5 * (2 * h * P + P)) by ring. apply Hgrid. }
  assert (HsU : sticky n <> (h + 1) * 10 ^ m).
  { intros E. apply Hs5. rewrite E, E10.
    replace ((h + 1) * (10 * P)) with (5 * (2 * (h + 1) * P)) by ring. apply Hgrid. }
  assert (Hself : forall c : Z,
            (IZR (c - 1) * powerRZ 10 e < value (mkDecimal c e)
             < IZR (c + 1) * powerRZ 10 e)%R).
  { intros c. rewrite value_mk. split; apply IZR_p10_lt; lia. }
  destruct (Z.le_gt_cases (n + 1) (h * 10 ^ m + 5 * P)) as [Hcase|Hcase].
  - rewrite (fix_between_low h m e n (n + 1) d Hh Hm); [|lia|exact Hcase|exact Hd].
    symmetry.
    apply (fix_between_low h m e (sticky n - 1) (sticky n + 1)); try assumption;
      [lia | fold P; lia | apply Hself].
  - rewrite (fix_between_high h m e n (n + 1) d Hh Hm); [|fold P; lia|lia|exact Hd].
    symmetry.
    apply (fix_between_high h m e (sticky n - 1) (sticky n + 1)); try assumption;
      [fold P; lia | lia | apply Hself].
Qed.

(** What [__truediv__] rounds: the exact quotient when there is one, and
    otherwise the sticky coefficient of the cell that holds the quotient. *)
Lemma div_sticky a b :
  0 < d_int a -> 0 < d_int b ->
  exists p,
    div a b = Ok (fix_ p) /\
    ((value p * value b = value a)%R \/
     exists n e,
       10 ^ 28 <= n /\ p = mkDecimal (sticky n) e /\
       (IZR n * powerRZ 10 e * value b < value a
        < IZR (n + 1) * powerRZ 10 e * value b)%R).
Proof.
  intros Ha Hb. unfold div.
  destruct (Z.eqb_spec (d_int b) 0) as [H|_]; [lia|].
  destruct (Z.eqb_spec (d_int a) 0) as [H|_]; [lia|].
  rewrite (Z.abs_eq (d_int a)), (Z.abs_eq (d_int b)) by lia.
  rewrite (Z.sgn_pos (d_int a)), (Z.sgn_pos (d_int b)) by lia.
  set (ca := d_int a) in *. set (cb := d_int b) in *.
  set (ea := d_exp a). set (eb := d_exp b).
  set (shift := ndigits cb - ndigits ca + prec + 1).
  set (exp := ea - eb - shift).
  set (num := if (0 <=? shift)%Z then ca * 10 ^ shift else ca).
  set (den := if (0 <=? shift)%Z then cb else cb * 10 ^ (- shift)).
  destruct (ndigits_spec ca Ha) as [Halo Hahi].
  destruct (ndigits_spec cb Hb) as [Hblo Hbhi].
  pose proof (ndigits_ge1 ca) as Hda. pose proof (ndigits_ge1 cb) as Hdb.
  assert (Hden : 0 < den).
  { unfold den. destruct (0 <=? shift)%Z eqn:Hs; [lia|].
    apply Z.leb_gt in Hs. pose proof (pow10_gt0 (- shift) ltac:(lia)). nia. }
  assert (Hnum : 0 < num).
  { unfold num. destruct (0 <=? shift)%Z eqn:Hs; [|lia].
    apply Z.leb_le in Hs. pose proof (pow10_gt0 shift Hs). nia. }
  assert (Hbig : 10 ^ 28 * den <= num).
  { unfold num, den, shift, prec in *.
    destruct (Z.leb_spec 0 (ndigits cb - ndigits ca + 28 + 1)) as [Hs|Hs].
    - set (s := ndigits cb - ndigits ca + 28 + 1) in *.
      assert (H1 : 10 ^ 28 * 10 ^ ndigits cb = 10 ^ (ndigits ca - 1) * 10 ^ s).
      { rewrite <- !Z.pow_add_r by lia. f_equal. unfold s. lia. }
      pose proof (pow10_gt0 s Hs). pose proof (pow10_gt0 28 ltac:(lia)). nia.
    - set (s := ndigits cb - ndigits ca + 28 + 1) in *.
      assert (H1 : 10 ^ 28 * (10 ^ ndigits cb * 10 ^ (- s)) = 10 ^ (ndigits ca - 1)).
      { rewrite <- !Z.pow_add_r by lia. f_equal. unfold s. lia. }
      pose proof (pow10_gt0 (- s) ltac:(lia)). pose proof (pow10_gt0 28 ltac:(lia)). nia. }
  assert (Hexact : (IZR num * powerRZ 10 exp * value b = IZR den * value a)%R).
  { unfold value. fold ca cb ea eb. unfold num, den, exp.
    destruct (Z.leb_spec 0 shift) as [Hs|Hs].
    - rewrite mult_IZR, p10_IZR by lia.
      replace ea with ((ea - eb - shift) + shift + eb) at 2 by lia.
      rewrite !p10_add. ring.
    - rewrite mult_IZR, p10_IZR by lia.
      replace (ea - eb - shift) with (ea + (- shift) + - eb) by lia.
      rewrite !p10_add.
      assert (Hinv : (powerRZ 10 (- eb) * powerRZ 10 eb = 1)%R).
      { rewrite <- p10_add. replace (- eb + eb) with 0 by lia. reflexivity. }
      transitivity (IZR ca * powerRZ 10 ea * powerRZ 10 (- shift) * IZR cb
                    * (powerRZ 10 (- eb) * powerRZ 10 eb))%R; [ring|].
      rewrite Hinv. ring. }
  pose proof (Z.div_mod num den ltac:(lia)) as Hdm.
  pose proof (Z.mod_pos_bound num den Hden) as Hr.
  set (coeff := num / den) in *. set (remainder := num mod den) in *.
  assert (Hcoeff : 10 ^ 28 <= coeff).
  { apply Z.div_le_lower_bound; [lia|]. lia. }
  pose proof (p10_pos exp) as Hpe.
  assert (Hvb : (0 < value b)%R).
  { unfold value. fold cb. apply Rmult_lt_0_compat; [apply IZR_lt; lia|apply p10_pos]. }
  assert (Hden' : (0 < IZR den)%R) by (apply IZR_lt; lia).
  assert (Hu : (0 < powerRZ 10 exp * value b)%R) by (apply Rmult_lt_0_compat; lra).
  assert (Hscale : forall c : Z,
            (IZR den * (IZR c * powerRZ 10 exp * value b)
             = IZR (c * den) * (powerRZ 10 exp * value b))%R).
  { intros c. rewrite mult_IZR. ring. }
  assert (Hexact' : (IZR den * value a = IZR num * (powerRZ 10 exp * value b))%R)
    by (rewrite <- Hexact; ring).
  destruct (Z.eqb_spec remainder 0) as [Hrem|Hrem]; cbn [negb].
  - destruct (strip_to_ideal (Z.to_nat (ndigits coeff)) coeff exp (ea - eb)) as [c e] eqn:Hstrip.
    destruct (strip_to_ideal_value _ _ _ _ _ _ Hstrip) as [He Hc].
    exists (mkDecimal c e). rewrite Z.mul_1_l. split; [reflexivity|]. left.
    assert (Hv : value (mkDecimal c e) = value (mkDecimal coeff exp)).
    { rewrite (value_at (mkDecimal c e) exp) by (cbn [d_exp]; lia).
      cbn [d_int d_exp]. rewrite Hc. reflexivity. }
    rewrite Hv, value_mk.
    apply (Rmult_eq_reg_l (IZR den)); [|lra].
    rewrite Hscale, Hexact'. do 2 f_equal. lia.
  - exists (mkDecimal (sticky coeff) exp). split.
    + unfold sticky. destruct (coeff mod 5 =? 0)%Z; rewrite Z.mul_1_l; reflexivity.
    + right. exists coeff, exp. split; [exact Hcoeff|]. split; [reflexivity|].
      split; apply (Rmult_lt_reg_l (IZR den)); try exact Hden';
        rewrite Hscale, Hexact'; apply Rmult_lt_compat_r; try exact Hu;
        apply IZR_lt; lia.
Qed.

(** ** The quotient grows with the dividend *)

Lemma cell_bounds n e b a :
  (0 < value b)%R ->
  (IZR n * powerRZ 10 e * value b < value a < IZR (n + 1) * powerRZ 10 e * value b)%R ->
  forall x : R,
    ((x * value b <= value a -> x < IZR (n + 1) * powerRZ 10 e) /\
     (value a <= x * value b -> IZR n * powerRZ 10 e < x))%R.
Proof.
  intros Hb [Hlo Hhi] x. split; intros Hx.
  - apply (Rmult_lt_reg_r (value b)); [exact Hb|]. lra.
  - apply (Rmult_lt_reg_r (value b)); [exact Hb|]. lra.
Qed.

Lemma sticky_in_cell n e :
  (IZR n * powerRZ 10 e <= value (mkDecimal (sticky n) e)
   <= IZR (n + 1) * powerRZ 10 e)%R.
Proof.
  rewrite value_mk. unfold sticky.
  destruct (n mod 5 =? 0)%Z; split; apply IZR_p10_le; lia.
Qed.

Lemma div_mono a a' b q q' :
  (0 <= value a <= value a')%R -> (0 < value b)%R ->
  div a b = Ok q -> div a' b = Ok q' ->
  (value q <= value q')%R.
Proof.
  intros [Ha0 Hle] Hb H H'.
  destruct (Z.eq_dec (d_int a) 0) as [Hz|Hnz].
  { pose proof (div_zero_l _ _ _ Hz H) as Hq. apply value_zero_iff in Hq.
    rewrite Hq. eapply div_nonneg; [|exact Hb|exact H']. lra. }
  assert (Hpa : 0 < d_int a).
  { apply value_pos_iff. destruct Ha0 as [Ha0|Ha0]; [exact Ha0|].
    symmetry in Ha0. apply value_zero_iff in Ha0. contradiction. }
  assert (Hpa' : 0 < d_int a').
  { apply value_pos_iff. apply value_pos_iff in Hpa. lra. }
  assert (Hpb : 0 < d_int b) by (apply value_pos_iff; exact Hb).
  destruct (div_sticky a b Hpa Hpb) as [p [Hp Hcase]].
  destruct (div_sticky a' b Hpa' Hpb) as [p' [Hp' Hcase']].
  rewrite Hp in H. injection H as <-.
  rewrite Hp' in H'. injection H' as <-.
  destruct Hcase as [Hex|[n [e [Hn [-> Hcell]]]]];
    destruct Hcase' as [Hex'|[n' [e' [Hn' [-> Hcell']]]]].
  - (* both exact *)
    apply fix_mono. apply (Rmult_le_reg_r (value b)); [exact Hb|]. lra.
  - (* the first exact *)
    pose proof (sticky_in_cell n' e') as [Hs1 Hs2].
    destruct (Rle_or_lt (value p) (IZR n' * powerRZ 10 e')) as [Hc|Hc].
    + apply fix_mono. lra.
    + apply Req_le. apply sticky_round; [exact Hn'|].
      split; [exact Hc|].
      apply (cell_bounds _ _ _ _ Hb Hcell'). lra.
  - (* the second exact *)
    pose proof (sticky_in_cell n e) as [Hs1 Hs2].
    destruct (Rle_or_lt (IZR (n + 1) * powerRZ 10 e) (value p')) as [Hc|Hc].
    + apply fix_mono. lra.
    + apply Req_le. symmetry. apply sticky_round; [exact Hn|].
      split; [|exact Hc].
      apply (cell_bounds _ _ _ _ Hb Hcell). lra.
  - (* neither exact *)
    pose proof (sticky_in_cell n e) as [Hs1 Hs2].
    pose proof (sticky_in_cell n' e') as [Hs1' Hs2'].
    destruct (Rle_or_lt (IZR (n + 1) * powerRZ 10 e) (IZR n' * powerRZ 10 e'))
      as [Hc|Hc].
    + apply fix_mono. lra.
    + (* the two cells meet: a decimal in both *)
      assert (Hlt : (IZR n * powerRZ 10 e < IZR (n' + 1) * powerRZ 10 e')%R).
      { apply (Rmult_lt_reg_r (value b)); [exact Hb|]. lra. }
      set (f := Z.min e e').
      assert (Hf : 0 <= e - f /\ 0 <= e' - f) by (unfold f; lia).
      rewrite (IZR_scaled n e (e - f)), (IZR_scaled (n' + 1) e' (e' - f)) in Hlt by lia.
      rewrite (IZR_scaled (n + 1) e (e - f)), (IZR_scaled n' e' (e' - f)) in Hc by lia.
      replace (e - (e - f)) with f in Hlt, Hc by lia.
      replace (e' - (e' - f)) with f in Hlt, Hc by lia.
      apply IZR_p10_lt in Hlt, Hc.
      set (lo := Z.max (n * 10 ^ (e - f)) (n' * 10 ^ (e' - f))).
      pose proof (pow10_gt0 (e - f) ltac:(lia)) as HP.
      pose proof (pow10_gt0 (e' - f) ltac:(lia)) as HP'.
      set (d := mkDecimal (10 * lo + 5) (f - 1)).
      assert (Hd : forall k j : Z, 0 <= j -> f = k - j ->
                forall x : Z, x * 10 ^ j <= lo -> lo + 1 <= (x + 1) * 10 ^ j ->
                (IZR x * powerRZ 10 k < value d < IZR (x + 1) * powerRZ 10 k)%R).
      { intros k j Hj Hk x Hx1 Hx2. unfold d. rewrite value_mk.
        rewrite (IZR_scaled x k (j + 1)), (IZR_scaled (x + 1) k (j + 1)) by lia.
        replace (k - (j + 1)) with (f - 1) by lia.
        rewrite Z.pow_add_r by lia. change (10 ^ 1) with 10.
        split; apply IZR_p10_lt; lia. }
      transitivity (value (fix_ d)).
      * apply Req_le. symmetry. apply sticky_round; [exact Hn|].
        apply (Hd e (e - f)); unfold lo; lia.
      * apply Req_le. apply sticky_round; [exact Hn'|].
        apply (Hd e' (e' - f)); unfold lo; lia.
Qed.

(** ** A higher rate, larger amounts *)

Lemma mul_mono_r c r r' :
  (0 <= value c)%R -> (value r <= value r')%R -> (value (mul c r) <= value (mul c r'))%R.
Proof.
  intros Hc Hr. rewrite !mul_fix. apply fix_mono. rewrite !value_exact_product.
  apply Rmult_le_compat_l; assumption.
Qed.

Lemma behind_trans s1 s2 s3 : behind s1 s2 -> behind s2 s3 -> behind s1 s3.
Proof.
  intros [H1 [H2 _]] [H3 [H4 [H5 H6]]]. unfold behind.
  repeat split; try assumption; lra.
Qed.

Lemma rate_per_period_mono rate rate' f ar ar' rpp rpp' :
  (0 <= value rate <= value rate')%R ->
  div rate (of_Z 100) = Ok ar -> div rate' (of_Z 100) = Ok ar' ->
  rate_per_period_of f ar = Ok rpp -> rate_per_period_of f ar' = Ok rpp' ->
  (0 <= value rpp <= value rpp')%R.
Proof.
  intros Hr Har Har' Hrpp Hrpp'.
  assert (H100 : (0 < value (of_Z 100))%R) by (rewrite value_of_Z; lra).
  assert (H12 : (0 < value (of_Z 12))%R) by (rewrite value_of_Z; lra).
  assert (H4 : (0 < value (of_Z 4))%R) by (rewrite value_of_Z; lra).
  assert (Ha : (0 <= value ar <= value ar')%R).
  { split; [eapply div_nonneg; [|exact H100|exact Har]; lra|].
    exact (div_mono _ _ _ _ _ Hr H100 Har Har'). }
  unfold rate_per_period_of in Hrpp, Hrpp'.
  destruct (f =? "monthly").
  { split; [eapply div_nonneg; [|exact H12|exact Hrpp]; lra|].
    exact (div_mono _ _ _ _ _ Ha H12 Hrpp Hrpp'). }
  destruct (f =? "quarterly").
  { split; [eapply div_nonneg; [|exact H4|exact Hrpp]; lra|].
    exact (div_mono _ _ _ _ _ Ha H4 Hrpp Hrpp'). }
  injection Hrpp as <-. injection Hrpp' as <-. exact Ha.
Qed.

Section HigherRate.

Variables (f : string) (mp rpp rpp' : Decimal).
Hypothesis Hrate : (0 <= value rpp <= value rpp')%R.

Lemma period_body_rate s :
  ahead s -> fits_precision (ps_total_contributions s) = true ->
  behind (period_body f mp rpp s) (period_body f mp rpp' s).
Proof using Hrate.
  intros [[Ht Hc] [Hfc _]] Hft. unfold period_body, behind.
  destruct ((f =? "monthly") && ltb (of_Z 0) mp) eqn:E;
    cbn [ps_current_amount ps_total_contributions].
  - apply andb_prop in E. destruct E as [_ E]. apply ltb_zero_value in E.
    assert (H0 : (0 <= value (add (ps_current_amount s) mp))%R)
      by (apply add_nonneg; lra).
    repeat split; try apply add_fits; [|lra].
    apply add_mono; [lra | apply mul_mono_r; [exact H0 | lra]].
  - repeat split; try apply add_fits; try assumption; [|lra].
    apply add_mono; [lra | apply mul_mono_r; lra].
Qed.

Lemma period_body_higher s s' :
  behind s s' -> ahead s' ->
  behind (period_body f mp rpp s) (period_body f mp rpp' s') /\
  ahead (period_body f mp rpp' s').
Proof using Hrate.
  intros Hb Ha. split.
  - apply behind_trans with (s2 := period_body f mp rpp s').
    + apply period_body_behind; [lra | lra | exact Hb].
    + apply period_body_rate; [exact Ha | apply Hb].
  - apply period_body_ahead; [lra | exact Ha].
Qed.

Lemma period_loop_higher n : forall s s',
  behind s s' -> ahead s' ->
  behind (period_loop n f mp rpp s) (period_loop n f mp rpp' s') /\
  ahead (period_loop n f mp rpp' s').
Proof using Hrate.
  induction n as [|n IH]; intros s s' Hb Ha; cbn [period_loop]; [split; assumption|].
  destruct (period_body_higher s s' Hb Ha) as [Hb1 Ha1]. apply IH; assumption.
Qed.

Lemma amounts_after_higher k n : forall c t c' t',
  (value c <= value c')%R -> (value t <= value t')%R ->
  fits_precision c' = true -> fits_precision t' = true ->
  (0 <= value t' <= value c')%R ->
  (value (fst (amounts_after k f n mp rpp c t))
   <= value (fst (amounts_after k f n mp rpp' c' t')))%R.
Proof using Hrate.
  induction k as [|k IH]; intros c t c' t' Hc Ht Hfc Hft H0; cbn [amounts_after].
  - cbn [fst]. exact Hc.
  - assert (Hb : behind (mkPeriodState c (of_Z 0) t (of_Z 0))
                        (mkPeriodState c' (of_Z 0) t' (of_Z 0)))
      by (unfold behind; cbn [ps_current_amount ps_total_contributions];
          repeat split; assumption).
    assert (Ha : ahead (mkPeriodState c' (of_Z 0) t' (of_Z 0))).
    { unfold ahead. cbn [ps_current_amount ps_total_contributions ps_year_interest].
      repeat split; try assumption; try lra. rewrite value_of_Z. lra. }
    destruct (period_loop_higher n _ _ Hb Ha) as [Hb1 Ha1].
    pose proof (year_end_contribution_behind f mp mp (Rle_refl _) _ _ Hb1)
      as [H1 [H2 [H3 H4]]].
    destruct (year_end_contribution_ahead f mp _ Ha1) as [[H5 _] _].
    unfold year_amounts. cbn [ys_current_amount ys_total_contributions].
    apply IH; assumption.
Qed.

End HigherRate.

(** The contributions do not depend on the rate or on the amounts. *)
Lemma period_loop_contributions_any n f mp rpp rpp' : forall s s',
  ps_total_contributions s = ps_total_contributions s' ->
  ps_total_contributions (period_loop n f mp rpp s)
  = ps_total_contributions (period_loop n f mp rpp' s').
Proof.
  induction n as [|n IH]; intros s s' H; cbn [period_loop]; [exact H|].
  apply IH. rewrite !period_body_total, H. reflexivity.
Qed.

Lemma amounts_after_contributions_any k f n mp rpp rpp' : forall c c' t,
  snd (amounts_after k f n mp rpp c t) = snd (amounts_after k f n mp rpp' c' t).
Proof.
  induction k as [|k IH]; intros c c' t; cbn [amounts_after]; [reflexivity|].
  assert (E : ps_total_contributions (year_amounts f n mp rpp (mkYearState c t []))
              = ps_total_contributions (year_amounts f n mp rpp' (mkYearState c' t []))).
  { unfold year_amounts, year_end_contribution.
    cbn [ys_current_amount ys_total_contributions].
    pose proof (period_loop_contributions_any n f mp rpp rpp'
                  (mkPeriodState c (of_Z 0) t (of_Z 0))
                  (mkPeriodState c' (of_Z 0) t (of_Z 0)) eq_refl) as Hl.
    destruct (in_list f ["quarterly"; "yearly"] && ltb (of_Z 0) mp);
      cbn [ps_total_contributions]; rewrite Hl; reflexivity. }
  rewrite E. apply IH.
Qed.

(** X29.  A higher rate never gives less: of two requests that differ in
    the annual rate only, with a principal that is not negative and has at
    most 28 digits and rates that are not negative, the one with the
    higher rate has the larger or equal final amount and total interest,
    and the same total of contributions, whenever both calls return. *)
Theorem X29_higher_rate_no_smaller_final_amount :
  forall power now req rate' resp resp',
    leb (of_Z 0) (principal req) = true ->
    fits_precision (principal req) = true ->
    leb (of_Z 0) (annual_rate req) = true ->
    leb (annual_rate req) rate' = true ->
    calculate_compound_interest power now req = Ok resp ->
    calculate_compound_interest power now (with_annual_rate req rate') = Ok resp' ->
    leb (final_amount resp) (final_amount resp') = true /\
    total_contributions resp' = total_contributions resp /\
    leb (total_interest resp) (total_interest resp') = true.
Proof.
  intros power now req rate' resp resp' Hp Hfit Hr Hr' H H'.
  destruct (calculate_totals _ _ _ _ H) as [F [T [Hu [HF [HT HI]]]]].
  destruct (calculate_totals _ _ _ _ H') as [F' [T' [Hu' [HF' [HT' HI']]]]].
  unfold unrounded_totals in Hu, Hu'.
  cbn [with_annual_rate principal monthly_payment annual_rate years compound_frequency]
    in Hu'.
  inv_binds Hu. inv_binds Hu'. injection Hu as Hu. injection Hu' as Hu'.
  apply leb_value in Hp, Hr, Hr'. rewrite value_of_Z in Hp, Hr.
  pose proof (rate_per_period_mono _ _ _ _ _ _ _ (conj Hr Hr') Hm Hm1 Hm0 Hm2) as Hrate.
  pose proof (amounts_after_higher (compound_frequency req) (monthly_payment req) _ _ Hrate
                (Z.to_nat (years req)) (periods_of (compound_frequency req))
                _ _ _ _ (Rle_refl _) (Rle_refl _) Hfit Hfit (conj Hp (Rle_refl _))) as H1.
  pose proof (amounts_after_contributions_any (Z.to_nat (years req))
                (compound_frequency req) (periods_of (compound_frequency req))
                (monthly_payment req) v0 v2 (principal req) (principal req)
                (principal req)) as H2.
  rewrite Hu, Hu' in H1, H2. cbn [fst snd] in H1, H2. subst T'.
  split; [exact (quantize2_leb _ _ _ _ H1 HF HF')|].
  split; [rewrite HT in HT'; injection HT' as <-; reflexivity|].
  refine (quantize2_leb _ _ _ _ _ HI HI').
  unfold sub. apply add_mono; [exact H1 | lra].
Qed.

Lemma X29_higher_rate_no_smaller_final_amount_witness :
  exists resp resp',
    calculate_compound_interest power_one "t"
      (mkRequest (mkDecimal 10000 (-1)) (mkDecimal 1000 (-1)) (mkDecimal 50 (-1)) 1 "monthly")
    = Ok resp /\
    calculate_compound_interest power_one "t"
      (mkRequest (mkDecimal 10000 (-1)) (mkDecimal 1000 (-1)) (mkDecimal 70 (-1)) 1 "monthly")
    = Ok resp' /\
    leb (final_amount resp) (final_amount resp') = true.
Proof.
  do 2 eexists. split; [vm_compute; reflexivity|]. split; [vm_compute; reflexivity|].
  apply (X29_higher_rate_no_smaller_final_amount power_one "t"
    (mkRequest (mkDecimal 10000 (-1)) (mkDecimal 1000 (-1)) (mkDecimal 50 (-1)) 1 "monthly")
    (mkDecimal 70 (-1)));
    vm_compute; reflexivity.
Defined.

(** * Properties of the input validation

    ** The validator and its bounds *)

Lemma validator_accepts_bounds v :
  validator_accepts v = true <->
  field_bounds v = true /\
  in_list (v_compound_frequency v) allowed_frequencies = true.
Proof.
  unfold validator_accepts, field_bounds, validate_principal, validate_monthly_payment,
    validate_annual_rate, validate_years, validate_compound_frequency, passes.
  change ["monthly"; "quarterly"; "yearly"] with allowed_frequencies.
  rewrite !andb_true_iff.
  rewrite !leb_negb_ltb.
  destruct (ltb (v_principal v) (of_Z 1)) eqn:E1;
  destruct (ltb (of_Z 10000000) (v_principal v)) eqn:E2;
  destruct (ltb (v_monthly_payment v) (of_Z 0)) eqn:E3;
  destruct (ltb (of_Z 50000) (v_monthly_payment v)) eqn:E4;
  destruct (ltb (v_annual_rate v) (of_Z 0)) eqn:E5;
  destruct (ltb (of_Z 20) (v_annual_rate v)) eqn:E6;
  destruct (1 <=? v_years v)%Z eqn:E7;
  destruct (v_years v <=? 50)%Z eqn:E8;
  destruct (in_list (v_compound_frequency v) allowed_frequencies) eqn:E9;
  cbn; try (split; intros; intuition discriminate).
  all: try (apply Z.leb_le in E7; apply Z.leb_le in E8;
            replace (v_years v <? 1)%Z with false by (symmetry; apply Z.ltb_ge; lia);
            replace (50 <? v_years v)%Z with false by (symmetry; apply Z.ltb_ge; lia)).
  all: destruct (ltb (of_Z 0) (v_principal v)) eqn:E0; cbn; try tauto.
  all: exfalso; apply ltb_value in E1 || (assert (Hn : ~ (value (v_principal v) < value (of_Z 1))%R)
         by (intros Hc; apply ltb_value in Hc; congruence)).
  all: assert (Hn0 : ~ (value (of_Z 0) < value (v_principal v))%R)
         by (intros Hc; apply ltb_value in Hc; congruence).
  all: rewrite !value_of_Z in *; lra.
Qed.

(** ** The limits and the two input models (X13, X14) *)

Lemma field_bounds_values v :
  field_bounds v = true ->
  (1 <= value (v_principal v) <= 10000000)%R /\
  (0 <= value (v_monthly_payment v) <= 50000)%R /\
  (0 <= value (v_annual_rate v) <= 20)%R /\
  1 <= v_years v <= 50.
Proof.
  unfold field_bounds. rewrite !andb_true_iff.
  intros [[[[[[[H1 H2] H3] H4] H5] H6] H7] H8].
  apply leb_value in H1, H2, H3, H4, H5, H6. rewrite value_of_Z in *.
  apply Z.leb_le in H7, H8. repeat split; assumption.
Qed.

(** A product or a sum that stays below an integer bound within the
    precision is not pushed above it by the rounding. *)
Lemma fix_le_Z d m :
  (value d <= IZR m)%R -> Z.abs m < 10 ^ 28 -> (value (fix_ d) <= IZR m)%R.
Proof.
  intros Hd Hm.
  assert (Hv : value (of_Z m) = (IZR m * powerRZ 10 0)%R)
    by (rewrite value_of_Z; cbn; ring).
  pose proof (fix_exact (of_Z m) m 0 Hv Hm) as He.
  rewrite value_of_Z in He. rewrite <- He.
  apply fix_mono. rewrite value_of_Z. exact Hd.
Qed.

Lemma fix_ge_Z d m :
  (IZR m <= value d)%R -> Z.abs m < 10 ^ 28 -> (IZR m <= value (fix_ d))%R.
Proof.
  intros Hd Hm.
  assert (Hv : value (of_Z m) = (IZR m * powerRZ 10 0)%R)
    by (rewrite value_of_Z; cbn; ring).
  pose proof (fix_exact (of_Z m) m 0 Hv Hm) as He.
  rewrite value_of_Z in He. rewrite <- He.
  apply fix_mono. rewrite value_of_Z. exact Hd.
Qed.

(** X14.  [validate_api_limits] never refuses an input that
    [CalculatorInputValidator] accepts: with at most 50 years there are at
    most 600 periods, and the total investment is at most
    10,000,000 + 50,000 * 12 * 50 = 40,000,000, below the limit of
    50,000,000. *)
Theorem X14_api_limits_never_refuse_validated_input :
  forall v, validator_accepts v = true -> validate_api_limits v = None.
Proof.
  intros v H. apply validator_accepts_bounds in H. destruct H as [H _].
  destruct (field_bounds_values v H) as [[Hp0 Hp1] [[Hm0 Hm1] [_ [Hy0 Hy1]]]].
  unfold validate_api_limits.
  replace (600 <? v_years v * 12)%Z with false by (symmetry; apply Z.ltb_ge; lia).
  set (a := mul (v_monthly_payment v) (of_Z 12)).
  assert (Ha : (0 <= value a <= 600000)%R).
  { unfold a. rewrite mul_fix. split.
    - apply fix_nonneg. rewrite value_exact_product, value_of_Z. lra.
    - apply (fix_le_Z _ 600000); [|vm_compute; reflexivity].
      rewrite value_exact_product, value_of_Z. lra. }
  set (b := mul a (of_Z (v_years v))).
  assert (Hb : (value b <= 30000000)%R).
  { unfold b. rewrite mul_fix.
    apply (fix_le_Z _ 30000000); [|vm_compute; reflexivity].
    rewrite value_exact_product, value_of_Z.
    assert (Hy : (1 <= IZR (v_years v) <= 50)%R)
      by (split; apply IZR_le; lia).
    nra. }
  assert (Ht : (value (add (v_principal v) b) <= 40000000)%R).
  { rewrite add_fix. apply (fix_le_Z _ 40000000); [|vm_compute; reflexivity].
    rewrite value_exact_sum. lra. }
  destruct (ltb (of_Z 50000000) (add (v_principal v) b)) eqn:E; [|reflexivity].
  apply ltb_value in E. rewrite value_of_Z in E. lra.
Qed.

Lemma X14_api_limits_never_refuse_validated_input_witness :
  validate_api_limits
    (mkValidator (of_Z 10000000) (of_Z 50000) (of_Z 5) 50 "monthly") = None.
Proof.
  apply X14_api_limits_never_refuse_validated_input. vm_compute. reflexivity.
Defined.



(** ** The warnings (X15, X16) *)

Lemma value_nonzero d : (0 < value d)%R -> d_int d <> 0.
Proof. intros H E. apply value_zero_iff in E. lra. Qed.

Lemma business_logic_ratio v :
  field_bounds v = true ->
  ltb (of_Z 0) (v_monthly_payment v) = true ->
  exists ratio,
    div (mul (v_monthly_payment v) (of_Z 12)) (v_principal v) = Ok ratio /\
    (ltb (of_Z 2) ratio = true ->
     (2 * value (v_principal v) < value (mul (v_monthly_payment v) (of_Z 12)))%R) /\
    ((2 + 2 * powerRZ 10 (-27)) * value (v_principal v)
     <= value (mul (v_monthly_payment v) (of_Z 12)) ->
     ltb (of_Z 2) ratio = true)%R.
Proof.
  intros Hb Hmp.
  destruct (field_bounds_values v Hb) as [[Hp0 Hp1] _].
  apply ltb_zero_value in Hmp.
  set (a := mul (v_monthly_payment v) (of_Z 12)).
  set (p := v_principal v) in *.
  assert (Ha : (0 < value a)%R).
  { unfold a. rewrite mul_fix.
    assert (H0 : (0 < value (exact_product (v_monthly_payment v) (of_Z 12)))%R)
      by (rewrite value_exact_product, value_of_Z; lra).
    pose proof (fix_rel _ (Rlt_le _ _ H0)) as [Hlo _].
    destruct delta_bounds as [Hd0 [_ Hd2]].
    assert (Hd1 : (delta <= / 4)%R).
    { eapply Rle_trans; [exact Hd2|]. apply Rinv_le_contravar; lra. }
    nra. }
  destruct (div_shape a p) as [c [e [Hdiv [Hc Herr]]]];
    [apply value_pos_iff; exact Ha | apply value_pos_iff; lra|].
  exists (fix_ (mkDecimal c e)). split; [exact Hdiv|].
  set (y := value (mkDecimal c e)) in *.
  assert (H28 : (10 ^ 28 = IZR (10 ^ 28))%R) by (rewrite pow_IZR; reflexivity).
  assert (Hy : (value a * (1 - / 10 ^ 28) <= y * value p <= value a * (1 + / 10 ^ 28))%R).
  { assert (Hpos : (0 < 10 ^ 28)%R) by (apply pow_lt; lra).
    assert (Hinv : (/ 10 ^ 28 * 10 ^ 28 = 1)%R) by (apply Rinv_l; lra).
    apply Rabs_bound in Herr || idtac.
    assert (Hr : (Rabs (y * value p - value a) <= value a * / 10 ^ 28)%R).
    { apply (Rmult_le_reg_l (10 ^ 28)); [exact Hpos|].
      replace (10 ^ 28 * (value a * / 10 ^ 28))%R with (value a * (/ 10 ^ 28 * 10 ^ 28))%R by ring.
      rewrite Hinv. lra. }
    apply Rabs_bound in Hr. lra. }
  assert (Htiny : (0 < / 10 ^ 28 < / 10)%R).
  { split; [apply Rinv_0_lt_compat, pow_lt; lra|].
    apply Rinv_lt_contravar; [|].
    - apply Rmult_lt_0_compat; [lra | apply pow_lt; lra].
    - replace 10%R with (10 ^ 1)%R at 1 by ring. apply Rlt_pow; [lra|lia]. }
  split.
  - intros Hlt. apply ltb_value in Hlt. rewrite value_of_Z in Hlt.
    destruct (Rlt_or_le (2 * value p) (value a)) as [|Hle]; [assumption|exfalso].
    assert (Hyle : (y <= 2 + 2 * / 10 ^ 28)%R) by nra.
    set (z := mkDecimal (2 * 10 ^ 28 + 2) (-28)).
    assert (Hz : value z = (2 + 2 * / 10 ^ 28)%R).
    { unfold z. rewrite value_mk, plus_IZR, mult_IZR.
      change (powerRZ 10 (-28)) with (/ 10 ^ 28)%R. rewrite <- H28.
      assert (Hinv : (10 ^ 28 * / 10 ^ 28 = 1)%R) by (apply Rinv_r; apply pow_nonzero; lra).
      nra. }
    assert (Hfz : value (fix_ z) = 2%R).
    { replace (fix_ z) with (mkDecimal 2000000000000000000000000000 (-27))
        by (vm_compute; reflexivity).
      rewrite value_mk.
      replace 2000000000000000000000000000 with (2 * 10 ^ 27) by reflexivity.
      rewrite mult_IZR, (p10_IZR 27) by lia. rewrite Rmult_assoc, <- p10_add.
      change (27 + -27) with 0. cbn [powerRZ]. ring. }
    assert (Hfy : (value (fix_ (mkDecimal c e)) <= value (fix_ z))%R)
      by (apply fix_mono; fold y; rewrite Hz; exact Hyle).
    lra.
  - intros Hge. apply ltb_value. rewrite value_of_Z.
    change (powerRZ 10 (-27)) with (/ 10 ^ 27)%R in Hge.
    assert (H10 : (/ 10 ^ 27 = 10 * / 10 ^ 28)%R).
    { replace (10 ^ 28)%R with (10 * 10 ^ 27)%R by ring.
      rewrite Rinv_mult. field; apply pow_nonzero; lra. }
    set (z := mkDecimal (2 * 10 ^ 27 + 1) (-27)).
    assert (Hz : value z = (2 + / 10 ^ 27)%R).
    { unfold z. rewrite value_mk, plus_IZR, mult_IZR.
      change (powerRZ 10 (-27)) with (/ 10 ^ 27)%R.
      assert (H27 : (10 ^ 27 = IZR (10 ^ 27))%R) by (rewrite pow_IZR; reflexivity).
      rewrite <- H27.
      assert (Hinv : (10 ^ 27 * / 10 ^ 27 = 1)%R) by (apply Rinv_r; apply pow_nonzero; lra).
      nra. }
    assert (Hfz : fix_ z = z) by (vm_compute; reflexivity).
    assert (Hyge : (value z <= y)%R).
    { rewrite Hz, H10. 
      assert (Hyp : ((2 + 20 * / 10 ^ 28) * (1 - / 10 ^ 28) * value p <= y * value p)%R) by nra.
      assert (Hfac : (2 + 10 * / 10 ^ 28 <= (2 + 20 * / 10 ^ 28) * (1 - / 10 ^ 28))%R) by nra.
      apply (Rmult_le_reg_r (value p)); [lra|]. nra. }
    assert (Hfy : (value (fix_ z) <= value (fix_ (mkDecimal c e)))%R)
      by (apply fix_mono; fold y; exact Hyge).
    rewrite Hfz, Hz in Hfy.
    assert (0 < / 10 ^ 27)%R by (apply Rinv_0_lt_compat, pow_lt; lra).
    lra.
Qed.

Lemma business_logic_unfold v ratio :
  ltb (of_Z 0) (v_monthly_payment v) = true ->
  div (mul (v_monthly_payment v) (of_Z 12)) (v_principal v) = Ok ratio ->
  validate_business_logic v =
  Ok ((if ltb (of_Z 2) ratio then [payment_warning] else []) ++
      (if (40 <? v_years v)%Z
       then ["Eine Laufzeit von über 40 Jahren ist sehr lang. Berücksichtigen Sie Inflation und Lebensumstände."]
       else []) ++
      (if ltb (of_Z 15) (v_annual_rate v)
       then ["Ein Zinssatz über 15% ist sehr optimistisch. Bitte prüfen Sie realistische Markterwartungen."]
       else []) ++
      (if ltb (v_annual_rate v) (mkDecimal 1 (-1))
       then ["Ein Zinssatz unter 0,1% ist sehr niedrig. Berücksichtigen Sie Inflation und Opportunitätskosten."]
       else []))%list.
Proof.
  intros Hmp Hdiv. unfold validate_business_logic. rewrite Hmp, Hdiv. reflexivity.
Qed.

Lemma rate_warnings_exclusive r :
  ltb (of_Z 15) r = true -> ltb r (mkDecimal 1 (-1)) = true -> False.
Proof.
  intros H1 H2. apply ltb_value in H1, H2.
  rewrite value_of_Z in H1. rewrite value_mk in H2.
  change (powerRZ 10 (-1)) with (/ (10 * 1))%R in H2.
  assert (/ (10 * 1) <= 1)%R.
  { rewrite <- Rinv_1 at 2. apply Rinv_le_contravar; lra. }
  lra.
Qed.

(** X15.  For an input that [CalculatorInputValidator] accepts,
    [validate_business_logic] returns (the division by the principal does
    not raise) and gives at most three of its four warnings: the warning
    for a rate above 15 % and the one for a rate below 0.1 % exclude each
    other. *)
Theorem X15_business_logic_at_most_three_warnings :
  forall v,
    validator_accepts v = true ->
    exists ws,
      validate_business_logic v = Ok ws /\ (List.length ws <= 3)%nat.
Proof.
  intros v H. apply validator_accepts_bounds in H. destruct H as [Hb _].
  assert (Hrest : forall w1 : list string, (List.length w1 <= 1)%nat ->
    (List.length
       (w1 ++
        (if (40 <? v_years v)%Z
         then ["Eine Laufzeit von über 40 Jahren ist sehr lang. Berücksichtigen Sie Inflation und Lebensumstände."]
         else []) ++
        (if ltb (of_Z 15) (v_annual_rate v)
         then ["Ein Zinssatz über 15% ist sehr optimistisch. Bitte prüfen Sie realistische Markterwartungen."]
         else []) ++
        (if ltb (v_annual_rate v) (mkDecimal 1 (-1))
         then ["Ein Zinssatz unter 0,1% ist sehr niedrig. Berücksichtigen Sie Inflation und Opportunitätskosten."]
         else []))%list <= 3)%nat).
  { intros w1 Hw1. rewrite !List.length_app.
    destruct (ltb (of_Z 15) (v_annual_rate v)) eqn:E1;
      destruct (ltb (v_annual_rate v) (mkDecimal 1 (-1))) eqn:E2;
      [destruct (rate_warnings_exclusive _ E1 E2)| | |];
      destruct (40 <? v_years v)%Z; cbn [List.length]; lia. }
  destruct (ltb (of_Z 0) (v_monthly_payment v)) eqn:Hmp.
  - destruct (business_logic_ratio v Hb Hmp) as [ratio [Hdiv _]].
    eexists. split; [apply (business_logic_unfold v ratio Hmp Hdiv)|].
    apply Hrest. destruct (ltb (of_Z 2) ratio); cbn; lia.
  - unfold validate_business_logic. rewrite Hmp. cbn [bind].
    eexists. split; [reflexivity|]. apply Hrest. cbn. lia.
Qed.

Lemma X15_business_logic_at_most_three_warnings_witness :
  exists ws,
    validate_business_logic
      (mkValidator (of_Z 1000) (of_Z 500) (of_Z 18) 45 "monthly") = Ok ws /\
    (List.length ws <= 3)%nat.
Proof.
  apply X15_business_logic_at_most_three_warnings. vm_compute. reflexivity.
Defined.

(** X16.  The warning about high payments has no false alarm and misses
    nothing beyond the last digit: for an accepted input it is given only
    when the yearly payments [monthly_payment * 12] (as the code computes
    them) exceed twice the principal, and it is given whenever they are at
    least 2.000000000000000000000000002 times the principal. *)
Theorem X16_payment_warning_threshold :
  forall v ws,
    validator_accepts v = true ->
    validate_business_logic v = Ok ws ->
    (In payment_warning ws ->
     ltb (exact_product (of_Z 2) (v_principal v))
         (mul (v_monthly_payment v) (of_Z 12)) = true) /\
    (leb (exact_product (mkDecimal 2000000000000000000000000002 (-27)) (v_principal v))
         (mul (v_monthly_payment v) (of_Z 12)) = true ->
     In payment_warning ws).
Proof.
  intros v ws H Hws. apply validator_accepts_bounds in H. destruct H as [Hb _].
  destruct (field_bounds_values v Hb) as [[Hp0 Hp1] _].
  destruct (ltb (of_Z 0) (v_monthly_payment v)) eqn:Hmp.
  - destruct (business_logic_ratio v Hb Hmp) as [ratio [Hdiv [Hlt Hge]]].
    rewrite (business_logic_unfold v ratio Hmp Hdiv) in Hws. injection Hws as <-.
    split.
    + intros Hin. apply in_app_or in Hin. destruct Hin as [Hin|Hin].
      * destruct (ltb (of_Z 2) ratio); [|destruct Hin].
        apply ltb_value. rewrite value_exact_product, value_of_Z. apply Hlt. reflexivity.
      * exfalso.
        destruct (40 <? v_years v)%Z, (ltb (of_Z 15) (v_annual_rate v)),
          (ltb (v_annual_rate v) (mkDecimal 1 (-1)));
          cbn in Hin; intuition discriminate.
    + intros Hle. apply in_or_app. left.
      rewrite Hge; [left; reflexivity|].
      apply leb_value in Hle. rewrite value_exact_product in Hle.
      eapply Rle_trans; [|exact Hle].
      apply Rmult_le_compat_r; [lra|].
      rewrite value_mk.
      replace 2000000000000000000000000002 with (2 * 10 ^ 27 + 2) by reflexivity.
      rewrite plus_IZR, mult_IZR, (p10_IZR 27) by lia.
      rewrite Rmult_plus_distr_r, Rmult_assoc, <- p10_add.
      change (27 + -27) with 0. cbn [powerRZ]. lra.
  - unfold validate_business_logic in Hws. rewrite Hmp in Hws. cbn [bind] in Hws.
    injection Hws as <-.
    split.
    + intros Hin. exfalso. cbn [app] in Hin.
      destruct (40 <? v_years v)%Z, (ltb (of_Z 15) (v_annual_rate v)),
        (ltb (v_annual_rate v) (mkDecimal 1 (-1)));
        cbn in Hin; intuition discriminate.
    + intros Hle. exfalso.
      apply leb_value in Hle. rewrite value_exact_product, value_mk in Hle.
      assert (Hm : (value (mul (v_monthly_payment v) (of_Z 12)) <= 0)%R).
      { rewrite mul_fix. apply (fix_le_Z _ 0); [|vm_compute; reflexivity].
        rewrite value_exact_product, value_of_Z.
        assert (Hn : ~ (value (of_Z 0) < value (v_monthly_payment v))%R)
          by (intros Hc; apply ltb_value in Hc; congruence).
        rewrite value_of_Z in Hn. lra. }
      pose proof (p10_pos (-27)) as Hp27.
      assert (0 < IZR 2000000000000000000000000002)%R by (apply IZR_lt; lia).
      nra.
Qed.

Lemma X16_payment_warning_threshold_witness :
  exists ws,
    validate_business_logic (mkValidator (of_Z 1000) (of_Z 500) (of_Z 5) 10 "monthly")
    = Ok ws /\
    In payment_warning ws.
Proof.
  eexists. split; [vm_compute; reflexivity|].
  apply (X16_payment_warning_threshold
           (mkValidator (of_Z 1000) (of_Z 500) (of_Z 5) 10 "monthly"));
    vm_compute; reflexivity.
Defined.

(** ** The request model and [validate_request] (X12) *)



(** * The service behind the validation

    ** Bounds of the amounts *)

Lemma delta_tiny : (0 < delta /\ delta <= / 10000)%R.
Proof.
  destruct delta_bounds as [Hd0 [_ Hd2]]. split; [exact Hd0|].
  eapply Rle_trans; [exact Hd2|].
  apply Rinv_le_contravar; [lra|].
  replace 10000%R with (10 ^ 4)%R by ring.
  apply Rle_pow; [lra|lia].
Qed.

Lemma add_upper a b u :
  (0 <= value a)%R -> (0 <= value b)%R -> (value a + value b <= u)%R ->
  (0 <= value (add a b) <= u * (1 + delta))%R.
Proof.
  intros Ha Hb Hu. destruct delta_tiny as [Hd0 _].
  pose proof (add_rel a b ltac:(lra)) as [_ H].
  split; [apply add_nonneg; assumption|].
  eapply Rle_trans; [exact H|]. apply Rmult_le_compat_r; lra.
Qed.

Lemma mul_upper a b u :
  (0 <= value a)%R -> (0 <= value b)%R -> (value a * value b <= u)%R ->
  (0 <= value (mul a b) <= u * (1 + delta))%R.
Proof.
  intros Ha Hb Hu. destruct delta_tiny as [Hd0 _].
  assert (H0 : (0 <= value a * value b)%R) by (apply Rmult_le_pos; assumption).
  pose proof (mul_rel a b H0) as [_ H].
  split; [apply mul_nonneg; assumption|].
  eapply Rle_trans; [exact H|]. apply Rmult_le_compat_r; lra.
Qed.

Lemma div_upper a k q :
  (0 <= value a)%R -> 0 < k -> div a (of_Z k) = Ok q ->
  (0 <= value q /\ value q * IZR k <= value a * (1 + 2 * delta))%R.
Proof.
  intros Ha Hk H. destruct delta_tiny as [Hd0 _].
  assert (Hk' : (0 < IZR k)%R) by (apply IZR_lt; exact Hk).
  split; [eapply div_nonneg; [exact Ha| |exact H]; rewrite value_of_Z; exact Hk'|].
  destruct (Req_dec (value a) 0) as [Ha0|Ha0].
  - apply value_zero_iff in Ha0. pose proof (div_zero_l _ _ _ Ha0 H) as Hq.
    apply value_zero_iff in Hq. apply value_zero_iff in Ha0. rewrite Hq, Ha0. lra.
  - pose proof (div_rel a (of_Z k) q ltac:(lra) ltac:(rewrite value_of_Z; exact Hk') H)
      as [_ Hhi].
    rewrite value_of_Z in Hhi. exact Hhi.
Qed.

Lemma rate_per_period_cap rate f ar rpp :
  in_list f allowed_frequencies = true ->
  leb (of_Z 0) rate = true -> leb rate (of_Z 20) = true ->
  div rate (of_Z 100) = Ok ar ->
  rate_per_period_of f ar = Ok rpp ->
  (0 <= value rpp /\
   (1 + value rpp * (1 + / 1000)) * (1 + / 1000) <= period_cap f)%R.
Proof.
  intros Hf H0 H20 Har Hrpp.
  apply leb_value in H0, H20. rewrite value_of_Z in *.
  destruct delta_tiny as [Hd0 Hd1].
  destruct (div_upper rate 100 ar H0 eq_refl Har) as [Ha0 Ha1].
  assert (Hrd : (value rate * delta <= 20 * / 10000)%R)
    by (apply Rmult_le_compat; lra).
  assert (Ha : (value ar <= 2001 / 10000)%R) by lra.
  assert (Had : (value ar * delta <= 2001 / 10000 * / 10000)%R)
    by (apply Rmult_le_compat; lra).
  unfold rate_per_period_of, period_cap in *.
  destruct (f =? "monthly") eqn:Em.
  { destruct (div_upper ar 12 rpp Ha0 eq_refl Hrpp) as [Hr0 Hr1].
    split; [exact Hr0|]. lra. }
  destruct (f =? "quarterly") eqn:Eq.
  { destruct (div_upper ar 4 rpp Ha0 eq_refl Hrpp) as [Hr0 Hr1].
    split; [exact Hr0|]. lra. }
  injection Hrpp as <-. split; [exact Ha0|]. lra.
Qed.

Section Caps.

Variables (f : string) (mp rpp : Decimal) (g : R).
Hypothesis Hmp : (0 <= value mp <= 50000)%R.
Hypothesis Hrpp : (0 <= value rpp)%R.
Hypothesis Hg : ((1 + value rpp * (1 + / 1000)) * (1 + / 1000) <= g)%R.

Lemma period_body_capped u s :
  capped u s -> capped ((u + 50000) * g) (period_body f mp rpp s).
Proof using Hmp Hrpp Hg.
  intros [[Hc0 Hc] [[Hyc0 Hyc] [Hyi0 Hyi]]].
  destruct delta_tiny as [Hd0 Hd1].
  assert (Hu0 : (0 <= u)%R) by lra.
  assert (Hg1 : (1 <= g)%R) by nra.
  assert (Hstep : forall c1 : Decimal,
    (0 <= value c1 <= (u + 50000) * (1 + delta))%R ->
    (0 <= value (add c1 (mul c1 rpp)) <= (u + 50000) * g)%R /\
    (0 <= value (add (ps_year_interest s) (mul c1 rpp)) <= (u + 50000) * g)%R).
  { intros c1 [Hc10 Hc1].
    assert (Hi : (0 <= value (mul c1 rpp)
                  <= (u + 50000) * (1 + delta) * value rpp * (1 + delta))%R).
    { apply mul_upper; try assumption. apply Rmult_le_compat_r; assumption. }
    assert (Hq : ((1 + delta) * (1 + delta) <= 1 + / 1000)%R) by nra.
    assert (Hprod : (0 <= (u + 50000) * value rpp)%R)
      by (apply Rmult_le_pos; lra).
    split.
    - pose proof (add_upper c1 (mul c1 rpp)
        ((u + 50000) * (1 + delta) + (u + 50000) * (1 + delta) * value rpp * (1 + delta))
        Hc10 (proj1 Hi) ltac:(lra)) as [H1 H2].
      split; [exact H1|]. eapply Rle_trans; [exact H2|].
      assert (Hb : ((u + 50000) * (1 + delta) + (u + 50000) * (1 + delta) * value rpp * (1 + delta)
                    = (u + 50000) * ((1 + delta) * (1 + value rpp * (1 + delta))))%R) by ring.
      rewrite Hb, Rmult_assoc. apply Rmult_le_compat_l; [lra|].
      eapply Rle_trans; [|exact Hg].
      assert (0 <= value rpp * delta)%R by (apply Rmult_le_pos; lra).
      nra.
    - pose proof (add_upper (ps_year_interest s) (mul c1 rpp)
        (u + (u + 50000) * (1 + delta) * value rpp * (1 + delta))
        Hyi0 (proj1 Hi) ltac:(lra)) as [H1 H2].
      split; [exact H1|]. eapply Rle_trans; [exact H2|].
      assert (Hb : ((u + (u + 50000) * (1 + delta) * value rpp * (1 + delta)) * (1 + delta)
                    <= (u + 50000) * ((1 + value rpp * ((1 + delta) * (1 + delta))) * (1 + delta)))%R)
        by nra.
      eapply Rle_trans; [exact Hb|]. apply Rmult_le_compat_l; [lra|].
      eapply Rle_trans; [|exact Hg].
      assert (0 <= value rpp)%R by lra.
      apply Rmult_le_compat; try lra; nra. }
  unfold period_body, capped.
  destruct ((f =? "monthly") && ltb (of_Z 0) mp).
  - cbn [ps_current_amount ps_year_contributions ps_year_interest].
    pose proof (add_upper (ps_current_amount s) mp (u + 50000) Hc0 (proj1 Hmp) ltac:(lra))
      as Hc1.
    pose proof (add_upper (ps_year_contributions s) mp (u + 50000) Hyc0 (proj1 Hmp) ltac:(lra))
      as [Hy1 Hy2].
    destruct (Hstep _ Hc1) as [Ha Hb].
    repeat split; try apply Ha; try apply Hb; try exact Hy1.
    eapply Rle_trans; [exact Hy2|]. apply Rmult_le_compat_l; [lra|]. nra.
  - cbn [ps_current_amount ps_year_contributions ps_year_interest].
    assert (Hc1 : (0 <= value (ps_current_amount s) <= (u + 50000) * (1 + delta))%R) by nra.
    destruct (Hstep _ Hc1) as [Ha Hb].
    repeat split; try apply Ha; try apply Hb; try exact Hyc0. nra.
Qed.

Lemma period_loop_capped n : forall u s,
  capped u s -> capped (periods_cap n g u) (period_loop n f mp rpp s).
Proof using Hmp Hrpp Hg.
  induction n as [|n IH]; intros u s H; cbn [period_loop periods_cap]; [exact H|].
  apply IH, period_body_capped, H.
Qed.

Lemma year_end_contribution_capped u s :
  capped u s ->
  capped ((u + 600000) * (101 / 100)) (year_end_contribution f mp s).
Proof using Hmp.
  intros [[Hc0 Hc] [[Hyc0 Hyc] [Hyi0 Hyi]]].
  destruct delta_tiny as [Hd0 Hd1].
  unfold year_end_contribution, capped.
  destruct (in_list f ["quarterly"; "yearly"] && ltb (of_Z 0) mp).
  - cbn [ps_current_amount ps_year_contributions ps_year_interest].
    assert (H12 : (0 <= value (of_Z 12))%R) by (rewrite value_of_Z; lra).
    pose proof (mul_upper mp (of_Z 12) 600000 (proj1 Hmp) H12
                  ltac:(rewrite value_of_Z; lra)) as [Ha0 Ha].
    pose proof (add_upper (ps_current_amount s) (mul mp (of_Z 12))
                  (u + 600000 * (1 + delta)) Hc0 Ha0 ltac:(lra)) as [H1 H2].
    pose proof (add_upper (ps_year_contributions s) (mul mp (of_Z 12))
                  (u + 600000 * (1 + delta)) Hyc0 Ha0 ltac:(lra)) as [H3 H4].
    assert (Hb : ((u + 600000 * (1 + delta)) * (1 + delta)
                  <= (u + 600000) * (101 / 100))%R) by nra.
    repeat split; try assumption; try lra.
  - repeat split; try assumption; nra.
Qed.

End Caps.

(** ** Roundings that succeed *)

Lemma allowed_frequency_cases f :
  in_list f allowed_frequencies = true ->
  f = "monthly" \/ f = "quarterly" \/ f = "yearly".
Proof.
  unfold in_list, allowed_frequencies. cbn [existsb]. rewrite !orb_true_iff.
  intros [H|[H|[H|H]]]; try discriminate; apply String.eqb_eq in H; subst; tauto.
Qed.

Lemma year_cap f u :
  in_list f allowed_frequencies = true -> (0 <= u)%R ->
  ((periods_cap (periods_of f) (period_cap f) u + 600000) * (101 / 100)
   <= 2 * (u + 1000000))%R.
Proof.
  intros Hf Hu. destruct (allowed_frequency_cases f Hf) as [-> | [-> | ->]].
  - change (periods_of "monthly") with 12%nat.
    change (period_cap "monthly") with (102 / 100)%R.
    cbn [periods_cap]. lra.
  - change (periods_of "quarterly") with 4%nat.
    change (period_cap "quarterly") with (106 / 100)%R.
    cbn [periods_cap]. lra.
  - change (periods_of "yearly") with 1%nat.
    change (period_cap "yearly") with (121 / 100)%R.
    cbn [periods_cap]. lra.
Qed.

Lemma years_cap_succ j : (2 * (years_cap j + 1000000) = years_cap (S j))%R.
Proof. unfold years_cap. cbn [pow]. ring. Qed.

Lemma years_cap_bound j :
  (j <= 50)%nat -> (1 <= years_cap j < 20000000000000000000000)%R.
Proof.
  intros Hj. unfold years_cap.
  assert (H1 : (1 <= 2 ^ j)%R) by (apply pow_R1_Rle; lra).
  assert (H2 : (2 ^ j <= 2 ^ 50)%R) by (apply Rle_pow; [lra|lia]).
  assert (H50 : (2 ^ 50 = 1125899906842624)%R).
  { rewrite pow_IZR. apply f_equal. reflexivity. }
  rewrite H50 in H2. lra.
Qed.

Lemma quantize2_returns d :
  (Rabs (value d) < powerRZ 10 25)%R -> exists q, quantize2 d = Ok q.
Proof.
  intros H. rewrite quantize2_unfold. cbv zeta.
  set (n := Z.abs (d_int d)) in *.
  destruct (n =? 0)%Z eqn:E0; [eexists; reflexivity|].
  apply Z.eqb_neq in E0.
  assert (Hn : 0 < n) by (unfold n in *; lia).
  pose proof (ndigits_spec n Hn) as [Hlo Hhi].
  pose proof (ndigits_ge1 n) as Hge1.
  assert (Hexp : d_exp d + ndigits n <= 25).
  { rewrite value_abs in H. fold n in H.
    assert (Hle : (powerRZ 10 (ndigits n - 1 + d_exp d) <= IZR n * powerRZ 10 (d_exp d))%R).
    { rewrite p10_add. apply Rmult_le_compat_r; [pose proof (p10_pos (d_exp d)); lra|].
      rewrite <- p10_IZR by lia. apply IZR_le. exact Hlo. }
    assert (Hlt : (powerRZ 10 (ndigits n - 1 + d_exp d) < powerRZ 10 25)%R) by lra.
    apply p10_lt_inv in Hlt. lia. }
  replace (26 <? d_exp d + ndigits n)%Z with false by (symmetry; apply Z.ltb_ge; lia).
  assert (Hq : ndigits (quant_mag n (d_exp d)) <= prec).
  { unfold quant_mag. destruct (-2 <=? d_exp d)%Z eqn:E2.
    - apply Z.leb_le in E2. rewrite ndigits_mul_pow by lia. unfold prec. lia.
    - apply Z.leb_gt in E2.
      pose proof (round_half_up_bounds n (-2 - d_exp d) ltac:(lia) ltac:(lia)) as [[Hr0 Hr1] _].
      apply (ndigits_lt_pow _ prec); [|unfold prec; lia|].
      + eapply Z.le_trans; [|exact Hr0]. apply Z.div_pos; [lia|]. apply pow10_gt0. lia.
      + destruct (Z_lt_le_dec (ndigits n) (-2 - d_exp d)) as [Hsmall|Hbig].
        * assert (n / 10 ^ (-2 - d_exp d) = 0).
          { apply Z.div_small. split; [lia|].
            eapply Z.lt_le_trans; [exact Hhi|]. apply pow10_le_mono. lia. }
          unfold prec. assert (1 < 10 ^ 28) by (vm_compute; reflexivity). lia.
        * assert (Hdiv : n / 10 ^ (-2 - d_exp d) < 10 ^ (ndigits n - (-2 - d_exp d))).
          { apply Z.div_lt_upper_bound; [apply pow10_gt0; lia|].
            rewrite <- Z.pow_add_r by lia.
            replace (-2 - d_exp d + (ndigits n - (-2 - d_exp d))) with (ndigits n) by lia.
            exact Hhi. }
          assert (Hpw : 10 ^ (ndigits n - (-2 - d_exp d)) <= 10 ^ 27)
            by (apply pow10_le_mono; lia).
          unfold prec. assert (10 ^ 27 < 10 ^ 28) by (vm_compute; reflexivity). lia. }
  replace (prec <? ndigits (quant_mag n (d_exp d)))%Z with false
    by (symmetry; apply Z.ltb_ge; exact Hq).
  eexists; reflexivity.
Qed.

Lemma quantize2_returns_nonneg d u :
  (0 <= value d <= u)%R -> (u < powerRZ 10 25)%R -> exists q, quantize2 d = Ok q.
Proof.
  intros [H0 H1] Hu. apply quantize2_returns. rewrite Rabs_pos_eq; lra.
Qed.

Lemma div_upper_ge1 a b q :
  (0 <= value a)%R -> (1 <= value b)%R -> div a b = Ok q ->
  (0 <= value q <= value a * (1 + 2 * delta))%R.
Proof.
  intros Ha Hb H. destruct delta_tiny as [Hd0 _].
  split; [eapply div_nonneg; [exact Ha| |exact H]; lra|].
  destruct (Req_dec (value a) 0) as [Ha0|Ha0].
  - apply value_zero_iff in Ha0. pose proof (div_zero_l _ _ _ Ha0 H) as Hq.
    apply value_zero_iff in Hq. apply value_zero_iff in Ha0. rewrite Hq, Ha0. lra.
  - pose proof (div_rel a b q ltac:(lra) ltac:(lra) H) as [_ Hhi].
    assert (Hq0 : (0 <= value q)%R) by (eapply div_nonneg; [exact Ha| |exact H]; lra).
    nra.
Qed.

Lemma growth_rate_returns c0 c u :
  (1 <= value c0 <= value c)%R -> (value c <= u)%R ->
  (u < 20000000000000000000000)%R ->
  fits_precision c0 = true ->
  exists g q, year_growth_rate c0 c = Ok g /\ quantize2 g = Ok q.
Proof.
  intros [H1 Hc] Hu Hu23 Hfit. destruct delta_tiny as [Hd0 Hd1].
  unfold year_growth_rate.
  assert (Hpos : ltb (of_Z 0) c0 = true) by (apply ltb_value; rewrite value_of_Z; lra).
  rewrite Hpos.
  destruct (div_nonzero (sub c c0) c0) as [q Hq]; [apply value_nonzero; lra|].
  rewrite Hq. cbn [bind].
  assert (Hnum : (0 <= value (sub c c0) <= u * (1 + delta))%R).
  { rewrite value_sub.
    assert (Hs : (0 <= value (exact_sum c (neg c0)) <= u)%R)
      by (rewrite value_exact_sum, value_neg; lra).
    pose proof (fix_rel _ (proj1 Hs)) as [_ Hhi].
    split; [apply fix_nonneg; lra|].
    eapply Rle_trans; [exact Hhi|]. apply Rmult_le_compat_r; lra. }
  destruct (div_upper_ge1 _ _ _ (proj1 Hnum) H1 Hq) as [Hq0 Hq1].
  assert (H100 : (0 <= value (of_Z 100))%R) by (rewrite value_of_Z; lra).
  assert (Hu0 : (0 <= u)%R) by lra.
  assert (Hqu : (value q <= u * (1 + / 1000))%R).
  { assert (Hf : ((1 + delta) * (1 + 2 * delta) <= 1 + / 1000)%R) by nra.
    eapply Rle_trans; [exact Hq1|].
    eapply Rle_trans; [apply Rmult_le_compat_r; [lra|exact (proj2 Hnum)]|].
    rewrite Rmult_assoc. apply Rmult_le_compat_l; assumption. }
  assert (Hq100 : (value q * value (of_Z 100) <= u * (1 + / 1000) * 100)%R)
    by (rewrite value_of_Z; lra).
  pose proof (mul_upper q (of_Z 100) (u * (1 + / 1000) * 100) Hq0 H100 Hq100) as [Hg0 Hg1].
  destruct (quantize2_returns_nonneg (mul q (of_Z 100)) (u * (1 + / 1000) * 100 * (1 + delta))
              (conj Hg0 Hg1)) as [qg Hqg].
  - assert (H25 : powerRZ 10 25 = 10000000000000000000000000%R)
      by (rewrite <- (p10_IZR 25) by lia; reflexivity).
    rewrite H25.
    assert (Hud : (u * delta <= u * / 10000)%R) by (apply Rmult_le_compat_l; assumption).
    lra.
  - exists (mul q (of_Z 100)), qg. split; [reflexivity | exact Hqg].
Qed.

(** ** The calculation returns (X10) *)

Lemma year_amounts_grows f n mp rpp y :
  (0 <= value rpp)%R ->
  (0 <= value (ys_current_amount y))%R ->
  fits_precision (ys_current_amount y) = true ->
  (value (ys_current_amount y) <= value (ps_current_amount (year_amounts f n mp rpp y)))%R /\
  fits_precision (ps_current_amount (year_amounts f n mp rpp y)) = true.
Proof.
  intros Hrpp H0 Hfit.
  destruct (period_loop_grows f mp rpp Hrpp n
              (mkPeriodState (ys_current_amount y) (of_Z 0)
                             (ys_total_contributions y) (of_Z 0)) H0 Hfit) as [Hg1 Hg2].
  cbn [ps_current_amount] in Hg1.
  unfold year_amounts, year_end_contribution.
  destruct (in_list f ["quarterly"; "yearly"] && ltb (of_Z 0) mp) eqn:E;
    [|split; assumption].
  apply andb_prop in E. destruct E as [_ E]. apply ltb_zero_value in E.
  cbn [ps_current_amount]. split; [|apply add_fits].
  eapply Rle_trans; [exact Hg1|]. apply add_ge_l; [assumption|].
  apply mul_nonneg; [lra | rewrite value_of_Z; lra].
Qed.

Section Returns.

Variables (f : string) (mp rpp : Decimal).
Hypothesis Hf : in_list f allowed_frequencies = true.
Hypothesis Hmp : (0 <= value mp <= 50000)%R.
Hypothesis Hrpp : (0 <= value rpp)%R.
Hypothesis Hg : ((1 + value rpp * (1 + / 1000)) * (1 + / 1000) <= period_cap f)%R.

Lemma year_amounts_capped j y :
  (0 <= value (ys_current_amount y) <= years_cap j)%R ->
  capped (years_cap (S j)) (year_amounts f (periods_of f) mp rpp y).
Proof using Hf Hmp Hrpp Hg.
  intros Hy. unfold year_amounts.
  set (s0 := mkPeriodState _ _ _ _).
  assert (H0 : capped (years_cap j) s0).
  { unfold capped, s0. cbn [ps_current_amount ps_year_contributions ps_year_interest].
    rewrite value_of_Z. repeat split; lra. }
  pose proof (period_loop_capped f mp rpp (period_cap f) Hmp Hrpp Hg (periods_of f) _ _ H0)
    as H1.
  pose proof (year_end_contribution_capped f mp Hmp _ _ H1) as [[A1 A2] [[B1 B2] [C1 C2]]].
  pose proof (year_cap f (years_cap j) Hf ltac:(lra)) as Hcap.
  rewrite years_cap_succ in Hcap.
  unfold capped. repeat split; try assumption; lra.
Qed.

Lemma year_body_returns j yr y :
  (S j <= 50)%nat ->
  (1 <= value (ys_current_amount y) <= years_cap j)%R ->
  fits_precision (ys_current_amount y) = true ->
  exists y',
    year_body f (periods_of f) mp rpp yr y = Ok y' /\
    (1 <= value (ys_current_amount y') <= years_cap (S j))%R /\
    fits_precision (ys_current_amount y') = true.
Proof using Hf Hmp Hrpp Hg.
  intros Hj [Hy1 Hyj] Hfit.
  pose proof (year_amounts_capped j y ltac:(lra)) as [[A1 A2] [[B1 B2] [C1 C2]]].
  destruct (year_amounts_grows f (periods_of f) mp rpp y Hrpp ltac:(lra) Hfit) as [Hgrow Hfit'].
  destruct (years_cap_bound (S j) Hj) as [_ Hb1].
  destruct (years_cap_bound j ltac:(lia)) as [_ Hb0].
  assert (H25 : powerRZ 10 25 = 10000000000000000000000000%R)
    by (rewrite <- (p10_IZR 25) by lia; reflexivity).
  unfold year_body.
  set (s := year_amounts f (periods_of f) mp rpp y) in *.
  destruct (growth_rate_returns (ys_current_amount y) (ps_current_amount s) (years_cap (S j))
              ltac:(lra) A2 Hb1 Hfit) as [g [qg [Hgr Hqg]]].
  rewrite Hgr. cbn [bind].
  destruct (quantize2_returns_nonneg (ys_current_amount y) (years_cap j))
    as [q1 ->]; [lra | lra |]. cbn [bind].
  destruct (quantize2_returns_nonneg (ps_year_contributions s) (years_cap (S j)))
    as [q2 ->]; [lra | lra |]. cbn [bind].
  destruct (quantize2_returns_nonneg (ps_year_interest s) (years_cap (S j)))
    as [q3 ->]; [lra | lra |]. cbn [bind].
  destruct (quantize2_returns_nonneg (ps_current_amount s) (years_cap (S j)))
    as [q4 ->]; [lra | lra |]. cbn [bind].
  rewrite Hqg. cbn [bind].
  eexists. split; [reflexivity|]. cbn [ys_current_amount].
  split; [lra | exact Hfit'].
Qed.

Lemma year_loop_returns k : forall j yr y,
  (j + k <= 50)%nat ->
  (1 <= value (ys_current_amount y) <= years_cap j)%R ->
  fits_precision (ys_current_amount y) = true ->
  exists y',
    year_loop k f (periods_of f) mp rpp yr y = Ok y' /\
    (1 <= value (ys_current_amount y') <= years_cap (j + k))%R.
Proof using Hf Hmp Hrpp Hg.
  induction k as [|k IH]; intros j yr y Hjk Hy Hfit.
  - exists y. split; [reflexivity|]. rewrite Nat.add_0_r. exact Hy.
  - destruct (year_body_returns j yr y ltac:(lia) Hy Hfit) as [y1 [Hb [Hy1 Hfit1]]].
    destruct (IH (S j) (yr + 1) y1 ltac:(lia) Hy1 Hfit1) as [y' [Hl Hy']].
    exists y'. split.
    + cbn [year_loop]. rewrite Hb. cbn [bind]. exact Hl.
    + replace (j + S k)%nat with (S j + k)%nat by lia. exact Hy'.
Qed.

End Returns.

(** X10.  Behind the input validation of the export routes the
    calculation itself never raises: for an input that
    [CalculatorInputValidator] accepts (principal with at most 28
    significant digits), the loop over the years and every rounding of an
    amount succeed.  When the call raises, the exception comes from the
    power of the annualised return or from the rounding of that return. *)
Theorem X10_service_raises_only_in_annual_return :
  forall power now v,
    validator_accepts v = true ->
    fits_precision (v_principal v) = true ->
    match calculate_compound_interest power now (as_request v) with
    | Ok _ => True
    | Raise e =>
        exists ratio exponent,
          power ratio exponent = Raise e \/
          exists p, power ratio exponent = Ok p /\
                    quantize2 (mul (sub p (of_Z 1)) (of_Z 100)) = Raise e
    end.
Proof.
  intros power now v Hv Hfit.
  apply validator_accepts_bounds in Hv. destruct Hv as [Hb Hf].
  destruct (field_bounds_values v Hb) as [[Hp0 Hp1] [Hmp [[Hr0 Hr1] [Hy0 Hy1]]]].
  unfold calculate_compound_interest, as_request.
  cbn [principal monthly_payment annual_rate years compound_frequency].
  destruct (div_nonzero (v_annual_rate v) (of_Z 100)) as [ar Har]; [discriminate|].
  rewrite Har. cbn [bind].
  destruct (rate_per_period_total (v_compound_frequency v) ar) as [rpp Hrpp].
  rewrite Hrpp. cbn [bind].
  assert (Hr0' : leb (of_Z 0) (v_annual_rate v) = true)
    by (apply leb_value; rewrite value_of_Z; exact Hr0).
  assert (Hr1' : leb (v_annual_rate v) (of_Z 20) = true)
    by (apply leb_value; rewrite value_of_Z; exact Hr1).
  destruct (rate_per_period_cap _ _ _ _ Hf Hr0' Hr1' Har Hrpp) as [Hrpp0 Hg].
  set (K := Z.to_nat (v_years v)).
  assert (HK : (0 + K <= 50)%nat) by (unfold K; lia).
  assert (Hstart : (1 <= value (v_principal v) <= years_cap 0)%R)
    by (unfold years_cap; cbn [pow]; lra).
  destruct (year_loop_returns (v_compound_frequency v) (v_monthly_payment v) rpp
              Hf Hmp Hrpp0 Hg K 0%nat 1
              (mkYearState (v_principal v) (v_principal v) []) HK Hstart Hfit)
    as [y [Hloop [Hyge Hycap]]].
  rewrite Hloop. cbn [bind].
  destruct (year_loop_not_losing (v_compound_frequency v) (v_monthly_payment v) rpp Hrpp0
              K (periods_of (v_compound_frequency v)) 1 _ y Hloop) as [[Ht0 Htc] _];
    cbn [ys_current_amount ys_total_contributions ys_yearly_breakdown];
    [lra | exact Hfit | constructor |].
  destruct (years_cap_bound (0 + K) HK) as [_ Hcap].
  assert (H25 : powerRZ 10 25 = 10000000000000000000000000%R)
    by (rewrite <- (p10_IZR 25) by lia; reflexivity).
  destruct (quantize2_returns_nonneg (ys_current_amount y) (years_cap (0 + K)))
    as [qF HqF]; [lra | lra |].
  destruct (quantize2_returns_nonneg (ys_total_contributions y) (years_cap (0 + K)))
    as [qT HqT]; [lra | lra |].
  destruct (quantize2_returns_nonneg (sub (ys_current_amount y) (ys_total_contributions y))
              (years_cap (0 + K) * (1 + delta))) as [qI HqI].
  { rewrite value_sub.
    assert (Hs : (0 <= value (exact_sum (ys_current_amount y) (neg (ys_total_contributions y)))
                  <= years_cap (0 + K))%R)
      by (rewrite value_exact_sum, value_neg; lra).
    pose proof (fix_rel _ (proj1 Hs)) as [_ Hhi]. destruct delta_tiny as [Hd0 Hd1].
    split; [apply fix_nonneg; lra|].
    eapply Rle_trans; [exact Hhi|]. apply Rmult_le_compat_r; lra. }
  { destruct delta_tiny as [Hd0 Hd1].
    assert (Hud : (years_cap (0 + K) * delta <= years_cap (0 + K) * / 10000)%R)
      by (apply Rmult_le_compat_l; lra).
    lra. }
  unfold annual_return_of.
  destruct (ltb (of_Z 0) (ys_total_contributions y) && (0 <? v_years v)%Z) eqn:E.
  - apply andb_prop in E. destruct E as [E _]. apply ltb_zero_value in E.
    destruct (div_nonzero (ys_current_amount y) (ys_total_contributions y))
      as [ratio Hratio]; [apply value_nonzero; exact E|].
    destruct (div_nonzero (of_Z 1) (of_Z (v_years v))) as [exponent Hexp];
      [cbn [d_int of_Z]; lia|].
    rewrite Hratio, Hexp. cbn [bind].
    destruct (power ratio exponent) as [p|e] eqn:Hpow; cbn [bind].
    + rewrite HqF, HqT, HqI. cbn [bind].
      destruct (quantize2 (mul (sub p (of_Z 1)) (of_Z 100))) as [qr|e] eqn:Hqr;
        cbn [bind]; [exact I|].
      exists ratio, exponent. right. exists p. split; assumption.
    + exists ratio, exponent. left. exact Hpow.
  - cbn [bind]. rewrite HqF, HqT, HqI. cbn [bind].
    change (quantize2 (of_Z 0)) with (Ok (mkDecimal 0 (-2))). cbn [bind]. exact I.
Qed.

Lemma X10_service_raises_only_in_annual_return_witness :
  match calculate_compound_interest power_one "t"
          (as_request (mkValidator (of_Z 10000) (of_Z 500) (of_Z 4) 10 "monthly")) with
  | Ok _ => True
  | Raise e =>
      exists ratio exponent,
        power_one ratio exponent = Raise e \/
        exists p, power_one ratio exponent = Ok p /\
                  quantize2 (mul (sub p (of_Z 1)) (of_Z 100)) = Raise e
  end.
Proof.
  apply X10_service_raises_only_in_annual_return; vm_compute; reflexivity.
Defined.

(** ** A request on which the service raises (X11) *)

Lemma quantize2_exn d e : quantize2 d = Raise e -> e = InvalidOperation.
Proof.
  rewrite quantize2_unfold. cbv zeta.
  destruct (_ =? 0)%Z; [discriminate|].
  destruct (26 <? _)%Z; [intros H; injection H as <-; reflexivity|].
  destruct (prec <? _)%Z; [intros H; injection H as <-; reflexivity|discriminate].
Qed.

Lemma quantize2_raises d :
  (powerRZ 10 26 <= value d)%R -> quantize2 d = Raise InvalidOperation.
Proof.
  intros H. destruct (quantize2 d) as [q|e] eqn:E.
  - apply quantize2_Ok_bound in E.
    pose proof (p10_pos 26). rewrite Rabs_pos_eq in E; lra.
  - rewrite (quantize2_exn _ _ E). reflexivity.
Qed.

Lemma year_body_raises f n mp rpp yr y g :
  year_growth_rate (ys_current_amount y)
    (ps_current_amount (year_amounts f n mp rpp y)) = Ok g ->
  quantize2 g = Raise InvalidOperation ->
  year_body f n mp rpp yr y = Raise InvalidOperation.
Proof.
  intros Hg Hq. unfold year_body. rewrite Hg. cbn [bind].
  destruct (quantize2 (ys_current_amount y)) as [?|e] eqn:E1;
    [|rewrite (quantize2_exn _ _ E1); reflexivity]. cbn [bind].
  destruct (quantize2 (ps_year_contributions _)) as [?|e] eqn:E2;
    [|rewrite (quantize2_exn _ _ E2); reflexivity]. cbn [bind].
  destruct (quantize2 (ps_year_interest _)) as [?|e] eqn:E3;
    [|rewrite (quantize2_exn _ _ E3); reflexivity]. cbn [bind].
  destruct (quantize2 (ps_current_amount _)) as [?|e] eqn:E4;
    [|rewrite (quantize2_exn _ _ E4); reflexivity]. cbn [bind].
  rewrite Hq. reflexivity.
Qed.

Lemma add_lower a b :
  (0 <= value a)%R -> (0 <= value b)%R ->
  (value b * (1 - delta) <= value (add a b))%R.
Proof.
  intros Ha Hb. destruct delta_tiny as [Hd0 Hd1].
  pose proof (add_rel a b ltac:(lra)) as [H _].
  eapply Rle_trans; [|exact H]. apply Rmult_le_compat_r; lra.
Qed.

(** After a year with payments the current amount is at least one
    payment, up to roundings. *)
Lemma year_amounts_at_least_payment f mp rpp y :
  in_list f allowed_frequencies = true ->
  (0 <= value rpp)%R -> (0 < value mp)%R ->
  (0 <= value (ys_current_amount y))%R ->
  (value mp * (1 - / 1000)
   <= value (ps_current_amount (year_amounts f (periods_of f) mp rpp y)))%R.
Proof.
  intros Hf Hrpp Hmp Hy. destruct delta_tiny as [Hd0 Hd1].
  assert (Hpos : ltb (of_Z 0) mp = true) by (apply ltb_value; rewrite value_of_Z; exact Hmp).
  destruct (allowed_frequency_cases f Hf) as [-> | Hqy].
  - change (periods_of "monthly") with 12%nat.
    unfold year_amounts, year_end_contribution.
    change (in_list "monthly" ["quarterly"; "yearly"]) with false. cbn [andb].
    set (s0 := mkPeriodState _ _ _ _).
    change (period_loop 12 "monthly" mp rpp s0)
      with (period_loop 11 "monthly" mp rpp (period_body "monthly" mp rpp s0)).
    set (s1 := period_body "monthly" mp rpp s0).
    assert (Hs1 : (value mp * (1 - delta) <= value (ps_current_amount s1))%R /\
                  fits_precision (ps_current_amount s1) = true).
    { unfold s1, period_body, s0. change ("monthly" =? "monthly") with true.
      rewrite Hpos. cbn [andb ps_current_amount].
      set (c1 := add (ys_current_amount y) mp).
      assert (Hc1 : (value mp * (1 - delta) <= value c1)%R)
        by (apply add_lower; lra).
      assert (Hc10 : (0 <= value c1)%R) by (apply add_nonneg; lra).
      split; [|apply add_fits].
      eapply Rle_trans; [exact Hc1|]. apply add_ge_l; [apply add_fits|].
      apply mul_nonneg; assumption. }
    destruct Hs1 as [Hs1 Hfit1].
    assert (Hmd0 : (value mp * delta <= value mp * / 10000)%R)
      by (apply Rmult_le_compat_l; lra).
    assert (Hs10 : (0 <= value (ps_current_amount s1))%R) by lra.
    destruct (period_loop_grows "monthly" mp rpp Hrpp 11 s1 Hs10 Hfit1) as [Hg _].
    assert (Hmd : (value mp * delta <= value mp * / 10000)%R)
      by (apply Rmult_le_compat_l; lra).
    lra.
  - rewrite (year_current_year_end f _ mp rpp y Hqy Hpos).
    assert (Hacc : (0 <= value (accrue_n (periods_of f) rpp (ys_current_amount y)))%R)
      by (apply accrue_n_bounds; assumption).
    assert (H12 : (0 <= value (of_Z 12))%R) by (rewrite value_of_Z; lra).
    assert (Ha : (value mp * 12 * (1 - delta) <= value (mul mp (of_Z 12)))%R).
    { pose proof (mul_rel mp (of_Z 12)) as H. rewrite value_of_Z in H.
      apply H. lra. }
    assert (Ha0 : (0 <= value (mul mp (of_Z 12)))%R) by (apply mul_nonneg; lra).
    pose proof (add_lower _ _ Hacc Ha0) as Hsum.
    assert (Hmd : (value mp * delta <= value mp * / 10000)%R)
      by (apply Rmult_le_compat_l; lra).
    assert (Hstep : (value mp * 12 * (1 - delta) * (1 - delta)
                     <= value (mul mp (of_Z 12)) * (1 - delta))%R)
      by (apply Rmult_le_compat_r; lra).
    assert (Hmdd : (0 <= value mp * delta * delta)%R)
      by (apply Rmult_le_pos; [apply Rmult_le_pos|]; lra).
    lra.
Qed.

Lemma growth_rate_too_large c0 c :
  (0 < value c0)%R ->
  (powerRZ 10 25 * (1 - / 100) * value c0 <= value c)%R ->
  exists g, year_growth_rate c0 c = Ok g /\ quantize2 g = Raise InvalidOperation.
Proof.
  intros H0 Hc. destruct delta_tiny as [Hd0 Hd1].
  assert (H25 : powerRZ 10 25 = 10000000000000000000000000%R)
    by (rewrite <- (p10_IZR 25) by lia; reflexivity).
  assert (H26 : powerRZ 10 26 = 100000000000000000000000000%R)
    by (rewrite <- (p10_IZR 26) by lia; reflexivity).
  rewrite H25 in Hc.
  unfold year_growth_rate.
  assert (Hpos : ltb (of_Z 0) c0 = true) by (apply ltb_value; rewrite value_of_Z; lra).
  rewrite Hpos.
  destruct (div_nonzero (sub c c0) c0) as [q Hq]; [apply value_nonzero; lra|].
  rewrite Hq. cbn [bind].
  exists (mul q (of_Z 100)). split; [reflexivity|].
  apply quantize2_raises. rewrite H26.
  set (K := 9800000000000000000000000%R).
  assert (Hnum : (K * value c0 <= value (sub c c0))%R).
  { rewrite value_sub.
    assert (Hs : (0 <= value (exact_sum c (neg c0)))%R)
      by (rewrite value_exact_sum, value_neg; nra).
    pose proof (fix_rel _ Hs) as [Hlo _].
    rewrite value_exact_sum, value_neg in Hlo.
    eapply Rle_trans; [|exact Hlo]. unfold K. nra. }
  assert (Hnum0 : (0 < value (sub c c0))%R) by (unfold K in Hnum; nra).
  pose proof (div_rel _ _ _ Hnum0 H0 Hq) as [Hlo _].
  assert (Hq1 : (K * (1 - / 1000) <= value q)%R).
  { apply (Rmult_le_reg_r (value c0)); [exact H0|].
    eapply Rle_trans; [|exact Hlo].
    assert (H1 : (K * value c0 * (1 - 2 * delta) <= value (sub c c0) * (1 - 2 * delta))%R)
      by (apply Rmult_le_compat_r; lra).
    eapply Rle_trans; [|exact H1].
    assert (0 <= K * value c0)%R by (unfold K; nra).
    nra. }
  assert (Hq0 : (0 <= value q * value (of_Z 100))%R)
    by (rewrite value_of_Z; unfold K in Hq1; lra).
  pose proof (mul_rel q (of_Z 100) Hq0) as [Hm _]. rewrite value_of_Z in Hm.
  eapply Rle_trans; [|exact Hm].
  unfold K in Hq1. nra.
Qed.

(** X11.  The service raises on requests that the request model accepts:
    when the monthly payment is at least 10^25 times the principal (for
    instance a principal of 1e-21 with a payment of 10,000), the growth
    rate of the first year has more than 28 digits at two places, its
    rounding raises [decimal.InvalidOperation], and so does the call. *)
Theorem X11_tiny_principal_raises :
  forall power now req,
    model_accepts req = true ->
    leb (exact_product (mkDecimal 1 25) (principal req)) (monthly_payment req) = true ->
    calculate_compound_interest power now req = Raise InvalidOperation.
Proof.
  intros power now req Hm Hbig.
  apply model_accepts_true in Hm. rewrite !andb_true_iff in Hm.
  destruct Hm as [[Hp0 _] [_ [[Hr0 _] [[Hy0 _] Hf]]]].
  apply ltb_zero_value in Hp0. apply Z.ltb_lt in Hy0.
  apply leb_value in Hbig. rewrite value_exact_product, value_mk in Hbig.
  replace (IZR 1 * powerRZ 10 25)%R with (powerRZ 10 25) in Hbig by ring.
  assert (H25 : powerRZ 10 25 = 10000000000000000000000000%R)
    by (rewrite <- (p10_IZR 25) by lia; reflexivity).
  assert (Hmp : (0 < value (monthly_payment req))%R) by (rewrite H25 in Hbig; nra).
  unfold calculate_compound_interest.
  destruct (div_nonzero (annual_rate req) (of_Z 100)) as [ar Har]; [discriminate|].
  rewrite Har. cbn [bind].
  destruct (rate_per_period_total (compound_frequency req) ar) as [rpp Hrpp].
  rewrite Hrpp. cbn [bind].
  assert (Hr0' : leb (of_Z 0) (annual_rate req) = true).
  { apply leb_value. apply ltb_value in Hr0. lra. }
  pose proof (rate_per_period_nonneg _ _ _ _ Hr0' Har Hrpp) as Hrpp0.
  destruct (Z.to_nat (years req)) as [|k] eqn:Ek; [lia|].
  cbn [year_loop].
  set (y0 := mkYearState (principal req) (principal req) []).
  pose proof (year_amounts_at_least_payment (compound_frequency req) (monthly_payment req)
                rpp y0 Hf Hrpp0 Hmp ltac:(cbn [y0 ys_current_amount]; lra)) as Hend.
  destruct (growth_rate_too_large (ys_current_amount y0)
              (ps_current_amount (year_amounts (compound_frequency req)
                 (periods_of (compound_frequency req)) (monthly_payment req) rpp y0)))
    as [g [Hg Hq]].
  - exact Hp0.
  - cbn [y0 ys_current_amount]. eapply Rle_trans; [|exact Hend].
    rewrite H25 in *.
    assert (H1 : (10000000000000000000000000 * value (principal req) * (1 - / 1000)
                  <= value (monthly_payment req) * (1 - / 1000))%R)
      by (apply Rmult_le_compat_r; lra).
    lra.
  - rewrite (year_body_raises _ _ _ _ _ _ g Hg Hq). reflexivity.
Qed.

Lemma X11_tiny_principal_raises_witness :
  calculate_compound_interest power_one "t"
    (mkRequest (mkDecimal 1 (-21)) (mkDecimal 100000 (-1)) (mkDecimal 50 (-1)) 1 "monthly")
  = Raise InvalidOperation.
Proof.
  apply X11_tiny_principal_raises; vm_compute; reflexivity.
Defined.

(** * Properties of the security helpers

    ** Sanitising of strings (X17, X18) *)

Lemma remove_chars_filter chars : forall value,
  fold_left (fun v char => remove_char char v) chars value
  = filter (fun c => negb (existsb (N.eqb c) chars)) value.
Proof.
  induction chars as [|a chars IH]; intros value; cbn [fold_left existsb].
  - induction value as [|c l IHl]; [reflexivity|]. cbn [filter negb]. rewrite <- IHl at 1.
    reflexivity.
  - rewrite IH. unfold remove_char.
    induction value as [|c l IHl]; [reflexivity|].
    cbn [filter]. destruct (N.eqb c a); cbn [negb orb filter]; rewrite IHl; reflexivity.
Qed.

Lemma remove_all_dangerous value :
  fold_left (fun v char => remove_char char v) dangerous_chars value
  = filter (fun c => negb (is_dangerous c)) value.
Proof. apply remove_chars_filter. Qed.

Lemma drop_while_suffix p l : exists pre, l = (pre ++ drop_while p l)%list.
Proof.
  induction l as [|c l [pre IH]]; [exists []; reflexivity|].
  cbn [drop_while]. destruct (p c).
  - exists (c :: pre). cbn [app]. f_equal. exact IH.
  - exists []. reflexivity.
Qed.

Lemma drop_while_starts_clean p l : starts_clean p (drop_while p l).
Proof.
  induction l as [|c l IH]; [exact I|].
  cbn [drop_while]. destruct (p c) eqn:E; [exact IH | exact E].
Qed.

Lemma drop_while_clean p l : starts_clean p l -> drop_while p l = l.
Proof. destruct l as [|c l]; [reflexivity|]. cbn. intros ->. reflexivity. Qed.

Lemma starts_clean_prefix p a b : starts_clean p (a ++ b)%list -> starts_clean p a.
Proof. destruct a; [intros; exact I | exact (fun H => H)]. Qed.

Lemma strip_sub isspace l :
  exists pre post, l = (pre ++ strip isspace l ++ post)%list.
Proof.
  unfold strip.
  destruct (drop_while_suffix isspace l) as [pre Hpre].
  destruct (drop_while_suffix isspace (rev (drop_while isspace l))) as [q Hq].
  exists pre, (rev q).
  rewrite <- rev_app_distr, <- Hq, rev_involutive. exact Hpre.
Qed.

Lemma strip_idempotent isspace l : strip isspace (strip isspace l) = strip isspace l.
Proof.
  unfold strip.
  set (a := drop_while isspace l).
  set (b := drop_while isspace (rev a)).
  assert (Ha : starts_clean isspace a) by apply drop_while_starts_clean.
  assert (Hb : starts_clean isspace b) by apply drop_while_starts_clean.
  destruct (drop_while_suffix isspace (rev a)) as [q Hq]. fold b in Hq.
  assert (Har : a = (rev b ++ rev q)%list).
  { rewrite <- rev_app_distr, <- Hq, rev_involutive. reflexivity. }
  assert (Hr : starts_clean isspace (rev b)).
  { apply (starts_clean_prefix _ _ (rev q)). rewrite <- Har. exact Ha. }
  rewrite (drop_while_clean _ _ Hr), rev_involutive, (drop_while_clean _ _ Hb).
  reflexivity.
Qed.

Lemma Forall_sub {A : Type} (P : A -> Prop) (pre l post : list A) :
  Forall P (pre ++ l ++ post)%list -> Forall P l.
Proof.
  intros H. apply Forall_app in H. destruct H as [_ H].
  apply Forall_app in H. tauto.
Qed.

Lemma length_sub {A : Type} (pre l post : list A) :
  (List.length l <= List.length (pre ++ l ++ post))%nat.
Proof. rewrite !List.length_app. lia. Qed.

Lemma slice_to_prefix value stop : exists post, value = (slice_to value stop ++ post)%list.
Proof.
  unfold slice_to. destruct (0 <=? stop)%Z.
  - exists (skipn (Z.to_nat stop) value). symmetry. apply firstn_skipn.
  - exists (skipn (List.length value - Z.to_nat (- stop)) value). symmetry. apply firstn_skipn.
Qed.

Lemma slice_to_length value stop :
  0 <= stop -> Z.of_nat (List.length (slice_to value stop)) <= stop.
Proof.
  intros H. unfold slice_to.
  replace (0 <=? stop)%Z with true by (symmetry; apply Z.leb_le; exact H).
  rewrite List.length_firstn. lia.
Qed.

Lemma filter_clean value :
  Forall (fun c => is_dangerous c = false) value ->
  filter (fun c => negb (is_dangerous c)) value = value.
Proof.
  induction 1 as [|c l Hc _ IH]; [reflexivity|].
  cbn [filter]. rewrite Hc. cbn [negb]. f_equal. exact IH.
Qed.

Lemma filter_all_clean value :
  Forall (fun c => is_dangerous c = false) (filter (fun c => negb (is_dangerous c)) value).
Proof.
  apply Forall_forall. intros c Hc. apply filter_In in Hc. destruct Hc as [_ Hc].
  destruct (is_dangerous c); [discriminate|reflexivity].
Qed.

Lemma sanitize_string_facts isspace value max_length :
  Forall (fun c => is_dangerous c = false) (sanitize_string isspace value max_length) /\
  (0 <= max_length ->
   Z.of_nat (List.length (sanitize_string isspace value max_length)) <= max_length).
Proof.
  unfold sanitize_string. rewrite remove_all_dangerous.
  set (v1 := filter _ value).
  assert (H1 : Forall (fun c => is_dangerous c = false) v1) by apply filter_all_clean.
  set (v2 := if (max_length <? Z.of_nat (List.length v1))%Z then slice_to v1 max_length else v1).
  assert (H2 : Forall (fun c => is_dangerous c = false) v2 /\
               (0 <= max_length -> Z.of_nat (List.length v2) <= max_length)).
  { unfold v2. destruct (max_length <? Z.of_nat (List.length v1))%Z eqn:E.
    - split.
      + destruct (slice_to_prefix v1 max_length) as [post Hpost].
        rewrite Hpost in H1. apply Forall_app in H1. tauto.
      + apply slice_to_length.
    - apply Z.ltb_ge in E. split; [exact H1 | intros _; exact E]. }
  destruct H2 as [H2 H3].
  destruct (strip_sub isspace v2) as [pre [post Hsub]].
  split.
  - rewrite Hsub in H2. exact (Forall_sub _ _ _ _ H2).
  - intros Hm. specialize (H3 Hm).
    pose proof (length_sub pre (strip isspace v2) post) as Hl.
    rewrite <- Hsub in Hl. lia.
Qed.

(** X17.  [sanitize_string] returns a string without any of the nine
    dangerous characters, and of at most [max_length] characters when
    [max_length] is not negative. *)
Theorem X17_sanitize_string_removes_dangerous_chars :
  forall isspace value max_length,
    Forall (fun c => ~ In c dangerous_chars) (sanitize_string isspace value max_length) /\
    (0 <= max_length ->
     Z.of_nat (List.length (sanitize_string isspace value max_length)) <= max_length).
Proof.
  intros isspace value max_length.
  destruct (sanitize_string_facts isspace value max_length) as [H1 H2].
  split; [|exact H2].
  eapply Forall_impl; [|exact H1].
  intros c Hc Hin. unfold is_dangerous in Hc.
  assert (Hex : existsb (N.eqb c) dangerous_chars = true).
  { apply existsb_exists. exists c. split; [exact Hin | apply N.eqb_refl]. }
  congruence.
Qed.

(** X18.  [sanitize_string] is idempotent: for a [max_length] that is not
    negative, sanitising a sanitised string changes nothing. *)
Theorem X18_sanitize_string_idempotent :
  forall isspace value max_length,
    0 <= max_length ->
    sanitize_string isspace (sanitize_string isspace value max_length) max_length
    = sanitize_string isspace value max_length.
Proof.
  intros isspace value max_length Hm.
  destruct (sanitize_string_facts isspace value max_length) as [H1 H2].
  specialize (H2 Hm).
  set (r := sanitize_string isspace value max_length) in *.
  unfold sanitize_string at 1. rewrite remove_all_dangerous, (filter_clean r H1).
  replace (max_length <? Z.of_nat (List.length r))%Z with false
    by (symmetry; apply Z.ltb_ge; exact H2).
  unfold r, sanitize_string. apply strip_idempotent.
Qed.

Lemma X18_sanitize_string_idempotent_witness :
  sanitize_string (fun c => N.eqb c 32)
    (sanitize_string (fun c => N.eqb c 32) [32; 60; 97; 62; 98; 32; 99; 32]%N 3) 3
  = sanitize_string (fun c => N.eqb c 32) [32; 60; 97; 62; 98; 32; 99; 32]%N 3.
Proof.
  apply X18_sanitize_string_idempotent. lia.
Defined.

Lemma X17_sanitize_string_removes_dangerous_chars_witness :
  (Z.of_nat (List.length (sanitize_string (fun c => N.eqb c 32)
                            [32; 60; 97; 62; 98; 32; 99; 32]%N 3)) <= 3)%Z.
Proof.
  apply (proj2 (X17_sanitize_string_removes_dangerous_chars (fun c => N.eqb c 32)
                  [32; 60; 97; 62; 98; 32; 99; 32]%N 3)).
  lia.
Defined.

(** ** The rate limiter (X19, X20) *)

Section RateLimitProperties.

Variable T : Type.
Variable window_start_of : T -> T.
Variable later : T -> T -> bool.

Lemma blocked_stays self t ip ip' :
  blocked_ips T self ip = true ->
  blocked_ips T (snd (is_rate_limited T window_start_of later self t ip')) ip = true.
Proof.
  intros H. unfold is_rate_limited.
  destruct (existsb (String.eqb ip') whitelist_ips); [exact H|].
  destruct (blocked_ips T self ip'); [exact H|].
  destruct (requests_per_minute <=? _)%Z; cbn [snd blocked_ips]; [|exact H].
  unfold set_add. destruct (String.eqb ip ip'); [reflexivity | exact H].
Qed.

Lemma blocked_after_calls calls : forall self ip,
  blocked_ips T self ip = true ->
  blocked_ips T (after_calls T window_start_of later self calls) ip = true.
Proof.
  induction calls as [|[t ip'] rest IH]; intros self ip H; cbn [after_calls]; [exact H|].
  apply IH, blocked_stays, H.
Qed.

End RateLimitProperties.

(** X19.  A block of the rate limiter is permanent: once
    [is_rate_limited] has answered [True] for an address, it answers
    [True] for this address at every later call, whatever the time and
    whatever calls were made in between; nothing ever removes an address
    from [blocked_ips]. *)
Theorem X19_rate_limit_block_is_permanent :
  forall (T : Type) (window_start_of : T -> T) (later : T -> T -> bool)
         (self : RateLimiter T) (current_time : T) (ip : string) (self' : RateLimiter T),
    is_rate_limited T window_start_of later self current_time ip = (true, self') ->
    forall calls t,
      fst (is_rate_limited T window_start_of later
             (after_calls T window_start_of later self' calls) t ip) = true.
Proof.
  intros T window_start_of later self current_time ip self' H calls t.
  assert (Hw : existsb (String.eqb ip) whitelist_ips = false /\
               blocked_ips T self' ip = true).
  { unfold is_rate_limited in H.
    destruct (existsb (String.eqb ip) whitelist_ips); [discriminate|].
    split; [reflexivity|].
    destruct (blocked_ips T self ip) eqn:Hb.
    - injection H as <-. exact Hb.
    - destruct (requests_per_minute <=? _)%Z; [|discriminate].
      injection H as <-. cbn [blocked_ips]. unfold set_add.
      rewrite String.eqb_refl. reflexivity. }
  destruct Hw as [Hw Hb].
  pose proof (blocked_after_calls T window_start_of later calls self' ip Hb) as Hb'.
  unfold is_rate_limited. rewrite Hw, Hb'. reflexivity.
Qed.

Lemma X19_rate_limit_block_is_permanent_witness :
  fst (is_rate_limited Z (fun t => t - 60)%Z Z.gtb
         (after_calls Z (fun t => t - 60)%Z Z.gtb
            (mkRateLimiter Z (fun _ => None) (fun ip => String.eqb ip "10.0.0.1"))
            [(5%Z, "10.0.0.2")])
         7%Z "10.0.0.1") = true.
Proof.
  apply (X19_rate_limit_block_is_permanent Z (fun t => t - 60)%Z Z.gtb
           (mkRateLimiter Z (fun _ => None) (fun ip => String.eqb ip "10.0.0.1"))
           1%Z "10.0.0.1").
  vm_compute. reflexivity.
Defined.

(** X20.  The rate limiter never records more requests of an address than
    the limit: when no address has more than 60 recorded time stamps
    before a call of [is_rate_limited], none has after it. *)
Theorem X20_rate_limit_records_bounded :
  forall (T : Type) (window_start_of : T -> T) (later : T -> T -> bool)
         (self : RateLimiter T) (current_time : T) (ip : string),
    within_limit T self ->
    within_limit T (snd (is_rate_limited T window_start_of later self current_time ip)).
Proof.
  intros T window_start_of later self t ip H. unfold is_rate_limited.
  destruct (existsb (String.eqb ip) whitelist_ips); [exact H|].
  destruct (blocked_ips T self ip); [exact H|].
  set (kept := match request_counts T self ip with Some _ => _ | None => _ end).
  destruct (requests_per_minute <=? Z.of_nat (List.length kept))%Z eqn:E;
    cbn [snd]; intros ip' stamps; cbn [request_counts]; unfold dict_set;
    destruct (String.eqb ip' ip) eqn:Eip; try (apply H).
  - intros Hs. injection Hs as <-.
    unfold kept. destruct (request_counts T self ip) as [stamps|] eqn:Es.
    + specialize (H ip stamps Es).
      pose proof (List.filter_length_le (fun timestamp => later timestamp (window_start_of t)) stamps).
      lia.
    + cbn. unfold requests_per_minute. lia.
  - intros Hs. injection Hs as <-. apply Z.leb_gt in E.
    rewrite List.length_app. cbn [List.length]. lia.
Qed.

Lemma X20_rate_limit_records_bounded_witness :
  within_limit Z
    (snd (is_rate_limited Z (fun t => t - 60)%Z Z.gtb
            (mkRateLimiter Z (fun _ => None) (fun _ => false)) 100%Z "10.0.0.1")).
Proof.
  apply X20_rate_limit_records_bounded.
  intros ip stamps H. discriminate H.
Defined.

(** ** Bounded logs and suspicious addresses (X21, X22) *)

Lemma slice_from_suffix {A : Type} (l : list A) start :
  exists pre, l = (pre ++ slice_from l start)%list.
Proof.
  unfold slice_from. destruct (0 <=? start)%Z.
  - exists (firstn (Z.to_nat start) l). symmetry. apply firstn_skipn.
  - exists (firstn (List.length l - Z.to_nat (- start)) l). symmetry. apply firstn_skipn.
Qed.



Section SuspiciousProperties.

Variables (T Details : Type).

Lemma mark_suspicious_reasons self ip reason details t1 t2 ip' :
  reasons_of (mark_suspicious T Details self ip reason details t1 t2) ip'
  = (reasons_of self ip' + if String.eqb ip' ip then 1 else 0)%nat.
Proof.
  unfold reasons_of, mark_suspicious. cbn [reasons first_seen request_count blocked].
  destruct (3 <=? _)%Z; cbn [suspicious_ips]; unfold dict_set;
    destruct (String.eqb ip' ip) eqn:E; try lia;
    apply String.eqb_eq in E; subst ip';
    cbn [reasons]; rewrite List.length_app; cbn [List.length];
    destruct (suspicious_ips T Details self ip); cbn [reasons List.length]; lia.
Qed.

Lemma mark_suspicious_blocked self ip reason details t1 t2 ip' :
  is_blocked T Details self ip' = (3 <=? Z.of_nat (reasons_of self ip'))%Z ->
  is_blocked T Details (mark_suspicious T Details self ip reason details t1 t2) ip'
  = (3 <=? Z.of_nat (reasons_of (mark_suspicious T Details self ip reason details t1 t2) ip'))%Z.
Proof.
  intros H. rewrite mark_suspicious_reasons.
  unfold is_blocked in *. unfold mark_suspicious.
  cbn [reasons first_seen request_count blocked].
  assert (Hlen : List.length
            (reasons T Details
               match suspicious_ips T Details self ip with
               | Some e => e
               | None => mkSuspicion T Details t1 [] 0 false
               end ++ [mkReason T Details reason t2 details])
          = (reasons_of self ip + 1)%nat).
  { rewrite List.length_app. cbn [List.length]. unfold reasons_of.
    destruct (suspicious_ips T Details self ip); reflexivity. }
  rewrite Hlen.
  destruct (String.eqb ip' ip) eqn:E.
  - apply String.eqb_eq in E. subst ip'.
    destruct (3 <=? Z.of_nat (reasons_of self ip + 1))%Z eqn:E3;
      cbn [ddos_blocked_ips]; unfold set_add.
    + rewrite String.eqb_refl. reflexivity.
    + rewrite H. apply Z.leb_gt in E3. apply Z.leb_gt. lia.
  - replace (reasons_of self ip' + 0)%nat with (reasons_of self ip') by lia.
    destruct (3 <=? Z.of_nat (reasons_of self ip + 1))%Z;
      cbn [ddos_blocked_ips]; unfold set_add; rewrite ?E; exact H.
Qed.

Lemma after_marks_blocked marks : forall self,
  (forall ip, is_blocked T Details self ip = (3 <=? Z.of_nat (reasons_of self ip))%Z) ->
  forall ip,
    is_blocked T Details (after_marks T Details self marks) ip
    = (3 <=? Z.of_nat (reasons_of self ip + marks_of ip marks))%Z.
Proof.
  induction marks as [|[[[[ip0 reason] details] t1] t2] rest IH]; intros self H ip.
  - cbn [after_marks]. unfold marks_of. cbn [filter List.length].
    rewrite Nat.add_0_r. apply H.
  - cbn [after_marks]. rewrite IH.
    + rewrite mark_suspicious_reasons. unfold marks_of. cbn [filter].
      rewrite (String.eqb_sym ip0 ip).
      destruct (String.eqb ip ip0); cbn [List.length]; f_equal; lia.
    + intros ip'. apply mark_suspicious_blocked, H.
Qed.

End SuspiciousProperties.

(** X22.  An address is blocked from its third mark on: starting from a
    fresh [DDoSProtection], after any sequence of calls of
    [mark_suspicious], [is_blocked] answers [True] for exactly the
    addresses that were marked three times or more; a block is never
    lifted. *)
Theorem X22_blocked_from_the_third_mark :
  forall (T Details : Type) (marks : list (string * string * Details * T * T))
         (ip : string),
    is_blocked T Details (after_marks T Details (new_protection T Details) marks) ip
    = (3 <=? Z.of_nat (marks_of ip marks))%Z.
Proof.
  intros T Details marks ip.
  rewrite after_marks_blocked; [reflexivity|].
  intros ip'. reflexivity.
Qed.

(** * Properties of the in-memory cache (X23 to X26, X30) *)

Lemma od_get_set_same {V : Type} (d : odict V) key v : od_get (od_set d key v) key = Some v.
Proof.
  induction d as [|[k v0] rest IH]; cbn [od_set od_get].
  - rewrite String.eqb_refl. reflexivity.
  - destruct (String.eqb k key) eqn:E; cbn [od_get]; rewrite E; [reflexivity | exact IH].
Qed.

Lemma od_set_keys {V W : Type} (d : odict V) (d' : odict W) key v w :
  map fst d = map fst d' ->
  map fst (od_set d key v) = map fst (od_set d' key w).
Proof.
  revert d'. induction d as [|[k v0] rest IH]; intros [|[k' w0] rest'] H;
    try discriminate; [reflexivity|].
  cbn [map fst] in H. injection H as <- H. cbn [od_set].
  destruct (String.eqb k key); cbn [map fst]; f_equal; [exact H | apply IH, H].
Qed.

Lemma od_set_same_keys {V : Type} (d : odict V) key v v0 :
  od_get d key = Some v0 -> map fst (od_set d key v) = map fst d.
Proof.
  induction d as [|[k v1] rest IH]; cbn [od_get od_set]; [discriminate|].
  destruct (String.eqb k key); cbn [map fst]; intros H; [reflexivity|].
  f_equal. apply IH, H.
Qed.

Lemma od_set_length {V : Type} (d : odict V) key v :
  (List.length (od_set d key v) <= S (List.length d))%nat /\
  (forall v0, od_get d key = Some v0 -> List.length (od_set d key v) = List.length d).
Proof.
  induction d as [|[k v1] rest [IH1 IH2]]; cbn [od_set od_get List.length].
  - split; [lia | discriminate].
  - destruct (String.eqb k key); cbn [List.length]; split; try lia.
    intros v0 H. rewrite (IH2 v0 H). reflexivity.
Qed.

Lemma od_del_keys {V W : Type} (d : odict V) (d' : odict W) key r :
  map fst d = map fst d' ->
  od_del d key = Some r ->
  exists r', od_del d' key = Some r' /\ map fst r = map fst r' /\
             List.length d = S (List.length r).
Proof.
  revert d' r. induction d as [|[k v0] rest IH]; intros d' r H;
    cbn [od_del]; [discriminate|].
  destruct d' as [|[k' w0] rest']; [discriminate|].
  cbn [map fst] in H. injection H as <- H. cbn [od_del].
  destruct (String.eqb k key).
  - intros Hr. injection Hr as <-. exists rest'. repeat split; assumption.
  - destruct (od_del rest key) as [rest1|] eqn:E; [|discriminate].
    intros Hr. injection Hr as <-.
    destruct (IH rest' rest1 H eq_refl) as [r' [Hd [Hk Hl]]].
    rewrite Hd. exists ((k, w0) :: r'). cbn [map fst List.length].
    repeat split; [f_equal; exact Hk | f_equal; exact Hl].
Qed.

Lemma od_del_present {V : Type} (d : odict V) key :
  In key (map fst d) -> exists r, od_del d key = Some r.
Proof.
  induction d as [|[k v0] rest IH]; cbn [map fst In od_del]; [intros []|].
  destruct (String.eqb k key) eqn:E; [intros _; eexists; reflexivity|].
  intros [H|H]; [apply String.eqb_neq in E; contradiction|].
  destruct (IH H) as [r ->]. eexists; reflexivity.
Qed.

Lemma od_get_present {V : Type} (d : odict V) key v :
  od_get d key = Some v -> In key (map fst d).
Proof.
  induction d as [|[k v0] rest IH]; cbn [od_get map fst In]; [discriminate|].
  destruct (String.eqb k key) eqn:E; [apply String.eqb_eq in E; left; exact E|].
  intros H. right. apply IH, H.
Qed.

Lemma min_key_present {T : Type} (lt : T -> T -> bool) (d : odict T) k :
  min_key T lt d = Some k -> In k (map fst d).
Proof.
  destruct d as [|first rest]; cbn [min_key]; [discriminate|].
  intros H. injection H as <-.
  assert (G : forall (l : odict T) (best : string * T),
    In (fold_left (fun best item => if lt (snd item) (snd best) then item else best) l best)
       (best :: l)).
  { induction l as [|x l IHl]; intros best; cbn [fold_left]; [left; reflexivity|].
    destruct (IHl (if lt (snd x) (snd best) then x else best)) as [H|H].
    - destruct (lt (snd x) (snd best)); [right; left | left]; exact H.
    - right. right. exact H. }
  apply in_map, G.
Qed.

Lemma od_set_in {V : Type} (d : odict V) key v x :
  In x (map fst (od_set d key v)) -> x = key \/ In x (map fst d).
Proof.
  induction d as [|[k v0] rest IH]; cbn [od_set map fst In].
  - intros [H|[]]. left. symmetry. exact H.
  - destruct (String.eqb k key); cbn [map fst In]; [tauto|].
    intros [H|H]; [tauto|]. destruct (IH H); tauto.
Qed.

Lemma od_set_NoDup {V : Type} (d : odict V) key v :
  NoDup (map fst d) -> NoDup (map fst (od_set d key v)).
Proof.
  induction d as [|[k v0] rest IH]; cbn [od_set map fst]; intros H.
  - constructor; [intros [] | constructor].
  - inversion H as [|? ? Hn Hr]; subst.
    destruct (String.eqb k key) eqn:E; cbn [map fst]; [exact H|].
    constructor; [|apply IH, Hr].
    intros Hin. apply od_set_in in Hin. destruct Hin as [->|Hin]; [|contradiction].
    rewrite String.eqb_refl in E. discriminate.
Qed.

Lemma od_del_in {V : Type} (d r : odict V) key x :
  od_del d key = Some r -> In x (map fst r) -> In x (map fst d).
Proof.
  revert r. induction d as [|[k v0] rest IH]; intros r; cbn [od_del]; [discriminate|].
  destruct (String.eqb k key).
  - intros H. injection H as <-. cbn [map fst In]. tauto.
  - destruct (od_del rest key) as [rest1|]; [|discriminate].
    intros H. injection H as <-. cbn [map fst In].
    intros [H|H]; [tauto|]. right. exact (IH rest1 eq_refl H).
Qed.

Lemma od_get_absent {V : Type} (d : odict V) key :
  ~ In key (map fst d) -> od_get d key = None.
Proof.
  induction d as [|[k v0] rest IH]; cbn [od_get map fst In]; [reflexivity|].
  intros H. destruct (String.eqb k key) eqn:E.
  - apply String.eqb_eq in E. tauto.
  - apply IH. tauto.
Qed.

Lemma od_del_NoDup {V : Type} (d r : odict V) key :
  NoDup (map fst d) -> od_del d key = Some r ->
  NoDup (map fst r) /\ od_get r key = None.
Proof.
  revert r. induction d as [|[k v0] rest IH]; intros r Hn; cbn [od_del]; [discriminate|].
  cbn [map fst] in Hn. inversion Hn as [|? ? Hk Hr]; subst.
  destruct (String.eqb k key) eqn:E.
  - intros H. injection H as <-. apply String.eqb_eq in E. subst k.
    split; [exact Hr | apply od_get_absent, Hk].
  - destruct (od_del rest key) as [rest1|] eqn:Ed; [|discriminate].
    intros H. injection H as <-.
    destruct (IH rest1 Hr eq_refl) as [Hn1 Hg]. cbn [map fst od_get]. rewrite E.
    split; [|exact Hg].
    constructor; [|exact Hn1].
    intros Hin. apply Hk. exact (od_del_in _ _ _ _ Ed Hin).
Qed.

Section CacheProperties.

Variables (V T : Type).
Variable plus_ttl : T -> Z -> T.
Variable gt lt : T -> T -> bool.

Lemma cleanup_in_step self :
  in_step V T self -> 1 <= _max_size V T self ->
  exists self',
    _cleanup_if_needed V T lt self = Done self' /\
    in_step V T self' /\
    _max_size V T self' = _max_size V T self /\
    (Z.of_nat (List.length (_cache V T self)) <= _max_size V T self ->
     Z.of_nat (List.length (_cache V T self')) < _max_size V T self).
Proof.
  intros [Hs Hn] Hm. unfold _cleanup_if_needed.
  destruct (_max_size V T self <=? Z.of_nat (List.length (_cache V T self)))%Z eqn:E.
  - apply Z.leb_le in E.
    destruct (min_key T lt (_access_times V T self)) as [k|] eqn:Hk.
    + pose proof (min_key_present lt _ _ Hk) as Hin.
      destruct (od_del_present (_access_times V T self) k Hin) as [times' Ht].
      destruct (od_del_keys _ (_cache V T self) k times' (eq_sym Hs) Ht)
        as [cache' [Hc [Hkeys Hlen]]].
      rewrite Hc, Ht. eexists. split; [reflexivity|].
      unfold in_step. cbn [_cache _access_times _max_size].
      repeat split;
        [symmetry; exact Hkeys | exact (proj1 (od_del_NoDup _ _ _ Hn Hc)) |].
      intros Hle.
      assert (Hl : List.length (_cache V T self) = List.length (_access_times V T self)).
      { rewrite <- (List.length_map fst (_cache V T self)), Hs, List.length_map.
        reflexivity. }
      destruct (od_del_keys _ (_access_times V T self) k cache' Hs Hc)
        as [_ [_ [_ Hlen']]].
      lia.
    + exfalso. unfold min_key in Hk.
      destruct (_access_times V T self) as [|x l] eqn:Ea; [|discriminate].
      destruct (_cache V T self); [cbn in E; lia | discriminate].
  - apply Z.leb_gt in E. exists self. repeat split; try assumption. intros _. exact E.
Qed.

Lemma cache_set_returns self key value ttl t1 t2 t3 :
  in_step V T self -> 1 <= _max_size V T self ->
  exists self',
    cache_set V T plus_ttl lt self key value ttl t1 t2 t3 = Done self' /\
    in_step V T self' /\
    _max_size V T self' = _max_size V T self /\
    od_get (_cache V T self') key = Some (mkCacheEntry V T value (plus_ttl t1 ttl) t2) /\
    (Z.of_nat (List.length (_cache V T self)) <= _max_size V T self ->
     Z.of_nat (List.length (_cache V T self')) <= _max_size V T self).
Proof.
  intros Hs Hm. destruct (cleanup_in_step self Hs Hm) as [s1 [Hc [[Hk Hn] [Hmax Hlen]]]].
  unfold cache_set. rewrite Hc. eexists. split; [reflexivity|].
  unfold in_step. cbn [_cache _access_times _max_size].
  repeat split.
  - apply od_set_keys, Hk.
  - apply od_set_NoDup, Hn.
  - exact Hmax.
  - apply od_get_set_same.
  - intros Hle. specialize (Hlen Hle).
    pose proof (proj1 (od_set_length (_cache V T s1) key
                         (mkCacheEntry V T value (plus_ttl t1 ttl) t2))).
    lia.
Qed.

Lemma od_get_in_step self key e :
  in_step V T self -> od_get (_cache V T self) key = Some e ->
  exists t, od_get (_access_times V T self) key = Some t.
Proof.
  intros [Hk _] Hg. apply od_get_present in Hg. rewrite Hk in Hg.
  clear Hk. induction (_access_times V T self) as [|[k t] rest IH];
    cbn [map fst In od_get] in *; [contradiction|].
  destruct (String.eqb k key) eqn:E; [eexists; reflexivity|].
  destruct Hg as [Hg|Hg]; [apply String.eqb_neq in E; contradiction | exact (IH Hg)].
Qed.

Lemma del_both_in_step self key e :
  in_step V T self -> od_get (_cache V T self) key = Some e ->
  exists cache' times',
    od_del (_cache V T self) key = Some cache' /\
    od_del (_access_times V T self) key = Some times' /\
    in_step V T (mkMemoryCache V T cache' (_max_size V T self) times') /\
    od_get cache' key = None /\
    List.length (_cache V T self) = S (List.length cache').
Proof.
  intros [Hk Hn] Hg.
  destruct (od_del_present _ _ (od_get_present _ _ _ Hg)) as [cache' Hc].
  destruct (od_del_keys _ (_access_times V T self) key cache' Hk Hc)
    as [times' [Ht [Hkeys Hlen]]].
  exists cache', times'. unfold in_step. cbn [_cache _access_times].
  destruct (od_del_NoDup _ _ _ Hn Hc) as [Hn' Hg'].
  repeat split; assumption.
Qed.

Lemma cache_get_returns self key t1 t2 :
  in_step V T self ->
  exists r self',
    cache_get V T gt self key t1 t2 = Done (r, self') /\
    in_step V T self' /\
    _max_size V T self' = _max_size V T self /\
    (List.length (_cache V T self') <= List.length (_cache V T self))%nat.
Proof.
  intros Hs. unfold cache_get.
  destruct (od_get (_cache V T self) key) as [e|] eqn:Hg.
  - destruct (gt t1 (expires_at V T e)).
    + destruct (del_both_in_step self key e Hs Hg)
        as [cache' [times' [Hc [Ht [Hs' [_ Hlen]]]]]].
      rewrite Hc, Ht. do 2 eexists. split; [reflexivity|].
      cbn [_cache _max_size]. split; [exact Hs' | split; [reflexivity | lia]].
    + do 2 eexists. split; [reflexivity|].
      unfold in_step. cbn [_cache _access_times _max_size].
      destruct Hs as [Hk Hn].
      destruct (od_get_in_step self key e (conj Hk Hn) Hg) as [t Ht].
      split; [split; [|exact Hn] | split; [reflexivity | lia]].
      rewrite (od_set_same_keys _ key t2 t Ht). exact Hk.
  - do 2 eexists. split; [reflexivity|]. split; [exact Hs | split; [reflexivity | lia]].
Qed.

Lemma cache_delete_returns self key :
  in_step V T self ->
  exists self',
    cache_delete V T self key = Done self' /\
    in_step V T self' /\
    _max_size V T self' = _max_size V T self /\
    (List.length (_cache V T self') <= List.length (_cache V T self))%nat.
Proof.
  intros Hs. unfold cache_delete.
  destruct (od_get (_cache V T self) key) as [e|] eqn:Hg.
  - destruct (del_both_in_step self key e Hs Hg)
      as [cache' [times' [Hc [Ht [Hs' [_ Hlen]]]]]].
    rewrite Hc, Ht. eexists. split; [reflexivity|].
    cbn [_cache _max_size]. split; [exact Hs' | split; [reflexivity | lia]].
  - eexists. split; [reflexivity|]. split; [exact Hs | split; [reflexivity | lia]].
Qed.

Lemma run_calls_returns calls : forall self,
  in_step V T self -> 1 <= _max_size V T self ->
  Z.of_nat (List.length (_cache V T self)) <= _max_size V T self ->
  exists self',
    run_calls V T plus_ttl gt lt self calls = Done self' /\
    in_step V T self' /\
    _max_size V T self' = _max_size V T self /\
    Z.of_nat (List.length (_cache V T self')) <= _max_size V T self.
Proof.
  induction calls as [|c rest IH]; intros self Hs Hm Hl; cbn [run_calls].
  - exists self. split; [reflexivity|]. split; [exact Hs|]. split; [reflexivity | exact Hl].
  - assert (Hc : exists s1, run_call V T plus_ttl gt lt self c = Done s1 /\
                 in_step V T s1 /\ _max_size V T s1 = _max_size V T self /\
                 Z.of_nat (List.length (_cache V T s1)) <= _max_size V T self).
    { destruct c as [key t1 t2 | key value ttl t1 t2 t3 | key |]; cbn [run_call].
      - destruct (cache_get_returns self key t1 t2 Hs) as [r [s1 [Hg [Hs1 [Hm1 Hl1]]]]].
        rewrite Hg. exists s1. split; [reflexivity|]. split; [exact Hs1|].
        split; [exact Hm1 | lia].
      - destruct (cache_set_returns self key value ttl t1 t2 t3 Hs Hm)
          as [s1 [Hg [Hs1 [Hm1 [_ Hl1]]]]].
        exists s1. split; [exact Hg|]. split; [exact Hs1|].
        split; [exact Hm1 | exact (Hl1 Hl)].
      - destruct (cache_delete_returns self key Hs) as [s1 [Hg [Hs1 [Hm1 Hl1]]]].
        exists s1. split; [exact Hg|]. split; [exact Hs1|].
        split; [exact Hm1 | lia].
      - eexists. split; [reflexivity|]. unfold cache_clear, in_step.
        cbn [_cache _access_times _max_size map List.length].
        split; [split; [reflexivity | constructor] | split; [reflexivity | lia]]. }
    destruct Hc as [s1 [Hc [Hs1 [Hm1 Hl1]]]]. rewrite Hc.
    destruct (IH s1 Hs1) as [s2 [Hr [Hs2 [Hm2 Hl2]]]]; [lia | lia |].
    exists s2. split; [exact Hr|]. split; [exact Hs2|]. split; lia.
Qed.

Lemma new_cache_in_step max_size : in_step V T (new_cache V T max_size).
Proof. split; [reflexivity | constructor]. Qed.

Lemma run_calls_reachable max_size calls self :
  1 <= max_size ->
  run_calls V T plus_ttl gt lt (new_cache V T max_size) calls = Done self ->
  in_step V T self /\ _max_size V T self = max_size /\
  Z.of_nat (List.length (_cache V T self)) <= max_size.
Proof.
  intros Hm Hr.
  destruct (run_calls_returns calls (new_cache V T max_size) (new_cache_in_step max_size))
    as [s [Hs [Hi [Hmax Hl]]]]; cbn [new_cache _max_size _cache List.length] in *;
    try lia.
  rewrite Hs in Hr. injection Hr as <-. repeat split; try assumption; apply Hi.
Qed.

Lemma run_calls_useless calls : forall self,
  _max_size V T self <= 0 -> _cache V T self = [] -> _access_times V T self = [] ->
  forall self', run_calls V T plus_ttl gt lt self calls = Done self' ->
  _max_size V T self' <= 0 /\ _cache V T self' = [] /\ _access_times V T self' = [].
Proof.
  induction calls as [|c rest IH]; intros self Hm Hc Ha self'; cbn [run_calls].
  - intros H. injection H as <-. repeat split; assumption.
  - destruct c as [key t1 t2 | key value ttl t1 t2 t3 | key |]; cbn [run_call].
    + unfold cache_get. rewrite Hc. cbn [od_get]. apply IH; assumption.
    + unfold cache_set, _cleanup_if_needed. rewrite Hc, Ha. cbn [List.length min_key].
      destruct (_max_size V T self <=? Z.of_nat 0)%Z eqn:E; [discriminate|].
      apply Z.leb_gt in E. cbn in E. lia.
    + unfold cache_delete. rewrite Hc. cbn [od_get]. apply IH; assumption.
    + apply IH; [exact Hm | reflexivity | reflexivity].
Qed.

End CacheProperties.

(** X23.  A [MemoryCache] created with [max_size >= 1] never raises and
    never holds more than [max_size] entries: whatever [get], [set],
    [delete] and [clear] calls are made on it, with whatever keys, values and clock
    readings, each of them returns, and afterwards [_cache] has at most
    [max_size] entries. *)
Theorem X23_cache_never_raises_and_is_bounded :
  forall (V T : Type) (plus_ttl : T -> Z -> T) (gt lt : T -> T -> bool)
         (max_size : Z) (calls : list (cache_call V T)),
    1 <= max_size ->
    exists self,
      run_calls V T plus_ttl gt lt (new_cache V T max_size) calls = Done self /\
      Z.of_nat (List.length (_cache V T self)) <= max_size.
Proof.
  intros V T plus_ttl gt lt max_size calls Hm.
  destruct (run_calls_returns V T plus_ttl gt lt calls (new_cache V T max_size)
              (new_cache_in_step V T max_size))
    as [s [Hs [_ [_ Hl]]]]; cbn [new_cache _max_size _cache List.length] in *; try lia.
  exists s. split; assumption.
Qed.

Lemma X23_cache_never_raises_and_is_bounded_witness :
  exists self,
    run_calls Z Z Z.add Z.gtb Z.ltb (new_cache Z Z 2)
      [CallSet Z Z "a" 1 300 0 0 0; CallSet Z Z "b" 2 300 1 1 1;
       CallSet Z Z "c" 3 300 2 2 2; CallGet Z Z "a" 3 3; CallDelete Z Z "b";
       CallClear Z Z] = Done self /\
    Z.of_nat (List.length (_cache Z Z self)) <= 2.
Proof.
  apply (X23_cache_never_raises_and_is_bounded Z Z Z.add Z.gtb Z.ltb 2). lia.
Defined.

(** X24.  What [set] stores, [get] returns until it expires: on a cache with
    [max_size >= 1], in any state that calls of its methods can reach,
    [set(key, value, ttl)] returns, and a [get(key)] that follows it and
    reads a time that is not greater than [expires_at] (the time [set]
    read first, plus [ttl]) returns [value]. *)
Theorem X24_cache_set_then_get :
  forall (V T : Type) (plus_ttl : T -> Z -> T) (gt lt : T -> T -> bool)
         (max_size : Z) (calls : list (cache_call V T)) (self : MemoryCache V T)
         (key : string) (value : V) (ttl : Z) (t1 t2 t3 t4 t5 : T),
    1 <= max_size ->
    run_calls V T plus_ttl gt lt (new_cache V T max_size) calls = Done self ->
    gt t4 (plus_ttl t1 ttl) = false ->
    exists self1 self2,
      cache_set V T plus_ttl lt self key value ttl t1 t2 t3 = Done self1 /\
      cache_get V T gt self1 key t4 t5 = Done (Some value, self2).
Proof.
  intros V T plus_ttl gt lt max_size calls self key value ttl t1 t2 t3 t4 t5 Hm Hr Hg.
  destruct (run_calls_reachable V T plus_ttl gt lt max_size calls self Hm Hr)
    as [Hs [Hmax _]].
  destruct (cache_set_returns V T plus_ttl lt self key value ttl t1 t2 t3 Hs)
    as [self1 [Hset [_ [_ [Hget _]]]]]; [lia|].
  exists self1. eexists. split; [exact Hset|].
  unfold cache_get. rewrite Hget. cbn [expires_at ce_value]. rewrite Hg. reflexivity.
Qed.

Lemma X24_cache_set_then_get_witness :
  exists self1 self2,
    cache_set Z Z Z.add Z.ltb
      (mkMemoryCache Z Z [("a", mkCacheEntry Z Z 1 300 0)] 1 [("a", 0)])
      "b" 2 300 10 10 10 = Done self1 /\
    cache_get Z Z Z.gtb self1 "b" 310 310 = Done (Some 2, self2).
Proof.
  apply (X24_cache_set_then_get Z Z Z.add Z.gtb Z.ltb 1 [CallSet Z Z "a" 1 300 0 0 0]).
  - lia.
  - reflexivity.
  - reflexivity.
Defined.

(** X25.  An expired entry is dropped at its first [get]: in any state that
    calls can reach, when [get(key)] finds an entry and reads a time
    greater than its [expires_at], it returns [None] and removes the key
    from both dicts, so that every later [get(key)] returns [None] as well,
    whatever the time, and changes nothing. *)
Theorem X25_cache_expired_entry_is_dropped :
  forall (V T : Type) (plus_ttl : T -> Z -> T) (gt lt : T -> T -> bool)
         (max_size : Z) (calls : list (cache_call V T)) (self : MemoryCache V T)
         (key : string) (cache_entry : CacheEntry V T) (t1 t2 : T),
    1 <= max_size ->
    run_calls V T plus_ttl gt lt (new_cache V T max_size) calls = Done self ->
    od_get (_cache V T self) key = Some cache_entry ->
    gt t1 (expires_at V T cache_entry) = true ->
    exists self',
      cache_get V T gt self key t1 t2 = Done (None, self') /\
      forall t3 t4, cache_get V T gt self' key t3 t4 = Done (None, self').
Proof.
  intros V T plus_ttl gt lt max_size calls self key e t1 t2 Hm Hr Hg Hx.
  destruct (run_calls_reachable V T plus_ttl gt lt max_size calls self Hm Hr) as [Hs _].
  destruct (del_both_in_step V T self key e Hs Hg)
    as [cache' [times' [Hc [Ht [_ [Hnone _]]]]]].
  eexists. unfold cache_get at 1. rewrite Hg, Hx, Hc, Ht. split; [reflexivity|].
  intros t3 t4. unfold cache_get. cbn [_cache]. rewrite Hnone. reflexivity.
Qed.

Lemma X25_cache_expired_entry_is_dropped_witness :
  exists self',
    cache_get Z Z Z.gtb
      (mkMemoryCache Z Z [("a", mkCacheEntry Z Z 1 300 0)] 1 [("a", 0)])
      "a" 301 301 = Done (None, self') /\
    forall t3 t4, cache_get Z Z Z.gtb self' "a" t3 t4 = Done (None, self').
Proof.
  apply (X25_cache_expired_entry_is_dropped Z Z Z.add Z.gtb Z.ltb 1
           [CallSet Z Z "a" 1 300 0 0 0] _ "a" (mkCacheEntry Z Z 1 300 0)).
  - lia.
  - reflexivity.
  - reflexivity.
  - reflexivity.
Defined.

(** X26.  A [MemoryCache] created with [max_size <= 0] cannot store
    anything: whatever calls were made on it before, [set] raises
    [ValueError] ([_cleanup_if_needed] takes the [min] of the empty
    [_access_times]). *)
Theorem X26_cache_without_room_raises :
  forall (V T : Type) (plus_ttl : T -> Z -> T) (gt lt : T -> T -> bool)
         (max_size : Z) (calls : list (cache_call V T)) (self : MemoryCache V T)
         (key : string) (value : V) (ttl : Z) (t1 t2 t3 : T),
    max_size <= 0 ->
    run_calls V T plus_ttl gt lt (new_cache V T max_size) calls = Done self ->
    cache_set V T plus_ttl lt self key value ttl t1 t2 t3 = Fails ValueError.
Proof.
  intros V T plus_ttl gt lt max_size calls self key value ttl t1 t2 t3 Hm Hr.
  destruct (run_calls_useless V T plus_ttl gt lt calls (new_cache V T max_size)
              Hm eq_refl eq_refl self Hr) as [Hm' [Hc Ha]].
  unfold cache_set, _cleanup_if_needed. rewrite Hc, Ha. cbn [List.length min_key].
  destruct (_max_size V T self <=? Z.of_nat 0)%Z eqn:E; [reflexivity|].
  apply Z.leb_gt in E. cbn in E. lia.
Qed.

Lemma X26_cache_without_room_raises_witness :
  cache_set Z Z Z.add Z.ltb (new_cache Z Z 0) "a" 1 300 0 0 0 = Fails ValueError.
Proof.
  apply (X26_cache_without_room_raises Z Z Z.add Z.gtb Z.ltb 0
           [CallGet Z Z "a" 0 0; CallDelete Z Z "a"]).
  - lia.
  - reflexivity.
Defined.

(** ** The entry that [set] evicts *)

Lemma od_get_In {V : Type} (d : odict V) k v : od_get d k = Some v -> In (k, v) d.
Proof.
  induction d as [|[k0 v0] rest IH]; cbn [od_get In]; [discriminate|].
  destruct (String.eqb k0 k) eqn:E.
  - intros H. injection H as <-. apply String.eqb_eq in E. subst k0. left. reflexivity.
  - intros H. right. apply IH, H.
Qed.

Lemma In_od_get {V : Type} (d : odict V) k v :
  NoDup (map fst d) -> In (k, v) d -> od_get d k = Some v.
Proof.
  induction d as [|[k0 v0] rest IH]; cbn [od_get In map fst]; [intros _ []|].
  intros Hn [H|H]; inversion Hn as [|? ? Hk Hr]; subst.
  - injection H as -> ->. rewrite String.eqb_refl. reflexivity.
  - destruct (String.eqb k0 k) eqn:E.
    + apply String.eqb_eq in E. subst k0. exfalso. apply Hk.
      change k with (fst (k, v)). apply in_map, H.
    + apply IH; assumption.
Qed.

Lemma od_del_get_other {V : Type} (d r : odict V) key k :
  od_del d key = Some r -> k <> key -> od_get r k = od_get d k.
Proof.
  revert r. induction d as [|[k0 v0] rest IH]; intros r; cbn [od_del]; [discriminate|].
  destruct (String.eqb k0 key) eqn:E.
  - intros H Hk. injection H as <-. apply String.eqb_eq in E. subst k0.
    cbn [od_get]. destruct (String.eqb key k) eqn:E'; [|reflexivity].
    apply String.eqb_eq in E'. congruence.
  - destruct (od_del rest key) as [rest1|]; [|discriminate].
    intros H Hk. injection H as <-. cbn [od_get].
    destruct (String.eqb k0 k); [reflexivity | apply IH; [reflexivity | exact Hk]].
Qed.

Lemma od_set_get_other {V : Type} (d : odict V) key v k :
  k <> key -> od_get (od_set d key v) k = od_get d k.
Proof.
  intros Hk. induction d as [|[k0 v0] rest IH]; cbn [od_set od_get].
  - destruct (String.eqb key k) eqn:E; [|reflexivity].
    apply String.eqb_eq in E. congruence.
  - destruct (String.eqb k0 key) eqn:E; cbn [od_get].
    + apply String.eqb_eq in E. subst k0.
      destruct (String.eqb key k) eqn:E'; [|reflexivity].
      apply String.eqb_eq in E'. congruence.
    + destruct (String.eqb k0 k); [reflexivity | exact IH].
Qed.

Lemma min_key_least {T : Type} (lt : T -> T -> bool) (d : odict T) k :
  (forall x, lt x x = false) ->
  (forall x y z, lt x y = true -> lt y z = true -> lt x z = true) ->
  min_key T lt d = Some k ->
  exists t, In (k, t) d /\ forall k' t', In (k', t') d -> lt t' t = false.
Proof.
  intros Hirr Htr. destruct d as [|first rest]; cbn [min_key]; [discriminate|].
  intros H. injection H as <-.
  set (step := fun best item : string * T =>
                 if lt (snd item) (snd best) then item else best).
  assert (G : forall (l seen : odict T) (best : string * T),
            In best seen ->
            (forall i, In i seen -> lt (snd i) (snd best) = false) ->
            In (fold_left step l best) (seen ++ l)%list /\
            forall i, In i (seen ++ l)%list ->
                      lt (snd i) (snd (fold_left step l best)) = false).
  { induction l as [|x l IHl]; intros seen best Hin Hmin; cbn [fold_left].
    - rewrite app_nil_r. split; assumption.
    - replace (seen ++ x :: l)%list with ((seen ++ [x]) ++ l)%list
        by (rewrite <- app_assoc; reflexivity).
      apply IHl.
      + unfold step. destruct (lt (snd x) (snd best));
          apply in_or_app; [right; left; reflexivity | left; exact Hin].
      + intros i Hi. apply in_app_or in Hi. unfold step.
        destruct (lt (snd x) (snd best)) eqn:E.
        * destruct Hi as [Hi|[<-|[]]]; [|apply Hirr].
          destruct (lt (snd i) (snd x)) eqn:E'; [|reflexivity].
          rewrite <- (Hmin i Hi). symmetry. exact (Htr _ _ _ E' E).
        * destruct Hi as [Hi|[<-|[]]]; [exact (Hmin i Hi) | exact E]. }
  destruct (G rest [first] first) as [Hin Hmin].
  - left. reflexivity.
  - intros i [<-|[]]. apply Hirr.
  - cbn [app] in Hin, Hmin. fold step.
    destruct (fold_left step rest first) as [k t] eqn:Ef. cbn [fst snd] in *.
    exists t. split; [exact Hin|].
    intros k' t' H'. exact (Hmin (k', t') H').
Qed.

(** X30.  [set] on a full cache evicts one entry, the least recently
    accessed: when the comparison of clock readings is irreflexive and
    transitive (as [<] on floats is), a [set] in a reachable state that
    holds [max_size] entries removes a key [oldest] whose access time no
    other access time is below, stores the new entry, and leaves every
    other key as it was; [oldest] is evicted even when [key] was present
    already. *)
Theorem X30_cache_evicts_least_recently_used :
  forall (V T : Type) (plus_ttl : T -> Z -> T) (gt lt : T -> T -> bool)
         (max_size : Z) (calls : list (cache_call V T)) (self self1 : MemoryCache V T)
         (key : string) (value : V) (ttl : Z) (t1 t2 t3 : T),
    (forall x, lt x x = false) ->
    (forall x y z, lt x y = true -> lt y z = true -> lt x z = true) ->
    1 <= max_size ->
    run_calls V T plus_ttl gt lt (new_cache V T max_size) calls = Done self ->
    Z.of_nat (List.length (_cache V T self)) = max_size ->
    cache_set V T plus_ttl lt self key value ttl t1 t2 t3 = Done self1 ->
    exists oldest t_oldest,
      od_get (_access_times V T self) oldest = Some t_oldest /\
      (forall k t, od_get (_access_times V T self) k = Some t -> lt t t_oldest = false) /\
      (oldest <> key -> od_get (_cache V T self1) oldest = None) /\
      od_get (_cache V T self1) key
      = Some (mkCacheEntry V T value (plus_ttl t1 ttl) t2) /\
      (forall k, k <> oldest -> k <> key ->
                 od_get (_cache V T self1) k = od_get (_cache V T self) k).
Proof.
  intros V T plus_ttl gt lt max_size calls self self1 key value ttl t1 t2 t3
         Hirr Htr Hm Hr Hfull Hset.
  destruct (run_calls_reachable V T plus_ttl gt lt max_size calls self Hm Hr)
    as [[Hk Hn] [Hmax _]].
  unfold cache_set, _cleanup_if_needed in Hset. rewrite Hmax, Hfull in Hset.
  rewrite Z.leb_refl in Hset.
  destruct (min_key T lt (_access_times V T self)) as [oldest|] eqn:Hmin;
    [|discriminate].
  destruct (od_del (_cache V T self) oldest) as [cache'|] eqn:Hc; [|discriminate].
  destruct (od_del (_access_times V T self) oldest) as [times'|] eqn:Ht; [|discriminate].
  injection Hset as <-. cbn [_cache].
  destruct (min_key_least lt _ _ Hirr Htr Hmin) as [t [Hin Hleast]].
  assert (Hn' : NoDup (map fst (_access_times V T self))) by (rewrite <- Hk; exact Hn).
  exists oldest, t. split; [exact (In_od_get _ _ _ Hn' Hin)|].
  split; [intros k t' Hg; exact (Hleast k t' (od_get_In _ _ _ Hg))|].
  split.
  - intros Hne. rewrite od_set_get_other by exact Hne.
    exact (proj2 (od_del_NoDup _ _ _ Hn Hc)).
  - split; [apply od_get_set_same|].
    intros k Hko Hkk. rewrite od_set_get_other by exact Hkk.
    exact (od_del_get_other _ _ _ _ Hc Hko).
Qed.

Lemma X30_cache_evicts_least_recently_used_witness :
  exists oldest t_oldest,
    od_get [("a", 5); ("b", 3)] oldest = Some t_oldest /\
    (forall k t, od_get [("a", 5); ("b", 3)] k = Some t -> Z.ltb t t_oldest = false) /\
    (oldest <> "c" ->
     od_get [("a", mkCacheEntry Z Z 1 300 0); ("c", mkCacheEntry Z Z 3 310 10)] oldest
     = None) /\
    od_get [("a", mkCacheEntry Z Z 1 300 0); ("c", mkCacheEntry Z Z 3 310 10)] "c"
    = Some (mkCacheEntry Z Z 3 310 10) /\
    (forall k, k <> oldest -> k <> "c" ->
       od_get [("a", mkCacheEntry Z Z 1 300 0); ("c", mkCacheEntry Z Z 3 310 10)] k
       = od_get [("a", mkCacheEntry Z Z 1 300 0); ("b", mkCacheEntry Z Z 2 303 3)] k).
Proof.
  apply (X30_cache_evicts_least_recently_used Z Z Z.add Z.gtb Z.ltb 2
           [CallSet Z Z "a" 1 300 0 0 0; CallSet Z Z "b" 2 300 3 3 3; CallGet Z Z "a" 5 5]
           (mkMemoryCache Z Z
              [("a", mkCacheEntry Z Z 1 300 0); ("b", mkCacheEntry Z Z 2 303 3)] 2
              [("a", 5); ("b", 3)])
           (mkMemoryCache Z Z
              [("a", mkCacheEntry Z Z 1 300 0); ("c", mkCacheEntry Z Z 3 310 10)] 2
              [("a", 5); ("c", 10)])
           "c" 3 300 10 10 10).
  - intros x. apply Z.ltb_irrefl.
  - intros x y z H1 H2. apply Z.ltb_lt in H1, H2. apply Z.ltb_lt. lia.
  - lia.
  - reflexivity.
  - reflexivity.
  - reflexivity.
Defined.

